(** * conference-backend: the room signalling core of internal/websockets

    A shallow embedding of [internal/websockets/websockets.go]: the room
    registry ([peerConnections], [trackLocals]), the renegotiation pass
    ([attemptSync] inside [signalPeerConnections]), the keyframe broadcast
    ([dispatchKeyFrame]), track registration ([addTrack], [removeTrack]) and
    the WebSocket [Handler] with its read loop.

    The Go code is stateful and calls into pion/webrtc and gorilla/websocket.
    It is embedded in a state-and-trace monad [M]: every function takes the
    [World] (the package globals, the heap of [*webrtc.PeerConnection]
    objects, the goroutines that were started and an oracle fixing which
    fallible library calls fail) and returns its result, the new world and
    the list of observable [Effect]s it performed, oldest first. *)

From stdpp Require Import gmap strings list fin_maps sets.
From Stdlib Require Import NArith.

(** ** Data of the pion/webrtc and gorilla/websocket libraries *)

(** A Go pointer ([*webrtc.PeerConnection], [*threadSafeWriter]) is the
    identity of the object it points to. *)
Abbreviation handle := nat (only parsing).

(** [webrtc.RTPCodecCapability]. *)
Record RTPCodecCapability := {
  MimeType : string;
  ClockRate : N;
  Channels : N;
  SDPFmtpLine : string;
  RTCPFeedback : list (string * string);
}.

(** The part of a [*webrtc.TrackRemote] the program reads: [Codec()], [ID()],
    [StreamID()] and [SSRC()]. *)
Record TrackRemote := {
  trCodec : RTPCodecCapability;
  trID : string;
  trStreamID : string;
  trSSRC : N;
}.

(** [*webrtc.TrackLocalStaticRTP], as built by [webrtc.NewTrackLocalStaticRTP]. *)
Record TrackLocalStaticRTP := {
  tlCodec : RTPCodecCapability;
  tlID : string;
  tlStreamID : string;
}.

(** [webrtc.PeerConnectionState]. *)
Inductive PeerConnectionState :=
| PeerConnectionStateNew
| PeerConnectionStateConnecting
| PeerConnectionStateConnected
| PeerConnectionStateDisconnected
| PeerConnectionStateFailed
| PeerConnectionStateClosed.

(** [webrtc.SDPType] and [webrtc.SessionDescription]. *)
Inductive SDPType := SDPTypeOffer | SDPTypePranswer | SDPTypeAnswer | SDPTypeRollback.

Record SessionDescription := {
  sdType : SDPType;
  sdSDP : string;
}.

(** [webrtc.ICECandidateInit]. *)
Record ICECandidateInit := {
  Candidate : string;
  SDPMid : option string;
  SDPMLineIndex : option N;
  UsernameFragment : option string;
}.

(** [webrtc.RTPCodecType], the argument of [AddTransceiverFromKind]. *)
Inductive RTPCodecType := RTPCodecTypeAudio | RTPCodecTypeVideo.

(** The callbacks [Handler] installs on a peer connection are closures over
    [roomUUID] and the connection's writer [c]; a closure is recorded by the
    variables it captured. *)
Record Callbacks := {
  onICECandidate : option handle;
  onConnectionStateChange : option string;
  onTrack : option string;
}.

(** The state of one [webrtc.PeerConnection] object, as far as the program
    observes it.  A sender is identified by its position in [senders]
    ([GetSenders] returns them in this order); [None] is a sender or
    receiver whose [Track()] is nil. *)
Record PeerConnection := {
  connectionState : PeerConnectionState;
  senders : list (option TrackLocalStaticRTP);
  receivers : list (option TrackRemote);
  transceivers : list RTPCodecType;
  localDescription : option SessionDescription;
  remoteDescription : option SessionDescription;
  remoteCandidates : list ICECandidateInit;
  callbacks : Callbacks;
}.

Definition noCallbacks : Callbacks :=
  {| onICECandidate := None; onConnectionStateChange := None; onTrack := None |}.

(** What [webrtc.NewPeerConnection(webrtc.Configuration{})] returns. *)
Definition newPeerConnection : PeerConnection :=
  {| connectionState := PeerConnectionStateNew;
     senders := [];
     receivers := [];
     transceivers := [];
     localDescription := None;
     remoteDescription := None;
     remoteCandidates := [];
     callbacks := noCallbacks |}.

Definition with_senders (pc : PeerConnection) (ss : list (option TrackLocalStaticRTP)) : PeerConnection :=
  {| connectionState := connectionState pc;
     senders := ss;
     receivers := receivers pc;
     transceivers := transceivers pc;
     localDescription := localDescription pc;
     remoteDescription := remoteDescription pc;
     remoteCandidates := remoteCandidates pc;
     callbacks := callbacks pc |}.

Definition with_localDescription (pc : PeerConnection) (d : SessionDescription) : PeerConnection :=
  {| connectionState := connectionState pc;
     senders := senders pc;
     receivers := receivers pc;
     transceivers := transceivers pc;
     localDescription := Some d;
     remoteDescription := remoteDescription pc;
     remoteCandidates := remoteCandidates pc;
     callbacks := callbacks pc |}.

Definition with_remoteDescription (pc : PeerConnection) (d : SessionDescription) : PeerConnection :=
  {| connectionState := connectionState pc;
     senders := senders pc;
     receivers := receivers pc;
     transceivers := transceivers pc;
     localDescription := localDescription pc;
     remoteDescription := Some d;
     remoteCandidates := remoteCandidates pc;
     callbacks := callbacks pc |}.

Definition with_remoteCandidates (pc : PeerConnection) (cs : list ICECandidateInit) : PeerConnection :=
  {| connectionState := connectionState pc;
     senders := senders pc;
     receivers := receivers pc;
     transceivers := transceivers pc;
     localDescription := localDescription pc;
     remoteDescription := remoteDescription pc;
     remoteCandidates := cs;
     callbacks := callbacks pc |}.

Definition with_receivers (pc : PeerConnection) (rs : list (option TrackRemote)) : PeerConnection :=
  {| connectionState := connectionState pc;
     senders := senders pc;
     receivers := rs;
     transceivers := transceivers pc;
     localDescription := localDescription pc;
     remoteDescription := remoteDescription pc;
     remoteCandidates := remoteCandidates pc;
     callbacks := callbacks pc |}.

Definition with_transceivers (pc : PeerConnection) (ts : list RTPCodecType) : PeerConnection :=
  {| connectionState := connectionState pc;
     senders := senders pc;
     receivers := receivers pc;
     transceivers := ts;
     localDescription := localDescription pc;
     remoteDescription := remoteDescription pc;
     remoteCandidates := remoteCandidates pc;
     callbacks := callbacks pc |}.

Definition with_connectionState (pc : PeerConnection) (s : PeerConnectionState) : PeerConnection :=
  {| connectionState := s;
     senders := senders pc;
     receivers := receivers pc;
     transceivers := transceivers pc;
     localDescription := localDescription pc;
     remoteDescription := remoteDescription pc;
     remoteCandidates := remoteCandidates pc;
     callbacks := callbacks pc |}.

Definition with_callbacks (pc : PeerConnection) (cb : Callbacks) : PeerConnection :=
  {| connectionState := connectionState pc;
     senders := senders pc;
     receivers := receivers pc;
     transceivers := transceivers pc;
     localDescription := localDescription pc;
     remoteDescription := remoteDescription pc;
     remoteCandidates := remoteCandidates pc;
     callbacks := cb |}.

Definition isClosed (s : PeerConnectionState) : bool :=
  match s with PeerConnectionStateClosed => true | _ => false end.

(** ** Data of the program *)

(** [type websocketMessage struct]. *)
Record websocketMessage := {
  Event : string;
  Data : string;
}.

(** [type peerConnectionState struct]: two pointers. *)
Record peerConnectionState := {
  peerConnection : handle;
  websocket : handle;
}.

(** A goroutine started by a [go] statement and not finished: the keyframe
    ticker of [Handler] ([time.NewTicker(time.Second * 3)], captured
    [roomUUID]) and the delayed re-run of [signalPeerConnections]
    ([time.Sleep(time.Second * 3)]).  A connection-state callback that the
    library runs on a goroutine of its own is a [Signal] with no delay. *)
Inductive Goroutine :=
| Ticker (seconds : nat) (roomUUID : string)
| Signal (seconds : nat) (roomUUID : string).

(** Result of a fallible library call: [err == nil] or not. *)
Inductive Outcome := Ok | Err.

(** The package-level variables [peerConnections] and [trackLocals], the
    objects behind the pointers, the running goroutines, and the oracle:
    the outcomes of the fallible library calls still to come, in call
    order (once it is used up every call succeeds). *)
Record World := {
  peerConnections : gmap string (list peerConnectionState);
  trackLocals : gmap string (gmap string TrackLocalStaticRTP);
  heap : gmap handle PeerConnection;
  goroutines : list Goroutine;
  oracle : list Outcome;
}.

(** Observable steps.  [EAttemptSync] and [EDispatchKeyFrame] record a call
    of the closure [attemptSync] (with what it returned) and a call of
    [dispatchKeyFrame]; the rest are calls into the runtime and libraries. *)
Inductive Effect :=
| ELock
| EUnlock
| EPrintln (s : string)
| EGo (g : Goroutine)
| EPanic
| EAttemptSync (tryAgain : bool)
| EDispatchKeyFrame (roomUUID : string)
| ERemoveTrack (pc : handle) (sender : nat) (o : Outcome)
| EAddTrack (pc : handle) (t : TrackLocalStaticRTP) (o : Outcome)
| ECreateOffer (pc : handle) (o : Outcome)
| ESetLocalDescription (pc : handle) (d : SessionDescription) (o : Outcome)
| EMarshal (d : SessionDescription) (o : Outcome)
| EWriteJSON (ws : handle) (m : websocketMessage) (o : Outcome)
| EWriteRTCP (pc : handle) (mediaSSRC : N)
| EAddICECandidate (pc : handle) (c : ICECandidateInit) (o : Outcome)
| ESetRemoteDescription (pc : handle) (d : SessionDescription) (o : Outcome)
| ENewTrackLocal (id : string) (o : Outcome)
| EUpgrade (ws : handle) (o : Outcome)
| ENewPeerConnection (pc : handle) (o : Outcome)
| EAddTransceiverFromKind (pc : handle) (k : RTPCodecType) (o : Outcome)
| EClosePeerConnection (pc : handle)
| ECloseWebsocket (ws : handle).

Global Instance Outcome_eq_dec : EqDecision Outcome.
Proof. solve_decision. Defined.

(** What the program takes from its environment as pure functions: the
    order in which a [range] over a Go map visits the entries (unspecified
    by the language), the SDP text the stack generates for an offer, and
    the [encoding/json] codecs of the payload types. *)
Class Externals := {
  rangeMap : gmap string TrackLocalStaticRTP → list (string * TrackLocalStaticRTP);
  offerSDP : PeerConnection → string;
  marshalSessionDescription : SessionDescription → string;
  unmarshalICECandidateInit : string → option ICECandidateInit;
  unmarshalSessionDescription : string → option SessionDescription;
}.

(** A [range] visits every entry of the map once. *)
Class RangeLaw `{Externals} : Prop :=
  rangeMap_perm : ∀ m, rangeMap m ≡ₚ map_to_list m.

(** ** The monad *)

Definition M (A : Type) : Type := World → A * World * list Effect.

Definition ret {A} (a : A) : M A := λ w, (a, w, []).

Definition bind {A B} (m : M A) (k : A → M B) : M B :=
  λ w, let '(a, w1, t1) := m w in
       let '(b, w2, t2) := k a w1 in
       (b, w2, t1 ++ t2).

Notation "'let*' x ':=' m 'in' k" := (bind m (λ x, k))
  (at level 10, x binder, m at level 100, k at level 200, only parsing).
Notation "m ';;' k" := (bind m (λ _, k))
  (at level 100, k at level 200, right associativity, only parsing).

Definition emit (e : Effect) : M unit := λ w, (tt, w, [e]).

Definition gets {A} (f : World → A) : M A := λ w, (f w, w, []).

Definition modify (f : World → World) : M unit := λ w, (tt, f w, []).

(** Run [f] on every element, in order. *)
Fixpoint forEach {A} (f : A → M unit) (l : list A) : M unit :=
  match l with
  | [] => ret tt
  | x :: l' => f x;; forEach f l'
  end.

(** *** World updates *)

Definition set_peerConnections (v : gmap string (list peerConnectionState)) (w : World) : World :=
  {| peerConnections := v; trackLocals := trackLocals w; heap := heap w;
     goroutines := goroutines w; oracle := oracle w |}.

Definition set_trackLocals (v : gmap string (gmap string TrackLocalStaticRTP)) (w : World) : World :=
  {| peerConnections := peerConnections w; trackLocals := v; heap := heap w;
     goroutines := goroutines w; oracle := oracle w |}.

Definition set_heap (v : gmap handle PeerConnection) (w : World) : World :=
  {| peerConnections := peerConnections w; trackLocals := trackLocals w; heap := v;
     goroutines := goroutines w; oracle := oracle w |}.

Definition set_goroutines (v : list Goroutine) (w : World) : World :=
  {| peerConnections := peerConnections w; trackLocals := trackLocals w; heap := heap w;
     goroutines := v; oracle := oracle w |}.

Definition set_oracle (v : list Outcome) (w : World) : World :=
  {| peerConnections := peerConnections w; trackLocals := trackLocals w; heap := heap w;
     goroutines := goroutines w; oracle := v |}.

(** [peerConnections[roomUUID]]: a missing key reads as the nil slice. *)
Definition peersOf (roomUUID : string) (w : World) : list peerConnectionState :=
  default [] (peerConnections w !! roomUUID).

(** [trackLocals[roomUUID]]: a missing key reads as the nil map. *)
Definition tracksOf (roomUUID : string) (w : World) : gmap string TrackLocalStaticRTP :=
  default ∅ (trackLocals w !! roomUUID).

(** The object a [*webrtc.PeerConnection] points to. *)
Definition deref (h : handle) (w : World) : PeerConnection :=
  default newPeerConnection (heap w !! h).

Definition store (h : handle) (pc : PeerConnection) (w : World) : World :=
  set_heap (<[h := pc]> (heap w)) w.

(** The outcome of the next fallible library call. *)
Definition nextOutcome (w : World) : Outcome :=
  match oracle w with
  | [] => Ok
  | o :: _ => o
  end.

Definition outcome : M Outcome :=
  λ w, (nextOutcome w, set_oracle (tail (oracle w)) w, []).

(** A method call that changes the object behind the pointer. *)
Definition update (h : handle) (f : PeerConnection → PeerConnection) : M unit :=
  modify (λ w, store h (f (deref h w)) w).

(** [go f()]: the goroutine is started, its body runs later. *)
Definition go (g : Goroutine) : M unit :=
  emit (EGo g);; modify (λ w, set_goroutines (goroutines w ++ [g]) w).

(** ** The library calls the renegotiation pass makes *)

(** [pc.RemoveTrack(sender)]: on success the sender stays in [GetSenders()]
    and its [Track()] is nil from then on. *)
Definition RemoveTrack (h : handle) (sender : nat) : M Outcome :=
  let* o := outcome in
  emit (ERemoveTrack h sender o);;
  match o with
  | Err => ret Err
  | Ok =>
      update h (λ pc, with_senders pc (<[sender := None]> (senders pc)));;
      ret Ok
  end.

(** [pc.AddTrack(track)]: on success [GetSenders()] has one more sender,
    carrying [track]. *)
Definition AddTrack (h : handle) (t : TrackLocalStaticRTP) : M Outcome :=
  let* o := outcome in
  emit (EAddTrack h t o);;
  match o with
  | Err => ret Err
  | Ok =>
      update h (λ pc, with_senders pc (senders pc ++ [Some t]));;
      ret Ok
  end.

Section Program.
Context `{Externals}.

(** [pc.CreateOffer(nil)]. *)
Definition CreateOffer (h : handle) : M (option SessionDescription) :=
  let* o := outcome in
  emit (ECreateOffer h o);;
  match o with
  | Err => ret None
  | Ok =>
      let* pc := gets (deref h) in
      ret (Some {| sdType := SDPTypeOffer; sdSDP := offerSDP pc |})
  end.

(** [pc.SetLocalDescription(offer)]. *)
Definition SetLocalDescription (h : handle) (d : SessionDescription) : M Outcome :=
  let* o := outcome in
  emit (ESetLocalDescription h d o);;
  match o with
  | Err => ret Err
  | Ok =>
      update h (λ pc, with_localDescription pc d);;
      ret Ok
  end.

(** [json.Marshal(offer)]. *)
Definition Marshal (d : SessionDescription) : M (option string) :=
  let* o := outcome in
  emit (EMarshal d o);;
  match o with
  | Err => ret None
  | Ok => ret (Some (marshalSessionDescription d))
  end.

(** [threadSafeWriter.WriteJSON], lines 44-49: the frame goes out under
    the writer's own mutex. *)
Definition WriteJSON (ws : handle) (m : websocketMessage) : M Outcome :=
  let* o := outcome in
  emit (EWriteJSON ws m o);;
  ret o.

(** ** dispatchKeyFrame, lines 52-69 *)

Definition dispatchKeyFrame (roomUUID : string) : M unit :=
  emit (EDispatchKeyFrame roomUUID);;
  emit ELock;;
  let* peers := gets (peersOf roomUUID) in
  forEach (λ p,
    let* pc := gets (deref (peerConnection p)) in
    forEach (λ receiver,
      match receiver with
      | None => ret tt
      | Some track => emit (EWriteRTCP (peerConnection p) (trSSRC track))
      end) (receivers pc)) peers;;
  emit EUnlock.

(** ** attemptSync, lines 242-308 *)

(** Lines 252-265: the loop over [GetSenders()].  [None] is [return true]. *)
Fixpoint sendersLoop (roomUUID : string) (p : peerConnectionState)
    (senderList : list nat) (existingSenders : gset string) : M (option (gset string)) :=
  match senderList with
  | [] => ret (Some existingSenders)
  | sender :: rest =>
      let* pc := gets (deref (peerConnection p)) in
      match mjoin (senders pc !! sender) with
      | None => sendersLoop roomUUID p rest existingSenders
      | Some track =>
          let existingSenders := {[ tlID track ]} ∪ existingSenders in
          let* tracks := gets (tracksOf roomUUID) in
          match tracks !! tlID track with
          | Some _ => sendersLoop roomUUID p rest existingSenders
          | None =>
              let* err := RemoveTrack (peerConnection p) sender in
              match err with
              | Err => ret None
              | Ok => sendersLoop roomUUID p rest existingSenders
              end
          end
      end
  end.

(** Lines 268-274: the loop over [GetReceivers()]. *)
Definition receiversLoop (receiverList : list (option TrackRemote))
    (existingSenders : gset string) : gset string :=
  foldl (λ acc receiver,
           match receiver with
           | None => acc
           | Some track => {[ trID track ]} ∪ acc
           end) existingSenders receiverList.

(** Lines 277-283: the loop over [trackLocals[roomUUID]].  [Err] is
    [return true]. *)
Fixpoint tracksLoop (p : peerConnectionState)
    (entries : list (string * TrackLocalStaticRTP)) (existingSenders : gset string) : M Outcome :=
  match entries with
  | [] => ret Ok
  | (trackID, track) :: rest =>
      if decide (trackID ∈ existingSenders) then tracksLoop p rest existingSenders
      else
        let* err := AddTrack (peerConnection p) track in
        match err with
        | Err => ret Err
        | Ok => tracksLoop p rest existingSenders
        end
  end.

(** Lines 285-304: the offer. *)
Definition sendOffer (p : peerConnectionState) : M bool :=
  let* offer := CreateOffer (peerConnection p) in
  match offer with
  | None => ret true
  | Some offer =>
      let* err := SetLocalDescription (peerConnection p) offer in
      match err with
      | Err => ret true
      | Ok =>
          let* offerString := Marshal offer in
          match offerString with
          | None => ret true
          | Some offerString =>
              let* err := WriteJSON (websocket p) {| Event := "offer"; Data := offerString |} in
              match err with
              | Err => ret true
              | Ok => ret false
              end
          end
      end
  end.

(** Lines 249-304: the body of the loop for a peer that is not closed.
    The result [true] is [return true]; [false] is falling through to the
    next iteration. *)
Definition syncPeer (roomUUID : string) (p : peerConnectionState) : M bool :=
  let* pc := gets (deref (peerConnection p)) in
  let* existingSenders := sendersLoop roomUUID p (seq 0 (length (senders pc))) ∅ in
  match existingSenders with
  | None => ret true
  | Some existingSenders =>
      let* pc := gets (deref (peerConnection p)) in
      let existingSenders := receiversLoop (receivers pc) existingSenders in
      let* tracks := gets (tracksOf roomUUID) in
      let* err := tracksLoop p (rangeMap tracks) existingSenders in
      match err with
      | Err => ret true
      | Ok => sendOffer p
      end
  end.

(** Lines 243-307: [for i := range peerConnections[roomUUID]].  The range
    expression is evaluated once; [snapshot] is what is left of it from
    index [i] on. *)
Fixpoint peersLoop (roomUUID : string) (i : nat) (snapshot : list peerConnectionState) : M bool :=
  match snapshot with
  | [] => ret false
  | p :: rest =>
      let* pc := gets (deref (peerConnection p)) in
      if isClosed (connectionState pc) then
        let* peers := gets (peersOf roomUUID) in
        modify (λ w, set_peerConnections
                       (<[roomUUID := take i peers ++ drop (S i) peers]> (peerConnections w)) w);;
        ret true
      else
        let* tryAgain := syncPeer roomUUID p in
        if tryAgain then ret true else peersLoop roomUUID (S i) rest
  end.

Definition attemptSync (roomUUID : string) : M bool :=
  let* peers := gets (peersOf roomUUID) in
  peersLoop roomUUID 0 peers.

(** ** signalPeerConnections, lines 235-325 *)

Definition maxSyncAttempts : nat := 25.

(** Lines 310-324; [remaining] is [25 - syncAttempt]. *)
Fixpoint syncLoop (roomUUID : string) (remaining : nat) : M unit :=
  match remaining with
  | 0 => go (Signal 3 roomUUID)
  | S remaining' =>
      let* tryAgain := attemptSync roomUUID in
      emit (EAttemptSync tryAgain);;
      if tryAgain then syncLoop roomUUID remaining' else ret tt
  end.

(** The deferred closure of lines 237-240 runs on every way out of the
    function. *)
Definition signalPeerConnections (roomUUID : string) : M unit :=
  emit ELock;;
  syncLoop roomUUID maxSyncAttempts;;
  emit EUnlock;;
  dispatchKeyFrame roomUUID.

(** ** addTrack and removeTrack, lines 328-360 *)

(** [webrtc.NewTrackLocalStaticRTP(c, id, streamID)]. *)
Definition NewTrackLocalStaticRTP (c : RTPCodecCapability) (id streamID : string)
    : M (option TrackLocalStaticRTP) :=
  let* o := outcome in
  emit (ENewTrackLocal id o);;
  match o with
  | Err => ret None
  | Ok => ret (Some {| tlCodec := c; tlID := id; tlStreamID := streamID |})
  end.

(** [None] is the panic of line 339: the deferred closure still runs, then
    the panic unwinds the goroutine of the library that called [OnTrack],
    which nothing recovers. *)
Definition addTrack (t : TrackRemote) (roomUUID : string) : M (option TrackLocalStaticRTP) :=
  emit ELock;;
  let* trackLocal := NewTrackLocalStaticRTP (trCodec t) (trID t) (trStreamID t) in
  match trackLocal with
  | None =>
      emit EUnlock;;
      signalPeerConnections roomUUID;;
      emit EPanic;;
      ret None
  | Some trackLocal =>
      modify (λ w, set_trackLocals
                     (<[roomUUID := <[trID t := trackLocal]> (tracksOf roomUUID w)]> (trackLocals w)) w);;
      emit EUnlock;;
      signalPeerConnections roomUUID;;
      ret (Some trackLocal)
  end.

(** [delete] on a nil map is a no-op and creates nothing. *)
Definition removeTrack (t : TrackLocalStaticRTP) (roomUUID : string) : M unit :=
  emit ELock;;
  modify (λ w, set_trackLocals (alter (delete (tlID t)) roomUUID (trackLocals w)) w);;
  emit EUnlock;;
  signalPeerConnections roomUUID.

(** ** Handler, lines 79-232 *)

(** The request: the route variables [mux.Vars(r)] and the client
    connection that [upgrader.Upgrade] turns into the WebSocket. *)
Record Request := {
  vars : gmap string string;
  conn : handle;
}.

Definition missingRoomDiagnostic : string := "Идентификатор комнаты отсутствует".

(** [upgrader.Upgrade(w, r, nil)] and the wrapping into [threadSafeWriter]. *)
Definition Upgrade (r : Request) : M (option handle) :=
  let* o := outcome in
  emit (EUpgrade (conn r) o);;
  match o with
  | Err => ret None
  | Ok => ret (Some (conn r))
  end.

(** [webrtc.NewPeerConnection(webrtc.Configuration{})]: a new object, at an
    address no object has yet. *)
Definition NewPeerConnection : M (option handle) :=
  let* o := outcome in
  let* h := gets (λ w, fresh (dom (heap w))) in
  emit (ENewPeerConnection h o);;
  match o with
  | Err => ret None
  | Ok => modify (store h newPeerConnection);; ret (Some h)
  end.

(** [pc.AddTransceiverFromKind(typ, recvonly)]: on success the connection
    has one more transceiver, whose receiver has no track yet. *)
Definition AddTransceiverFromKind (h : handle) (typ : RTPCodecType) : M Outcome :=
  let* o := outcome in
  emit (EAddTransceiverFromKind h typ o);;
  match o with
  | Err => ret Err
  | Ok =>
      update h (λ pc, with_receivers (with_transceivers pc (transceivers pc ++ [typ]))
                                      (receivers pc ++ [None]));;
      ret Ok
  end.

(** [pc.Close()]: the first call moves the connection to [Closed] and the
    library calls the connection-state callback, if one is installed, with
    [Closed] on a goroutine of its own; that callback (lines 160-170) calls
    [signalPeerConnections(roomUUID)]. *)
Definition ClosePeerConnection (h : handle) : M unit :=
  emit (EClosePeerConnection h);;
  let* pc := gets (deref h) in
  if isClosed (connectionState pc) then ret tt
  else
    update h (λ pc, with_connectionState pc PeerConnectionStateClosed);;
    match onConnectionStateChange (callbacks pc) with
    | None => ret tt
    | Some roomUUID => go (Signal 0 roomUUID)
    end.

(** [c.Close()]. *)
Definition CloseWebsocket (ws : handle) : M unit := emit (ECloseWebsocket ws).

(** [pc.AddICECandidate(candidate)]. *)
Definition AddICECandidate (h : handle) (c : ICECandidateInit) : M Outcome :=
  let* o := outcome in
  emit (EAddICECandidate h c o);;
  match o with
  | Err => ret Err
  | Ok =>
      update h (λ pc, with_remoteCandidates pc (remoteCandidates pc ++ [c]));;
      ret Ok
  end.

(** [pc.SetRemoteDescription(answer)]. *)
Definition SetRemoteDescription (h : handle) (d : SessionDescription) : M Outcome :=
  let* o := outcome in
  emit (ESetRemoteDescription h d o);;
  match o with
  | Err => ret Err
  | Ok =>
      update h (λ pc, with_remoteDescription pc d);;
      ret Ok
  end.

(** Lines 125-132. *)
Fixpoint addTransceivers (h : handle) (kinds : list RTPCodecType) : M Outcome :=
  match kinds with
  | [] => ret Ok
  | typ :: rest =>
      let* err := AddTransceiverFromKind h typ in
      match err with
      | Err => ret Err
      | Ok => addTransceivers h rest
      end
  end.

(** Lines 101-191: from the new peer connection to the first
    [signalPeerConnections].  [None] is an early [return], after the
    deferred closes registered so far have run; otherwise the room id and
    the registered pair. *)
Definition handlerSession (roomUUID : string) (c : handle)
    : M (option (string * peerConnectionState)) :=
  let* pc := NewPeerConnection in
  match pc with
  | None => CloseWebsocket c;; ret None
  | Some pc =>
      let* err := addTransceivers pc [RTPCodecTypeVideo; RTPCodecTypeAudio] in
      match err with
      | Err => ClosePeerConnection pc;; CloseWebsocket c;; ret None
      | Ok =>
          let p := {| peerConnection := pc; websocket := c |} in
          emit ELock;;
          modify (λ w, set_peerConnections
                         (<[roomUUID := peersOf roomUUID w ++ [p]]> (peerConnections w)) w);;
          emit EUnlock;;
          update pc (λ o, with_callbacks o
                    {| onICECandidate := Some c;
                       onConnectionStateChange := Some roomUUID;
                       onTrack := Some roomUUID |});;
          signalPeerConnections roomUUID;;
          ret (Some (roomUUID, p))
      end
  end.

(** Lines 81-191: everything before the read loop.  A missing route
    variable leaves [roomUUID] at the zero value of its type. *)
Definition handlerSetup (r : Request) : M (option (string * peerConnectionState)) :=
  let roomUUID := default "" (vars r !! "uuid") in
  match vars r !! "uuid" with
  | Some _ => ret tt
  | None => emit (EPrintln missingRoomDiagnostic)
  end;;
  let* c := Upgrade r in
  match c with
  | None => ret None
  | Some c =>
      go (Ticker 3 roomUUID);;
      handlerSession roomUUID c
  end.

(** One inbound frame, by what [c.ReadMessage()] and
    [json.Unmarshal(raw, &message)] make of it. *)
Inductive Inbound :=
| ReadError
| UnmarshalError
| JSONNull
| JSONObject (event data : option string).

(** How the read loop ended: a [return], or the nil dereference of
    [message.Event] after the literal [null] was decoded into [&message]. *)
Inductive LoopExit := Returned | Panicked.

(** [json.Unmarshal(raw, &message)] on an object: [message] is allocated
    once, before the loop (line 193), so a field missing from a frame keeps
    the value the frame before left in it. *)
Definition decoded (message : websocketMessage) (event data : option string) : websocketMessage :=
  {| Event := default (Event message) event; Data := default (Data message) data |}.

(** Lines 207-230: the [switch] on [message.Event].  It has no [default]
    case. *)
Definition handleMessage (p : peerConnectionState) (message : websocketMessage)
    : M (LoopExit + websocketMessage) :=
  if decide (Event message = "candidate") then
    match unmarshalICECandidateInit (Data message) with
    | None => ret (inl Returned)
    | Some candidate =>
        let* err := AddICECandidate (peerConnection p) candidate in
        match err with
        | Err => ret (inl Returned)
        | Ok => ret (inr message)
        end
    end
  else if decide (Event message = "answer") then
    match unmarshalSessionDescription (Data message) with
    | None => ret (inl Returned)
    | Some answer =>
        let* err := SetRemoteDescription (peerConnection p) answer in
        match err with
        | Err => ret (inl Returned)
        | Ok => ret (inr message)
        end
    end
  else ret (inr message).

(** Lines 195-230: one iteration. *)
Definition readStep (p : peerConnectionState) (message : websocketMessage) (frame : Inbound)
    : M (LoopExit + websocketMessage) :=
  match frame with
  | ReadError => ret (inl Returned)
  | UnmarshalError => ret (inl Returned)
  | JSONNull => emit EPanic;; ret (inl Panicked)
  | JSONObject event data => handleMessage p (decoded message event data)
  end.

(** Lines 193-231.  [None]: every frame of [inbound] was handled and the
    loop is waiting in [ReadMessage]. *)
Fixpoint readLoop (p : peerConnectionState) (message : websocketMessage) (inbound : list Inbound)
    : M (option LoopExit) :=
  match inbound with
  | [] => ret None
  | frame :: rest =>
      let* r := readStep p message frame in
      match r with
      | inl exit => ret (Some exit)
      | inr message => readLoop p message rest
      end
  end.

(** The deferred calls of lines 102-107 and 117-122, last registered first. *)
Definition handlerDefers (p : peerConnectionState) : M unit :=
  ClosePeerConnection (peerConnection p);;
  CloseWebsocket (websocket p).

Inductive HandlerResult :=
| Finished
| Serving (roomUUID : string) (p : peerConnectionState).

(** [Handler] run on a request and the frames the client sends. *)
Definition Handler (r : Request) (inbound : list Inbound) : M HandlerResult :=
  let* s := handlerSetup r in
  match s with
  | None => ret Finished
  | Some (roomUUID, p) =>
      let* exit := readLoop p {| Event := ""; Data := "" |} inbound in
      match exit with
      | None => ret (Serving roomUUID p)
      | Some _ => handlerDefers p;; ret Finished
      end
  end.

(** The callbacks of lines 160-188, by the variables they captured. *)
Definition connectionStateCallback (roomUUID : string) (pc : handle) (s : PeerConnectionState) : M unit :=
  match s with
  | PeerConnectionStateFailed => ClosePeerConnection pc
  | PeerConnectionStateClosed => signalPeerConnections roomUUID
  | _ => ret tt
  end.

(** [OnTrack]: [addTrack] when the remote track appears, and the deferred
    [removeTrack] when reading from it fails. *)
Definition trackCallbackBegin (roomUUID : string) (t : TrackRemote) : M (option TrackLocalStaticRTP) :=
  addTrack t roomUUID.

Definition trackCallbackEnd (roomUUID : string) (trackLocal : TrackLocalStaticRTP) : M unit :=
  removeTrack trackLocal roomUUID.

(** ** The goroutines *)

(** One turn of a goroutine that was started: a ticker fires and stays, a
    delayed [signalPeerConnections] runs once. *)
Inductive turn : World → list Effect → World → Prop :=
| turn_tick w seconds roomUUID :
    Ticker seconds roomUUID ∈ goroutines w →
    turn w (dispatchKeyFrame roomUUID w).2 (dispatchKeyFrame roomUUID w).1.2
| turn_signal w before after seconds roomUUID :
    goroutines w = before ++ Signal seconds roomUUID :: after →
    let w0 := set_goroutines (before ++ after) w in
    turn w (signalPeerConnections roomUUID w0).2 (signalPeerConnections roomUUID w0).1.2.

End Program.

(** * Vocabulary of the specification *)

(** A relation between the world before and after that every step of a
    computation respects. *)
Definition preserves {A} (R : relation World) (m : M A) : Prop :=
  ∀ w, R w (m w).1.2.

(** A property of every effect a computation performs. *)
Definition emits {A} (P : Effect → Prop) (m : M A) : Prop :=
  ∀ w, Forall P (m w).2.

(** [same f]: the component [f] of the world is unchanged. *)
Definition same {A} (f : World → A) : relation World := λ w w', f w' = f w.

(** [keeps g]: the aspect [g] of every peer connection is unchanged. *)
Definition keeps {A} (g : PeerConnection → A) : relation World :=
  λ w w', ∀ h, g (deref h w') = g (deref h w).

(** [only_at h]: no object other than the one at [h] is touched. *)
Definition only_at (h : handle) : relation World :=
  λ w w', ∀ h', h' ≠ h → heap w' !! h' = heap w !! h'.

(** [grows]: goroutines are started, none goes away. *)
Definition grows : relation World :=
  λ w w', goroutines w `prefix_of` goroutines w'.

(** A component of the world that is neither the heap nor the oracle. *)
Class Registry {A} (f : World → A) : Prop := {
  registry_heap : ∀ v w, f (set_heap v w) = f w;
  registry_oracle : ∀ v w, f (set_oracle v w) = f w;
}.

(** What a renegotiation pass may read of a connection but never writes. *)
Definition observed (pc : PeerConnection) :=
  (receivers pc, connectionState pc, callbacks pc).

(** The ids of the tracks a list of senders carries: a sender whose
    [Track()] is nil carries none. *)
Definition idsOf (ss : list (option TrackLocalStaticRTP)) : gset string :=
  list_to_set (tlID <$> omap id ss).

(** [senderIDs pc]: the ids of the tracks [pc] sends. *)
Definition senderIDs (pc : PeerConnection) : gset string := idsOf (senders pc).

(** [receiverIDs pc]: the ids of the tracks [pc] receives. *)
Definition receiverIDs (pc : PeerConnection) : gset string :=
  list_to_set (trID <$> omap id (receivers pc)).

(** What the loop over the senders does to one sender. *)
Definition prune (tracks : gmap string TrackLocalStaticRTP) (s : option TrackLocalStaticRTP)
    : option TrackLocalStaticRTP :=
  match s with
  | Some t => if tracks !! tlID t is Some _ then Some t else None
  | None => None
  end.

(** The keys of a room's track map are the ids of its tracks: [addTrack]
    inserts under [t.ID()] a track built with that id. *)
Definition keyedByID (tracks : gmap string TrackLocalStaticRTP) : Prop :=
  ∀ k t, tracks !! k = Some t → tlID t = k.

(** A connection agrees with the room's tracks: it sends nothing that is
    not registered, and every registered track is sent or is one it
    receives. *)
Definition synced (tracks : gmap string TrackLocalStaticRTP) (pc : PeerConnection) : Prop :=
  senderIDs pc ⊆ dom tracks ∧ dom tracks ⊆ senderIDs pc ∪ receiverIDs pc.

(** No fallible call to come fails. *)
Definition calm (w : World) : Prop := Forall (λ o, o = Ok) (oracle w).

(** The next [n] fallible library calls succeed. *)
Definition succeedNext (n : nat) (w : World) : Prop :=
  Forall (λ o, o = Ok) (take n (oracle w)).

(** A successful library call on the connection at [h]: it uses up one
    outcome of the oracle and changes that one object by [f]. *)
Definition touches (h : handle) (f : PeerConnection → PeerConnection) (w w' : World) : Prop :=
  peerConnections w' = peerConnections w
  ∧ trackLocals w' = trackLocals w
  ∧ goroutines w' = goroutines w
  ∧ oracle w' = tail (oracle w)
  ∧ deref h w' = f (deref h w)
  ∧ ∀ h', h' ≠ h → deref h' w' = deref h' w.

(** A registered pair whose connection is not closed. *)
Definition live (p : peerConnectionState) (w : World) : Prop :=
  connectionState (deref (peerConnection p) w) ≠ PeerConnectionStateClosed.

(** [retains]: a registered peer whose connection is not closed stays
    registered, in its room. *)
Definition retains : relation World :=
  λ w w', keeps observed w w'
          ∧ ∀ room p, p ∈ peersOf room w → live p w → p ∈ peersOf room w'.

(** The calls that change what a connection sends. *)
Definition isTrackOp (e : Effect) : Prop :=
  match e with
  | ERemoveTrack _ _ _ | EAddTrack _ _ _ => True
  | _ => False
  end.

(** The four steps of the offer. *)
Definition isOfferOp (e : Effect) : Prop :=
  match e with
  | ECreateOffer _ _ | ESetLocalDescription _ _ _ | EMarshal _ _ | EWriteJSON _ _ _ => True
  | _ => False
  end.

(** The outcome an effect reports, when it is a fallible call. *)
Definition outcomeOf (e : Effect) : option Outcome :=
  match e with
  | ERemoveTrack _ _ o | EAddTrack _ _ o | ECreateOffer _ o | ESetLocalDescription _ _ o
  | EMarshal _ o | EWriteJSON _ _ o | EAddICECandidate _ _ o | ESetRemoteDescription _ _ o
  | ENewTrackLocal _ o | EUpgrade _ o | ENewPeerConnection _ o
  | EAddTransceiverFromKind _ _ o => Some o
  | _ => None
  end.

(** An effect that is not a failed call, and one that is. *)
Definition succeeded (e : Effect) : Prop := outcomeOf e ≠ Some Err.

Definition failed (e : Effect) : Prop := outcomeOf e = Some Err.

(** A failed step of the offer other than the write itself. *)
Definition isOfferFailure (e : Effect) : Prop :=
  match e with
  | ECreateOffer _ Err | ESetLocalDescription _ _ Err | EMarshal _ Err => True
  | _ => False
  end.

(** A frame written to a socket, whatever the outcome. *)
Definition isWriteJSON (e : Effect) : Prop :=
  match e with EWriteJSON _ _ _ => True | _ => False end.

(** The start of a goroutine. *)
Definition isGo (e : Effect) : Prop :=
  match e with EGo _ => True | _ => False end.

(** Closing a peer connection or a WebSocket. *)
Definition isClose (e : Effect) : Prop :=
  match e with
  | EClosePeerConnection _ | ECloseWebsocket _ => True
  | _ => False
  end.

(** What happens between taking and releasing the registry lock in
    [signalPeerConnections]: the calls of a pass, the record of each
    attempt, and the start of the goroutine that signals again. *)
Definition insideLock (e : Effect) : Prop :=
  match e with
  | ERemoveTrack _ _ _ | EAddTrack _ _ _ | ECreateOffer _ _ | ESetLocalDescription _ _ _
  | EMarshal _ _ | EWriteJSON _ _ _ | EAttemptSync _ | EGo _ => True
  | _ => False
  end.

(** The sockets on which an offer frame went out, in order. *)
Definition offersSent (t : list Effect) : list handle :=
  omap (λ e, match e with
             | EWriteJSON ws m Ok => if decide (Event m = "offer") then Some ws else None
             | _ => None
             end) t.

(** The results of the calls of [attemptSync], in order. *)
Definition attemptResults (t : list Effect) : list bool :=
  omap (λ e, match e with EAttemptSync b => Some b | _ => None end) t.

(** The PLI packets of one keyframe broadcast. *)
Definition keyframes (roomUUID : string) (w : World) : list Effect :=
  p ← peersOf roomUUID w;
  receiver ← receivers (deref (peerConnection p) w);
  match receiver with
  | None => []
  | Some track => [EWriteRTCP (peerConnection p) (trSSRC track)]
  end.

Section OfferTraces.
Context `{Externals}.

(** The five ways the offer of lines 285-304 can go, with what is
    returned. *)
Inductive offerTrace (p : peerConnectionState) : bool → list Effect → Prop :=
| offer_create_fails :
    offerTrace p true [ECreateOffer (peerConnection p) Err]
| offer_setLocal_fails offer :
    offerTrace p true [ECreateOffer (peerConnection p) Ok;
                       ESetLocalDescription (peerConnection p) offer Err]
| offer_marshal_fails offer :
    offerTrace p true [ECreateOffer (peerConnection p) Ok;
                       ESetLocalDescription (peerConnection p) offer Ok;
                       EMarshal offer Err]
| offer_write_fails offer :
    offerTrace p true [ECreateOffer (peerConnection p) Ok;
                       ESetLocalDescription (peerConnection p) offer Ok;
                       EMarshal offer Ok;
                       EWriteJSON (websocket p)
                         {| Event := "offer"; Data := marshalSessionDescription offer |} Err]
| offer_sent offer :
    offerTrace p false [ECreateOffer (peerConnection p) Ok;
                        ESetLocalDescription (peerConnection p) offer Ok;
                        EMarshal offer Ok;
                        EWriteJSON (websocket p)
                          {| Event := "offer"; Data := marshalSessionDescription offer |} Ok].

End OfferTraces.

(** * Vocabulary of the further properties *)

(** Whether the connection of a registered pair is closed, as line 244
    tests it. *)
Definition closedIn (w : World) (p : peerConnectionState) : bool :=
  isClosed (connectionState (deref (peerConnection p) w)).

(** How many pairs of a list have a closed connection. *)
Definition closedCount (w : World) (peers : list peerConnectionState) : nat :=
  length (filter (λ p, closedIn w p) peers).

(** [peers] without its first [n] pairs whose connection is closed. *)
Fixpoint dropClosed (w : World) (peers : list peerConnectionState) (n : nat)
    : list peerConnectionState :=
  match peers with
  | [] => []
  | p :: rest =>
      match n with
      | 0 => p :: rest
      | S n' => if closedIn w p then dropClosed w rest n' else p :: dropClosed w rest n
      end
  end.

(** [consumes]: fallible calls use up outcomes of the oracle, in order, and
    nothing else changes it. *)
Definition consumes : relation World :=
  λ w w', oracle w' `suffix_of` oracle w.

(** The world [addTrack] and [removeTrack] hand to [signalPeerConnections]:
    one outcome used up and the track registered, and the id deleted. *)
Definition registered (t : TrackLocalStaticRTP) (roomUUID : string) (w : World) : World :=
  set_trackLocals (<[roomUUID := <[tlID t := t]> (tracksOf roomUUID w)]> (trackLocals w))
    (set_oracle (tail (oracle w)) w).

Definition unregistered (id roomUUID : string) (w : World) : World :=
  set_trackLocals (alter (delete id) roomUUID (trackLocals w)) w.

(** The local track [addTrack] builds for a remote one. *)
Definition localOf (t : TrackRemote) : TrackLocalStaticRTP :=
  {| tlCodec := trCodec t; tlID := trID t; tlStreamID := trStreamID t |}.

(** [shrinks room]: the list of [room] loses pairs at most, and no other
    room's list changes. *)
Definition shrinks (roomUUID : string) : relation World :=
  λ w w', peersOf roomUUID w' `sublist_of` peersOf roomUUID w
          ∧ ∀ room', room' ≠ roomUUID → peersOf room' w' = peersOf room' w.

(** The track ids a connection sends, one for each sender that has a
    track, in the order of [GetSenders()]. *)
Definition sentIDs (pc : PeerConnection) : list string :=
  tlID <$> omap id (senders pc).

(** No connection has two senders for one track id. *)
Definition noDoubleSend (w : World) : Prop :=
  ∀ h, NoDup (sentIDs (deref h w)).

(** Every track map is keyed by track id. *)
Definition wellKeyed (w : World) : Prop :=
  ∀ roomUUID, keyedByID (tracksOf roomUUID w).

Definition wellFormed (w : World) : Prop := wellKeyed w ∧ noDoubleSend w.

(** [carries I]: a step that keeps the invariant [I]. *)
Definition carries (I : World → Prop) : relation World := λ w w', I w → I w'.

(** [thins]: connections lose senders' tracks at most. *)
Definition thins : relation World :=
  λ w w', ∀ h, sentIDs (deref h w') `sublist_of` sentIDs (deref h w).

(** The state of the package when it is loaded, lines 22-25: empty maps,
    no connection, no goroutine.  Which library calls will fail is open. *)
Definition initial (w : World) : Prop :=
  peerConnections w = ∅ ∧ trackLocals w = ∅ ∧ heap w = ∅ ∧ goroutines w = [].

Section Steps.
Context `{Externals}.

(** What can happen to the state: a request is served, a callback of a
    connection runs, a goroutine takes a turn, the library changes a
    connection by itself (its state, its receivers, its descriptions, never
    its senders), or the outcomes of the calls to come are decided. *)
Inductive step : World → World → Prop :=
| step_Handler r inbound w :
    step w (Handler r inbound w).1.2
| step_onTrack_begin roomUUID t w :
    step w (trackCallbackBegin roomUUID t w).1.2
| step_onTrack_end roomUUID trackLocal w :
    step w (trackCallbackEnd roomUUID trackLocal w).1.2
| step_onConnectionStateChange roomUUID pc s w :
    step w (connectionStateCallback roomUUID pc s w).1.2
| step_goroutine w t w' :
    turn w t w' → step w w'
| step_library h F w :
    (∀ pc, senders (F pc) = senders pc) → step w (store h (F (deref h w)) w)
| step_oracle v w :
    step w (set_oracle v w).

Definition reachable (w : World) : Prop :=
  ∃ w0, initial w0 ∧ rtc step w0 w.

End Steps.

(** The calls the program makes only with [listLock] held: the changes to
    what a connection sends, the offer, the keyframe requests. *)
Definition needsLock (e : Effect) : bool :=
  match e with
  | ERemoveTrack _ _ _ | EAddTrack _ _ _ | ECreateOffer _ _ | ESetLocalDescription _ _ _
  | EWriteRTCP _ _ | EAttemptSync _ => true
  | _ => false
  end.

(** Follow [listLock] through a trace, from [held]: [None] when the lock
    is taken while held (a deadlock, [sync.RWMutex] is not reentrant),
    released while free (a run-time panic), or a call that needs it is
    made without it; otherwise whether it is held at the end. *)
Fixpoint lockScan (held : bool) (t : list Effect) : option bool :=
  match t with
  | [] => Some held
  | ELock :: t' => if held then None else lockScan true t'
  | EUnlock :: t' => if held then lockScan false t' else None
  | e :: t' => if needsLock e && negb held then None else lockScan held t'
  end.

(** [scans b b' m]: run from any state with the lock in state [b], [m]
    respects the lock and leaves it in state [b']. *)
Definition scans {A} (b b' : bool) (m : M A) : Prop :=
  ∀ w, lockScan b (m w).2 = Some b'.

(** What [Handler] does between opening its resources and closing them:
    neither. *)
Definition midSession (e : Effect) : Prop :=
  match e with
  | EClosePeerConnection _ | ECloseWebsocket _ | ENewPeerConnection _ _ | EUpgrade _ _ => False
  | _ => True
  end.

(** The calls the read loop makes: on the connection of its own session,
    or the nil dereference. *)
Definition ownSignalling (pc : handle) (e : Effect) : Prop :=
  match e with
  | EAddICECandidate h _ _ | ESetRemoteDescription h _ _ => h = pc
  | EPanic => True
  | _ => False
  end.

(** [gathers h]: the remote candidates of the connection at [h] are added
    to, in order, never dropped. *)
Definition gathers (h : handle) : relation World :=
  λ w w', remoteCandidates (deref h w) `prefix_of` remoteCandidates (deref h w').

(** [elsewhere room]: the lists of the rooms other than [room] are
    untouched. *)
Definition elsewhere (roomUUID : string) : relation World :=
  λ w w', ∀ room', room' ≠ roomUUID → peersOf room' w' = peersOf room' w.

(** The goroutines take turns, one after the other. *)
Definition turns `{Externals} : relation World :=
  rtc (λ w w', ∃ t, turn w t w').

(** What a pass that meets no failure makes of the track ids a connection
    sends: the ones no longer registered go, the registered ones that it
    neither sends nor receives come. *)
Definition resync (tracks : gmap string TrackLocalStaticRTP) (pc : PeerConnection)
    : gset string :=
  (senderIDs pc ∩ dom tracks) ∪ (dom tracks ∖ (senderIDs pc ∪ receiverIDs pc)).

(** * Example inputs *)

(** An environment to run the program in: [range] visits a map in key
    order, every offer has the same SDP text, a session description is
    encoded as its SDP text, and a payload decodes unless it is empty. *)
Definition exampleExternals : Externals :=
  {| rangeMap := map_to_list;
     offerSDP := λ _, "v=0";
     marshalSessionDescription := sdSDP;
     unmarshalICECandidateInit :=
       λ s, if decide (s = "") then None
            else Some {| Candidate := s; SDPMid := None; SDPMLineIndex := None;
                         UsernameFragment := None |};
     unmarshalSessionDescription :=
       λ s, if decide (s = "") then None
            else Some {| sdType := SDPTypeAnswer; sdSDP := s |} |}.

Definition vp8 : RTPCodecCapability :=
  {| MimeType := "video/VP8"; ClockRate := 90000; Channels := 0; SDPFmtpLine := "";
     RTCPFeedback := [] |}.

Definition remoteVideo : TrackRemote :=
  {| trCodec := vp8; trID := "video"; trStreamID := "stream"; trSSRC := 7 |}.

Definition localVideo : TrackLocalStaticRTP :=
  {| tlCodec := vp8; tlID := "video"; tlStreamID := "stream" |}.

(** A connected peer connection with the given senders and receivers. *)
Definition connected (ss : list (option TrackLocalStaticRTP)) (rs : list (option TrackRemote))
    : PeerConnection :=
  with_connectionState (with_receivers (with_senders newPeerConnection ss) rs)
    PeerConnectionStateConnected.

Definition emptyWorld : World :=
  {| peerConnections := ∅; trackLocals := ∅; heap := ∅; goroutines := []; oracle := [] |}.

Definition alice : peerConnectionState := {| peerConnection := 1; websocket := 11 |}.
Definition bob : peerConnectionState := {| peerConnection := 2; websocket := 12 |}.

(** Scenario 1 of the specification, after Bob's video arrived: Alice sends
    no media, Bob uploads the track ["video"], which is registered. *)
Definition joinedWorld : World :=
  {| peerConnections := {[ "room" := [alice; bob] ]};
     trackLocals := {[ "room" := {[ "video" := localVideo ]} ]};
     heap := {[ 1 := connected [] [None; None];
                2 := connected [] [Some remoteVideo; None] ]};
     goroutines := [];
     oracle := [] |}.

(** Alice and Bob both upload a track with the id ["video"] (the id is the
    client's choice).  Alice came first and her track was forwarded to Bob;
    then Bob's own upload replaced the entry of [trackLocals] under that
    id. *)
Definition collisionWorld : World :=
  {| peerConnections := {[ "room" := [alice; bob] ]};
     trackLocals := {[ "room" := {[ "video" := localVideo ]} ]};
     heap := {[ 1 := connected [] [Some remoteVideo; None];
                2 := connected [Some localVideo] [Some remoteVideo; None] ]};
     goroutines := [];
     oracle := [] |}.

(** [joinedWorld] with a library that refuses the next 25 calls. *)
Definition contendedWorld : World := set_oracle (replicate 25 Err) joinedWorld.

(** Alice is connected, Bob's connection is closed. *)
Definition bobClosedWorld : World :=
  {| peerConnections := {[ "room" := [alice; bob] ]};
     trackLocals := ∅;
     heap := {[ 1 := connected [] [None; None];
                2 := with_connectionState (connected [] [None; None])
                       PeerConnectionStateClosed ]};
     goroutines := [];
     oracle := [] |}.

(** A request for [/websocket/room/join], and one whose route variables
    lack the room id. *)
Definition joinRequest : Request := {| vars := {[ "uuid" := "room" ]}; conn := 10 |}.
Definition bareRequest : Request := {| vars := ∅; conn := 10 |}.

(** * Reasoning about computations in [M] *)

Lemma bind_inv {A B} (m : M A) (k : A → M B) w b w2 t :
  bind m k w = (b, w2, t) →
  ∃ a w1 t1 t2, m w = (a, w1, t1) ∧ k a w1 = (b, w2, t2) ∧ t = t1 ++ t2.
Proof.
  unfold bind. destruct (m w) as [[a w1] t1]. destruct (k a w1) as [[b' w2'] t2] eqn:Hk.
  intros [= <- <- <-]. by exists a, w1, t1, t2.
Qed.

Lemma bind_run {A B} (m : M A) (k : A → M B) w a w1 t1 :
  m w = (a, w1, t1) →
  bind m k w = ((k a w1).1.1, (k a w1).1.2, t1 ++ (k a w1).2).
Proof. unfold bind. intros ->. by destruct (k a w1) as [[??]?]. Qed.

Section Combinators.
Context (R : relation World) `{!PreOrder R} (P : Effect → Prop).

Lemma preserves_ret {A} (a : A) : preserves R (ret a).
Proof. intros w. reflexivity. Qed.

Lemma preserves_emit e : preserves R (emit e).
Proof. intros w. reflexivity. Qed.

Lemma preserves_gets {A} (f : World → A) : preserves R (gets f).
Proof. intros w. reflexivity. Qed.

Lemma preserves_modify f : (∀ w, R w (f w)) → preserves R (modify f).
Proof. intros Hf w. apply Hf. Qed.

Lemma preserves_bind {A B} (m : M A) (k : A → M B) :
  preserves R m → (∀ a, preserves R (k a)) → preserves R (bind m k).
Proof.
  intros Hm Hk w. unfold bind.
  specialize (Hm w). destruct (m w) as [[a w1] t1].
  specialize (Hk a w1). destruct (k a w1) as [[b w2] t2].
  simpl in *. by etrans.
Qed.

Lemma preserves_forEach {A} (f : A → M unit) l :
  (∀ x, preserves R (f x)) → preserves R (forEach f l).
Proof.
  intros Hf. induction l as [|x l IH]; simpl.
  - apply preserves_ret.
  - apply preserves_bind; auto.
Qed.

Lemma emits_ret {A} (a : A) : emits P (ret a).
Proof. intros w. constructor. Qed.

Lemma emits_gets {A} (f : World → A) : emits P (gets f).
Proof. intros w. constructor. Qed.

Lemma emits_modify f : emits P (modify f).
Proof. intros w. constructor. Qed.

Lemma emits_outcome : emits P outcome.
Proof. intros w. constructor. Qed.

Lemma emits_update h f : emits P (update h f).
Proof. intros w. constructor. Qed.

Lemma emits_emit e : P e → emits P (emit e).
Proof. intros He w. by repeat constructor. Qed.

Lemma emits_bind {A B} (m : M A) (k : A → M B) :
  emits P m → (∀ a, emits P (k a)) → emits P (bind m k).
Proof.
  intros Hm Hk w. unfold bind.
  specialize (Hm w). destruct (m w) as [[a w1] t1].
  specialize (Hk a w1). destruct (k a w1) as [[b w2] t2].
  simpl in *. by apply Forall_app.
Qed.

Lemma emits_forEach {A} (f : A → M unit) l :
  (∀ x, emits P (f x)) → emits P (forEach f l).
Proof.
  intros Hf. induction l as [|x l IH]; simpl.
  - apply emits_ret.
  - apply emits_bind; auto.
Qed.

End Combinators.

Lemma preserves_run {A} R (m : M A) w a w' t :
  preserves R m → m w = (a, w', t) → R w w'.
Proof. intros Hm Hw. specialize (Hm w). by rewrite Hw in Hm. Qed.

Lemma emits_run {A} P (m : M A) w a w' t :
  emits P m → m w = (a, w', t) → Forall P t.
Proof. intros Hm Hw. specialize (Hm w). by rewrite Hw in Hm. Qed.

(** Decompose a goal [preserves R m] or [emits P m] along the structure of
    [m]; what is left are the calls and the world updates. *)
Ltac step_preserves :=
  repeat match goal with
    | |- preserves _ (ret _) => apply preserves_ret; apply _
    | |- preserves _ (emit _) => apply preserves_emit; apply _
    | |- preserves _ (gets _) => apply preserves_gets; apply _
    | |- preserves _ (bind _ _) => apply preserves_bind; [apply _ | | intros ?]
    | |- preserves _ (forEach _ _) => apply preserves_forEach; [apply _ | intros ?]
    | |- preserves _ (match ?x with _ => _ end) => destruct x
    end.

Ltac step_emits :=
  repeat match goal with
    | |- emits _ (ret _) => apply emits_ret
    | |- emits _ (gets _) => apply emits_gets
    | |- emits _ (modify _) => apply emits_modify
    | |- emits _ outcome => apply emits_outcome
    | |- emits _ (update _ _) => apply emits_update
    | |- emits _ (bind _ _) => apply emits_bind; [| intros ?]
    | |- emits _ (forEach _ _) => apply emits_forEach; intros ?
    | |- emits _ (match ?x with _ => _ end) => destruct x
    end.

(** * What the functions leave unchanged *)

Global Instance same_preorder {A} (f : World → A) : PreOrder (same f).
Proof. split; [by intros w | intros w1 w2 w3 H1 H2; unfold same in *; congruence]. Qed.

Global Instance keeps_preorder {A} (g : PeerConnection → A) : PreOrder (keeps g).
Proof.
  split.
  - intros w h. reflexivity.
  - intros w1 w2 w3 H1 H2 h. unfold keeps in *. by rewrite H2, H1.
Qed.

Global Instance only_at_preorder h : PreOrder (only_at h).
Proof.
  split.
  - intros w h' Hne. reflexivity.
  - intros w1 w2 w3 H1 H2 h' Hne. unfold only_at in *. by rewrite H2, H1.
Qed.

Global Instance grows_preorder : PreOrder grows.
Proof.
  split.
  - intros w. unfold grows. reflexivity.
  - intros w1 w2 w3 H1 H2. unfold grows in *. by etrans.
Qed.

Global Instance peerConnections_registry : Registry peerConnections.
Proof. by split. Qed.
Global Instance trackLocals_registry : Registry trackLocals.
Proof. by split. Qed.
Global Instance goroutines_registry : Registry goroutines.
Proof. by split. Qed.

Lemma deref_store h h' pc w :
  deref h' (store h pc w) = if decide (h = h') then pc else deref h' w.
Proof.
  unfold deref, store. simpl. rewrite lookup_insert. by case_decide.
Qed.

Lemma deref_set_oracle h o w : deref h (set_oracle o w) = deref h w.
Proof. done. Qed.

Section Frames.
Context {A : Type} (f : World → A) `{!Registry f}.
Context {B : Type} (g : PeerConnection → B).

Lemma outcome_same : preserves (same f) outcome.
Proof. intros w. apply registry_oracle. Qed.

Lemma outcome_keeps : preserves (keeps g) outcome.
Proof. by intros w h. Qed.

Lemma outcome_only_at h : preserves (only_at h) outcome.
Proof. by intros w h'. Qed.

Lemma outcome_grows : preserves grows outcome.
Proof. intros w. unfold grows. reflexivity. Qed.

Lemma update_same h F : preserves (same f) (update h F).
Proof. intros w. apply registry_heap. Qed.

Lemma update_keeps h F : (∀ pc, g (F pc) = g pc) → preserves (keeps g) (update h F).
Proof.
  intros HF w h'. simpl. rewrite deref_store. case_decide; [subst; apply HF | done].
Qed.

Lemma update_only_at h F : preserves (only_at h) (update h F).
Proof. intros w h' Hne. simpl. by rewrite lookup_insert_ne. Qed.

Lemma update_grows h F : preserves grows (update h F).
Proof. intros w. unfold grows. reflexivity. Qed.

End Frames.

Create HintDb frames discriminated.

#[export] Hint Resolve peerConnections_registry trackLocals_registry goroutines_registry : frames.
#[export] Hint Resolve outcome_same outcome_keeps outcome_only_at outcome_grows : frames.
#[export] Hint Resolve update_same update_only_at update_grows : frames.
#[export] Hint Extern 1 (preserves (keeps _) (update _ _)) =>
  apply update_keeps; intros ?; reflexivity : frames.

Ltac frames := step_preserves; eauto with frames.

Section ProgramFrames.
Context `{Externals}.
Context {A : Type} (f : World → A) `{!Registry f}.

Lemma RemoveTrack_same h k : preserves (same f) (RemoveTrack h k).
Proof. unfold RemoveTrack. frames. Qed.
Lemma RemoveTrack_observed h k : preserves (keeps observed) (RemoveTrack h k).
Proof. unfold RemoveTrack. frames. Qed.
Lemma RemoveTrack_only_at h k : preserves (only_at h) (RemoveTrack h k).
Proof. unfold RemoveTrack. frames. Qed.

Lemma AddTrack_same h t : preserves (same f) (AddTrack h t).
Proof. unfold AddTrack. frames. Qed.
Lemma AddTrack_observed h t : preserves (keeps observed) (AddTrack h t).
Proof. unfold AddTrack. frames. Qed.
Lemma AddTrack_only_at h t : preserves (only_at h) (AddTrack h t).
Proof. unfold AddTrack. frames. Qed.

Lemma sendOffer_same p : preserves (same f) (sendOffer p).
Proof. unfold sendOffer, CreateOffer, SetLocalDescription, Marshal, WriteJSON. frames. Qed.
Lemma sendOffer_observed p : preserves (keeps observed) (sendOffer p).
Proof. unfold sendOffer, CreateOffer, SetLocalDescription, Marshal, WriteJSON. frames. Qed.
Lemma sendOffer_senders p : preserves (keeps senders) (sendOffer p).
Proof. unfold sendOffer, CreateOffer, SetLocalDescription, Marshal, WriteJSON. frames. Qed.
Lemma sendOffer_only_at p : preserves (only_at (peerConnection p)) (sendOffer p).
Proof. unfold sendOffer, CreateOffer, SetLocalDescription, Marshal, WriteJSON. frames. Qed.

End ProgramFrames.

(** * The renegotiation pass on one peer *)

Lemma bind_ret {A B} (a : A) (k : A → M B) w : bind (ret a) k w = k a w.
Proof. unfold bind, ret. by destruct (k a w) as [[??]?]. Qed.

Lemma bind_gets {A B} (f : World → A) (k : A → M B) w : bind (gets f) k w = k (f w) w.
Proof. unfold bind, gets. by destruct (k (f w) w) as [[??]?]. Qed.

Lemma bind_modify {B} f (k : unit → M B) w : bind (modify f) k w = k tt (f w).
Proof. unfold bind, modify. by destruct (k tt (f w)) as [[??]?]. Qed.

Lemma bind_emit {B} e (k : unit → M B) w :
  bind (emit e) k w = ((k tt w).1.1, (k tt w).1.2, e :: (k tt w).2).
Proof. unfold bind, emit. by destruct (k tt w) as [[??]?]. Qed.

Lemma receiversLoop_spec rs E :
  receiversLoop rs E = list_to_set (trID <$> omap id rs) ∪ E.
Proof.
  unfold receiversLoop. revert E. induction rs as [|[t|] rs IH]; intros E; simpl.
  - set_solver.
  - rewrite IH. set_solver.
  - apply IH.
Qed.

Lemma idsOf_prune tracks ss : idsOf (prune tracks <$> ss) = idsOf ss ∩ dom tracks.
Proof.
  unfold idsOf. induction ss as [|[t|] ss IH]; simpl.
  - set_solver.
  - destruct (tracks !! tlID t) as [x|] eqn:Hx; simpl.
    + assert (tlID t ∈ dom tracks) by (apply elem_of_dom; eauto). set_solver.
    + assert (tlID t ∉ dom tracks) by (by apply not_elem_of_dom). set_solver.
  - done.
Qed.

Lemma idsOf_app ss1 ss2 : idsOf (ss1 ++ ss2) = idsOf ss1 ∪ idsOf ss2.
Proof. unfold idsOf. rewrite omap_app, fmap_app. set_solver. Qed.

(** * The pass over the peers *)

Section PassOverPeers.
Context `{Externals}.

Lemma RemoveTrack_run h k w :
  RemoveTrack h k w =
    match nextOutcome w with
    | Ok => (Ok, store h (with_senders (deref h w) (<[k := None]> (senders (deref h w))))
                   (set_oracle (tail (oracle w)) w), [ERemoveTrack h k Ok])
    | Err => (Err, set_oracle (tail (oracle w)) w, [ERemoveTrack h k Err])
    end.
Proof. unfold RemoveTrack, bind, outcome. simpl. by destruct (nextOutcome w). Qed.

Lemma AddTrack_run h t w :
  AddTrack h t w =
    match nextOutcome w with
    | Ok => (Ok, store h (with_senders (deref h w) (senders (deref h w) ++ [Some t]))
                   (set_oracle (tail (oracle w)) w), [EAddTrack h t Ok])
    | Err => (Err, set_oracle (tail (oracle w)) w, [EAddTrack h t Err])
    end.
Proof. unfold AddTrack, bind, outcome. simpl. by destruct (nextOutcome w). Qed.

Lemma sendersLoop_emits room p l E :
  emits (λ e, isTrackOp e) (sendersLoop room p l E).
Proof.
  revert E. induction l as [|k l IH]; intros E; simpl.
  - apply emits_ret.
  - unfold RemoveTrack. step_emits; try apply IH. by apply emits_emit.
Qed.

Lemma tracksLoop_emits p l E :
  emits (λ e, isTrackOp e) (tracksLoop p l E).
Proof.
  induction l as [|[k t] l IH]; simpl.
  - apply emits_ret.
  - unfold AddTrack. step_emits; try apply IH. by apply emits_emit.
Qed.

Section Frames.
Context {A : Type} (f : World → A) `{!Registry f}.

Lemma sendersLoop_same room p l E : preserves (same f) (sendersLoop room p l E).
Proof.
  revert E. induction l as [|k l IH]; intros E; simpl; frames.
  all: first [apply IH | by apply RemoveTrack_same].
Qed.

Lemma tracksLoop_same p l E : preserves (same f) (tracksLoop p l E).
Proof.
  induction l as [|[k t] l IH]; simpl; frames.
  all: first [apply IH | by apply AddTrack_same].
Qed.

End Frames.

Lemma sendersLoop_observed room p l E : preserves (keeps observed) (sendersLoop room p l E).
Proof.
  revert E. induction l as [|k l IH]; intros E; simpl; frames.
  all: first [apply IH | by apply RemoveTrack_observed].
Qed.

Lemma sendersLoop_only_at room p l E :
  preserves (only_at (peerConnection p)) (sendersLoop room p l E).
Proof.
  revert E. induction l as [|k l IH]; intros E; simpl; frames.
  all: first [apply IH | by apply RemoveTrack_only_at].
Qed.

Lemma tracksLoop_observed p l E : preserves (keeps observed) (tracksLoop p l E).
Proof.
  induction l as [|[k t] l IH]; simpl; frames.
  all: first [apply IH | by apply AddTrack_observed].
Qed.

Lemma tracksLoop_only_at p l E : preserves (only_at (peerConnection p)) (tracksLoop p l E).
Proof.
  induction l as [|[k t] l IH]; simpl; frames.
  all: first [apply IH | by apply AddTrack_only_at].
Qed.

(** The loop over the senders, when it runs to its end: every sender whose
    track is not registered in the room has lost it, the others are as
    before, and [existingSenders] has gained every id that was sent. *)
Lemma sendersLoop_spec room p n : ∀ i E w E' w' t,
  sendersLoop room p (seq i n) E w = (Some E', w', t) →
  let ss := senders (deref (peerConnection p) w) in
  (∀ k, senders (deref (peerConnection p) w') !! k =
        if bool_decide (i ≤ k < i + n) then prune (tracksOf room w) <$> ss !! k else ss !! k)
  ∧ E' = idsOf (take n (drop i ss)) ∪ E
  ∧ Forall succeeded t.
Proof.
  induction n as [|n IH]; intros i E w E' w' t; simpl.
  - intros [= <- <- <-]. split_and!; [|set_solver|constructor].
    intros k. case_bool_decide; [lia|done].
  - rewrite bind_gets.
    set (h := peerConnection p). set (ss := senders (deref h w)).
    assert (Hdrop : ∀ x, ss !! i = x → take (S n) (drop i ss) = option_list x ++ take n (drop (S i) ss)).
    { intros x Hx. destruct x as [x|]; simpl.
      - by rewrite (drop_S _ _ _ Hx).
      - apply lookup_ge_None in Hx. rewrite !drop_ge by lia. by rewrite !take_nil. }
    destruct (ss !! i) as [[track|]|] eqn:Hi; simpl.
    + rewrite bind_gets.
      destruct (tracksOf room w !! tlID track) as [x|] eqn:Hx.
      * intros Hrun. apply IH in Hrun as (Hk & -> & Ht). fold h ss in Hk |- *.
        split_and!; [|rewrite (Hdrop _ eq_refl); unfold idsOf; simpl; set_solver|done].
        intros k. rewrite Hk. destruct (decide (k = i)) as [->|].
        -- rewrite bool_decide_eq_false_2, bool_decide_eq_true_2 by lia.
           rewrite Hi. simpl. by rewrite Hx.
        -- by rewrite (bool_decide_ext (S i ≤ k < S i + n) (i ≤ k < i + S n)) by lia.
      * intros Hrun. apply bind_inv in Hrun as (o & w1 & t1 & t2 & Hrm & Hrun & ->).
        rewrite RemoveTrack_run in Hrm. destruct (nextOutcome w); [|injection Hrm as <- <- <-; inversion Hrun].
        injection Hrm as <- <- <-.
        apply IH in Hrun as (Hk & -> & Ht). fold h in Hk.
        rewrite deref_store in Hk. rewrite decide_True in Hk by done. simpl in Hk.
        change (senders (deref h (set_oracle (tail (oracle w)) w))) with ss in Hk.
        split_and!.
        -- intros k. rewrite Hk. destruct (decide (k = i)) as [->|].
           ++ rewrite bool_decide_eq_false_2, bool_decide_eq_true_2 by lia.
              rewrite list_lookup_insert_eq by (by eapply lookup_lt_Some).
              rewrite Hi. simpl. by rewrite Hx.
           ++ rewrite list_lookup_insert_ne by done.
              rewrite (bool_decide_ext (S i ≤ k < S i + n) (i ≤ k < i + S n)) by lia.
              case_bool_decide; [|done]. f_equal.
        -- rewrite deref_store, decide_True by done. simpl.
           rewrite (Hdrop _ eq_refl).
           rewrite drop_insert_lt by lia.
           unfold idsOf; simpl; set_solver.
        -- constructor; [by unfold succeeded|done].
    + intros Hrun. apply IH in Hrun as (Hk & -> & Ht). fold h ss in Hk |- *.
      split_and!; [|rewrite (Hdrop _ eq_refl); unfold idsOf; simpl; set_solver|done].
      intros k. rewrite Hk. destruct (decide (k = i)) as [->|].
      * rewrite bool_decide_eq_false_2, bool_decide_eq_true_2 by lia. by rewrite Hi.
      * by rewrite (bool_decide_ext (S i ≤ k < S i + n) (i ≤ k < i + S n)) by lia.
    + intros Hrun. apply IH in Hrun as (Hk & -> & Ht). fold h ss in Hk |- *.
      split_and!; [|rewrite (Hdrop _ eq_refl); unfold idsOf; simpl; set_solver|done].
      intros k. rewrite Hk. destruct (decide (k = i)) as [->|].
      * rewrite bool_decide_eq_false_2, bool_decide_eq_true_2 by lia. by rewrite Hi.
      * by rewrite (bool_decide_ext (S i ≤ k < S i + n) (i ≤ k < i + S n)) by lia.
Qed.

(** The loop over the room's tracks, when it runs to its end: one new
    sender for every entry whose key is not in [existingSenders]. *)
Lemma tracksLoop_spec p entries E : ∀ w w' t,
  tracksLoop p entries E w = (Ok, w', t) →
  senders (deref (peerConnection p) w') =
    senders (deref (peerConnection p) w) ++ (Some ∘ snd <$> filter (λ kv, kv.1 ∉ E) entries)
  ∧ Forall succeeded t.
Proof.
  induction entries as [|[k track] entries IH]; intros w w' t; simpl.
  - intros [= <- <-]. by rewrite app_nil_r.
  - rewrite filter_cons. simpl. case_decide as Hk.
    + rewrite decide_False by (by intros ?). apply IH.
    + rewrite decide_True by done. intros Hrun.
      apply bind_inv in Hrun as (o & w1 & t1 & t2 & Hadd & Hrun & ->).
      rewrite AddTrack_run in Hadd.
      destruct (nextOutcome w); [|injection Hadd as <- <- <-; inversion Hrun].
      injection Hadd as <- <- <-. apply IH in Hrun as [-> Ht].
      rewrite deref_store, decide_True by done. simpl.
      split; [by rewrite <- app_assoc | constructor; [by unfold succeeded | done]].
Qed.

Lemma idsOf_added `{!RangeLaw} tracks E :
  keyedByID tracks →
  idsOf (Some ∘ snd <$> filter (λ kv, kv.1 ∉ E) (rangeMap tracks)) = dom tracks ∖ E.
Proof.
  intros Hkey. unfold idsOf. apply set_eq. intros x.
  rewrite elem_of_list_to_set, list_elem_of_fmap, elem_of_difference, elem_of_dom.
  split.
  - intros (t & -> & Ht). apply list_elem_of_omap in Ht as (o & Ho & Hid).
    apply list_elem_of_fmap in Ho as ([k t'] & -> & Hkv). simpl in Hid. injection Hid as ->.
    apply list_elem_of_filter in Hkv as [HE Hkv]. simpl in HE.
    rewrite rangeMap_perm in Hkv. apply elem_of_map_to_list in Hkv.
    rewrite (Hkey _ _ Hkv). eauto.
  - intros [[t Ht] HE]. exists t. split; [symmetry; by apply Hkey|].
    apply list_elem_of_omap. exists (Some t). split; [|done].
    apply list_elem_of_fmap. exists (x, t). split; [done|].
    apply list_elem_of_filter. split; [done|].
    rewrite rangeMap_perm. by apply elem_of_map_to_list.
Qed.

Lemma sendOffer_trace p w : offerTrace p (sendOffer p w).1.1 (sendOffer p w).2.
Proof.
  unfold sendOffer, CreateOffer, SetLocalDescription, Marshal, WriteJSON, bind, outcome,
    nextOutcome, emit, gets, update, modify, ret.
  destruct (oracle w) as [|[] [|[] [|[] [|[] ?]]]]; simpl; constructor.
Qed.

Lemma sendOffer_calm p w :
  calm w → (sendOffer p w).1.1 = false ∧ calm (sendOffer p w).1.2.
Proof.
  unfold calm, sendOffer, CreateOffer, SetLocalDescription, Marshal, WriteJSON, bind, outcome,
    nextOutcome, emit, gets, update, modify, ret.
  intros Hc.
  destruct (oracle w) as [|o1 [|o2 [|o3 [|o4 ?]]]]; simpl;
    repeat match goal with
           | H : Forall _ (_ :: _) |- _ => apply Forall_cons in H as [-> H]
           end; simpl; by split.
Qed.

Lemma offerTrace_succeeded p t : offerTrace p false t → Forall succeeded t.
Proof. inversion 1; subst. repeat constructor; by unfold succeeded. Qed.

Lemma offerTrace_offerOps p r t : offerTrace p r t → Forall (λ e, isOfferOp e) t.
Proof. inversion 1; subst; repeat constructor. Qed.

Lemma syncPeer_false `{!RangeLaw} room p w w' t :
  keyedByID (tracksOf room w) →
  syncPeer room p w = (false, w', t) →
  let pc := deref (peerConnection p) w in
  let pc' := deref (peerConnection p) w' in
  senderIDs pc' =
    (senderIDs pc ∩ dom (tracksOf room w)) ∪ (dom (tracksOf room w) ∖ (senderIDs pc ∪ receiverIDs pc))
  ∧ Forall succeeded t.
Proof.
  intros Hkey. unfold syncPeer. rewrite bind_gets. intros Hrun.
  apply bind_inv in Hrun as (E1 & w1 & t1 & t2 & Hs & Hrun & ->).
  destruct E1 as [E1|]; [|by inversion Hrun].
  rewrite !bind_gets in Hrun.
  apply bind_inv in Hrun as (o & w2 & t2' & t3 & Ht & Hrun & ->).
  destruct o; [|by inversion Hrun].
  pose proof (preserves_run _ _ _ _ _ _ (sendersLoop_same trackLocals _ _ _ _) Hs) as Htl.
  pose proof (preserves_run _ _ _ _ _ _ (sendersLoop_observed _ _ _ _) Hs (peerConnection p)) as Hobs.
  apply sendersLoop_spec in Hs as (Hk & -> & Hst1). simpl in Hk.
  assert (tracksOf room w1 = tracksOf room w) as HT by (unfold tracksOf; by rewrite Htl).
  rewrite HT in Ht.
  apply tracksLoop_spec in Ht as (Hadd & Hst2).
  pose proof (sendOffer_trace p w2) as Hot.
  pose proof (sendOffer_senders p w2 (peerConnection p)) as Hsd.
  rewrite Hrun in Hot, Hsd. simpl in Hot, Hsd.
  set (ss := senders (deref (peerConnection p) w)) in *.
  assert (senders (deref (peerConnection p) w1) = prune (tracksOf room w) <$> ss) as Hss.
  { apply list_eq. intros k. rewrite Hk, list_lookup_fmap.
    case_bool_decide as Hlt; [done|].
    rewrite lookup_ge_None_2 by lia. done. }
  split.
  - unfold senderIDs at 1. rewrite Hsd, Hadd, Hss.
    rewrite idsOf_app, idsOf_prune, idsOf_added by done.
    rewrite receiversLoop_spec. simpl. rewrite firstn_all.
    injection Hobs as Hrv _ _. rewrite Hrv.
    unfold senderIDs, receiverIDs. fold ss. set_solver.
  - apply Forall_app. split; [done|]. apply Forall_app. split; [done|].
    by eapply offerTrace_succeeded.
Qed.

Lemma syncPeer_same {A} (f : World → A) `{!Registry f} room p : preserves (same f) (syncPeer room p).
Proof.
  unfold syncPeer. frames.
  all: first [apply sendersLoop_same | apply tracksLoop_same | apply sendOffer_same]; done.
Qed.

Lemma syncPeer_observed room p : preserves (keeps observed) (syncPeer room p).
Proof.
  unfold syncPeer. frames.
  all: first [apply sendersLoop_observed | apply tracksLoop_observed | apply sendOffer_observed].
Qed.

Lemma syncPeer_only_at room p : preserves (only_at (peerConnection p)) (syncPeer room p).
Proof.
  unfold syncPeer. frames.
  all: first [apply sendersLoop_only_at | apply tracksLoop_only_at | apply sendOffer_only_at].
Qed.

Lemma syncPeer_emits room p : emits (λ e, isTrackOp e ∨ isOfferOp e) (syncPeer room p).
Proof.
  unfold syncPeer. step_emits.
  - intros w. eapply Forall_impl; [apply sendersLoop_emits|]. by left.
  - intros w. eapply Forall_impl; [apply tracksLoop_emits|]. by left.
  - intros w. eapply Forall_impl; [eapply offerTrace_offerOps, sendOffer_trace|]. by right.
Qed.

Lemma only_at_deref h h' w w' : only_at h w w' → h' ≠ h → deref h' w' = deref h' w.
Proof. intros Hat Hne. unfold deref. by rewrite Hat. Qed.

(** One peer synced without error: its connection agrees with the room,
    and no connection loses what it had. *)
Lemma syncPeer_step `{!RangeLaw} room p w w' t :
  keyedByID (tracksOf room w) →
  syncPeer room p w = (false, w', t) →
  let tracks := tracksOf room w in
  synced tracks (deref (peerConnection p) w')
  ∧ (∀ h, synced tracks (deref h w) → synced tracks (deref h w'))
  ∧ (∀ h, senderIDs (deref h w) ## receiverIDs (deref h w) →
          senderIDs (deref h w') ## receiverIDs (deref h w'))
  ∧ Forall succeeded t.
Proof.
  intros Hkey Hrun tracks.
  pose proof (preserves_run _ _ _ _ _ _ (syncPeer_only_at _ _) Hrun) as Hat.
  pose proof (preserves_run _ _ _ _ _ _ (syncPeer_observed _ _) Hrun (peerConnection p)) as Hobs.
  apply syncPeer_false in Hrun as [Hs Ht]; [|done]. fold tracks in Hs.
  injection Hobs as Hrv _ _.
  assert (receiverIDs (deref (peerConnection p) w') = receiverIDs (deref (peerConnection p) w)) as Hr
    by (unfold receiverIDs; by rewrite Hrv).
  assert (synced tracks (deref (peerConnection p) w')) as Hsync.
  { unfold synced. rewrite Hs, Hr. split; [set_solver|].
    intros x Hx.
    destruct (decide (x ∈ senderIDs (deref (peerConnection p) w)));
      destruct (decide (x ∈ receiverIDs (deref (peerConnection p) w)));
      rewrite !elem_of_union, elem_of_intersection, elem_of_difference, elem_of_union; tauto. }
  split_and!; [done| | |done].
  - intros h Hh. destruct (decide (h = peerConnection p)) as [->|Hne]; [done|].
    by rewrite (only_at_deref _ _ _ _ Hat Hne).
  - intros h Hh. destruct (decide (h = peerConnection p)) as [->|Hne].
    + rewrite Hs, Hr. set_solver.
    + by rewrite (only_at_deref _ _ _ _ Hat Hne).
Qed.

Lemma peersLoop_same {A} (f : World → A) `{!Registry f} room snapshot i :
  (∀ v w, f (set_peerConnections v w) = f w) →
  preserves (same f) (peersLoop room i snapshot).
Proof.
  intros Hf. revert i. induction snapshot as [|p rest IH]; intros i; simpl; frames.
  - apply preserves_modify. intros w. apply Hf.
  - by apply syncPeer_same.
Qed.

Lemma peersLoop_observed room snapshot i : preserves (keeps observed) (peersLoop room i snapshot).
Proof.
  revert i. induction snapshot as [|p rest IH]; intros i; simpl; frames.
  apply syncPeer_observed.
Qed.

Lemma peersLoop_emits room snapshot i :
  emits (λ e, isTrackOp e ∨ isOfferOp e) (peersLoop room i snapshot).
Proof.
  revert i. induction snapshot as [|p rest IH]; intros i; simpl; step_emits; try apply IH.
  apply syncPeer_emits.
Qed.

(** A pass that reports no change: no peer of the room is closed, every
    connection agrees with the room's tracks, the peer list is as it was
    and no library call failed. *)
Lemma peersLoop_false `{!RangeLaw} room snapshot : ∀ i w w' t,
  keyedByID (tracksOf room w) →
  peersLoop room i snapshot w = (false, w', t) →
  let tracks := tracksOf room w in
  peerConnections w' = peerConnections w
  ∧ (∀ p, p ∈ snapshot →
          synced tracks (deref (peerConnection p) w')
          ∧ connectionState (deref (peerConnection p) w') ≠ PeerConnectionStateClosed)
  ∧ (∀ h, synced tracks (deref h w) → synced tracks (deref h w'))
  ∧ (∀ h, senderIDs (deref h w) ## receiverIDs (deref h w) →
          senderIDs (deref h w') ## receiverIDs (deref h w'))
  ∧ Forall succeeded t.
Proof.
  induction snapshot as [|p rest IH]; intros i w w' t Hkey; simpl.
  - intros [= <- <-]. split_and!; try done. intros p Hp. by apply elem_of_nil in Hp.
  - rewrite bind_gets.
    destruct (isClosed (connectionState (deref (peerConnection p) w))) eqn:Hclosed.
    { rewrite bind_gets, bind_modify. by intros [=]. }
    intros Hrun. apply bind_inv in Hrun as (r & w1 & t1 & t2 & Hp & Hrun & ->).
    destruct r; [by inversion Hrun|].
    pose proof (preserves_run _ _ _ _ _ _ (syncPeer_same trackLocals _ _) Hp) as Htl.
    pose proof (preserves_run _ _ _ _ _ _ (syncPeer_same peerConnections _ _) Hp) as Hpc.
    pose proof (preserves_run _ _ _ _ _ _ (peersLoop_observed _ _ _) Hrun (peerConnection p)) as Hobs.
    pose proof (preserves_run _ _ _ _ _ _ (syncPeer_observed _ _) Hp (peerConnection p)) as Hobs1.
    assert (tracksOf room w1 = tracksOf room w) as HT by (unfold tracksOf; by rewrite Htl).
    apply syncPeer_step in Hp as (Hsync & Hkeep & Hdis & Ht1); [|done].
    apply IH in Hrun as (Hpcs & Hall & Hkeep' & Hdis' & Ht2); [|by rewrite HT].
    rewrite HT in Hall, Hkeep'.
    split_and!.
    + unfold same in Hpc. congruence.
    + intros q Hq. apply elem_of_cons in Hq as [->|Hq]; [|by apply Hall].
      split; [by apply Hkeep'|].
      injection Hobs as _ Hcs _. injection Hobs1 as _ Hcs1 _. rewrite Hcs, Hcs1.
      intros Hc. by rewrite Hc in Hclosed.
    + auto.
    + auto.
    + by apply Forall_app.
Qed.

End PassOverPeers.

(** * A pass that reports no change *)

Section Convergence.
Context `{Externals}.

Lemma attemptSync_same {A} (f : World → A) `{!Registry f} room :
  (∀ v w, f (set_peerConnections v w) = f w) →
  preserves (same f) (attemptSync room).
Proof. intros Hf. unfold attemptSync. frames. by apply peersLoop_same. Qed.

Lemma attemptSync_observed room : preserves (keeps observed) (attemptSync room).
Proof. unfold attemptSync. frames. apply peersLoop_observed. Qed.

Lemma attemptSync_emits room : emits (λ e, isTrackOp e ∨ isOfferOp e) (attemptSync room).
Proof. unfold attemptSync. step_emits. apply peersLoop_emits. Qed.

Lemma sendersLoop_noop room p w :
  senderIDs (deref (peerConnection p) w) ⊆ dom (tracksOf room w) →
  ∀ l E, ∃ E', sendersLoop room p l E w = (Some E', w, []).
Proof.
  intros Hsub. induction l as [|k l IH]; intros E; simpl.
  - by eexists.
  - rewrite bind_gets.
    destruct (senders (deref (peerConnection p) w) !! k) as [[track|]|] eqn:Hk; simpl; [|done..].
    rewrite bind_gets.
    assert (tlID track ∈ dom (tracksOf room w)) as Hin.
    { apply Hsub. unfold senderIDs, idsOf. apply elem_of_list_to_set, list_elem_of_fmap.
      exists track. split; [done|]. apply list_elem_of_omap. exists (Some track).
      split; [|done]. by eapply list_elem_of_lookup_2. }
    apply elem_of_dom in Hin as [x ->]. apply IH.
Qed.

Lemma tracksLoop_noop p w entries E :
  (∀ kv, kv ∈ entries → kv.1 ∈ E) → tracksLoop p entries E w = (Ok, w, []).
Proof.
  induction entries as [|[k t] entries IH]; intros Hin; simpl; [done|].
  rewrite decide_True by (apply (Hin (k, t)); left).
  apply IH. intros kv Hkv. apply Hin. by right.
Qed.

(** On a connection that agrees with the room's tracks the pass adds and
    removes nothing: what is left of it is the offer. *)
Lemma syncPeer_synced `{!RangeLaw} room p w :
  synced (tracksOf room w) (deref (peerConnection p) w) →
  syncPeer room p w = sendOffer p w.
Proof.
  intros [Hsub Hcov]. unfold syncPeer. rewrite bind_gets.
  destruct (sendersLoop_noop room p w Hsub
              (seq 0 (length (senders (deref (peerConnection p) w)))) ∅) as [E' HE].
  rewrite (bind_run _ _ _ _ _ _ HE).
  apply sendersLoop_spec in HE as (_ & -> & _). simpl. rewrite firstn_all.
  rewrite !bind_gets.
  rewrite (bind_run _ _ _ Ok w []).
  - by destruct (sendOffer p w) as [[??]?].
  - apply tracksLoop_noop. intros [k t] Hkt. simpl.
    rewrite rangeMap_perm in Hkt. apply elem_of_map_to_list in Hkt.
    rewrite receiversLoop_spec.
    assert (k ∈ dom (tracksOf room w)) as Hk by (apply elem_of_dom; eauto).
    apply Hcov in Hk. unfold senderIDs, receiverIDs in Hk. set_solver.
Qed.

Lemma offersSent_app t1 t2 : offersSent (t1 ++ t2) = offersSent t1 ++ offersSent t2.
Proof. apply omap_app. Qed.

Lemma calm_next w : calm w → nextOutcome w = Ok.
Proof. unfold calm, nextOutcome. destruct (oracle w); [done|]. by inversion 1. Qed.

Lemma sendOffer_run_calm p w :
  calm w →
  ∃ w' offer, sendOffer p w =
    (false, w', [ECreateOffer (peerConnection p) Ok;
                 ESetLocalDescription (peerConnection p) offer Ok;
                 EMarshal offer Ok;
                 EWriteJSON (websocket p)
                   {| Event := "offer"; Data := marshalSessionDescription offer |} Ok])
    ∧ calm w'.
Proof.
  intros Hc. destruct (sendOffer_calm p w Hc) as [Hr Hc'].
  pose proof (sendOffer_trace p w) as Ht.
  destruct (sendOffer p w) as [[r w'] t]. simpl in *. subst r.
  inversion Ht; subst. by exists w', offer.
Qed.

Lemma synced_keeps tracks w w' h :
  keeps senders w w' → keeps observed w w' →
  synced tracks (deref h w) → synced tracks (deref h w').
Proof.
  intros Hs Ho. specialize (Hs h). specialize (Ho h). injection Ho as Hr _ _.
  unfold synced, senderIDs, receiverIDs. by rewrite Hs, Hr.
Qed.

(** A pass over a room in which every connection already agrees with the
    tracks and none is closed. *)
Lemma peersLoop_synced `{!RangeLaw} room snapshot : ∀ i w,
  (∀ p, p ∈ snapshot →
        synced (tracksOf room w) (deref (peerConnection p) w)
        ∧ connectionState (deref (peerConnection p) w) ≠ PeerConnectionStateClosed) →
  let r := peersLoop room i snapshot w in
  Forall (λ e, isOfferOp e) r.2
  ∧ peerConnections r.1.2 = peerConnections w
  ∧ keeps senders w r.1.2
  ∧ (calm w → r.1.1 = false ∧ calm r.1.2 ∧ offersSent r.2 = websocket <$> snapshot).
Proof.
  induction snapshot as [|p rest IH]; intros i w Hall; simpl.
  - split_and!; done.
  - rewrite bind_gets.
    destruct (Hall p) as [Hsync Hlive]; [left|].
    destruct (isClosed (connectionState (deref (peerConnection p) w))) eqn:Hc.
    { destruct (connectionState (deref (peerConnection p) w)); done. }
    pose proof (syncPeer_synced room p w Hsync) as Hsp.
    pose proof (sendOffer_trace p w) as Hot.
    pose proof (sendOffer_same peerConnections p w) as Hpcs.
    pose proof (sendOffer_same trackLocals p w) as Htl.
    pose proof (sendOffer_senders p w) as Hsd.
    pose proof (sendOffer_observed p w) as Hobs.
    pose proof (sendOffer_calm p w) as Hcalm.
    destruct (sendOffer p w) as [[r1 w1] t1] eqn:Hso. simpl in *.
    rewrite (bind_run _ _ _ _ _ _ Hsp).
    destruct r1; simpl.
    + rewrite app_nil_r. split_and!; [by eapply offerTrace_offerOps|done|done|].
      intros Hw. by destruct (Hcalm Hw).
    + assert (tracksOf room w1 = tracksOf room w) as HT by (unfold tracksOf; by rewrite Htl).
      destruct (IH (S i) w1) as (Hops & Hpcs' & Hsd' & Hcalm').
      { intros q Hq. destruct (Hall q) as [Hqs Hql]; [by right|]. rewrite HT. split.
        - by apply (synced_keeps _ w).
        - specialize (Hobs (peerConnection q)). injection Hobs as _ Hcs _. by rewrite Hcs. }
      split_and!.
      * apply Forall_app. split; [by eapply offerTrace_offerOps|done].
      * unfold same in Hpcs. congruence.
      * by etrans.
      * intros Hw. destruct (Hcalm Hw) as [_ Hw1].
        destruct (Hcalm' Hw1) as (-> & Hw2 & Hsent). split_and!; [done..|].
        rewrite offersSent_app, Hsent. inversion Hot; subst. done.
Qed.

End Convergence.

(** * Failing calls and closed connections *)

Section Failures.
Context `{Externals}.

Lemma last_app_cons {A} (l1 : list A) x l2 : last (l1 ++ x :: l2) = last (x :: l2).
Proof. induction l1 as [|y [|z l1] IH]; simpl in *; done. Qed.

Lemma sendersLoop_none room p l : ∀ E w w' t,
  sendersLoop room p l E w = (None, w', t) →
  ∃ e, last t = Some e ∧ failed e.
Proof.
  induction l as [|k l IH]; intros E w w' t; simpl; [done|].
  rewrite bind_gets.
  destruct (mjoin _) as [track|]; [|apply IH].
  rewrite bind_gets. destruct (_ !! _); [apply IH|].
  intros Hrun. apply bind_inv in Hrun as (o & w1 & t1 & t2 & Hrm & Hrun & ->).
  rewrite RemoveTrack_run in Hrm.
  destruct (nextOutcome w); injection Hrm as <- <- <-.
  - apply IH in Hrun as (e & Hlast & He). exists e. split; [|done].
    destruct t2; [done|]. by rewrite last_app_cons.
  - injection Hrun as <- <-. by eexists.
Qed.

Lemma tracksLoop_err p entries E : ∀ w w' t,
  tracksLoop p entries E w = (Err, w', t) →
  ∃ e, last t = Some e ∧ failed e.
Proof.
  induction entries as [|[k track] entries IH]; intros w w' t; simpl; [done|].
  case_decide; [apply IH|].
  intros Hrun. apply bind_inv in Hrun as (o & w1 & t1 & t2 & Hadd & Hrun & ->).
  rewrite AddTrack_run in Hadd.
  destruct (nextOutcome w); injection Hadd as <- <- <-.
  - apply IH in Hrun as (e & Hlast & He). exists e. split; [|done].
    destruct t2; [done|]. by rewrite last_app_cons.
  - injection Hrun as <- <-. by eexists.
Qed.

(** The effects of the pass over one peer: adds and removes, then the
    offer; or adds and removes of which the last failed. *)
Lemma syncPeer_trace room p w r w' t :
  syncPeer room p w = (r, w', t) →
  (r = true ∧ Forall (λ e, isTrackOp e) t ∧ ∃ e, last t = Some e ∧ failed e)
  ∨ (∃ ops offers, t = ops ++ offers ∧ Forall (λ e, isTrackOp e) ops
                   ∧ Forall succeeded ops ∧ offerTrace p r offers).
Proof.
  unfold syncPeer. rewrite bind_gets. intros Hrun.
  apply bind_inv in Hrun as (E1 & w1 & t1 & t2 & Hs & Hrun & ->).
  pose proof (emits_run _ _ _ _ _ _ (sendersLoop_emits _ _ _ _) Hs) as Hops1.
  destruct E1 as [E1|].
  - rewrite !bind_gets in Hrun.
    apply bind_inv in Hrun as (o & w2 & t2' & t3 & Ht & Hrun & ->).
    pose proof (emits_run _ _ _ _ _ _ (tracksLoop_emits _ _ _) Ht) as Hops2.
    apply sendersLoop_spec in Hs as (_ & _ & Hok1).
    destruct o.
    + apply tracksLoop_spec in Ht as [_ Hok2].
      right. exists (t1 ++ t2'), t3. rewrite app_assoc. split_and!; [done|by apply Forall_app..|].
      pose proof (sendOffer_trace p w2) as Hot. by rewrite Hrun in Hot.
    + injection Hrun as <- <- <-. left. rewrite app_nil_r.
      split_and!; [done|by apply Forall_app|].
      apply tracksLoop_err in Ht as (e & Hlast & He). exists e. split; [|done].
      destruct t2'; [done|]. by rewrite last_app_cons.
  - injection Hrun as <- <- <-. left. rewrite app_nil_r.
    split_and!; [done..|]. by eapply sendersLoop_none.
Qed.

Lemma trackOp_not_offerFailure e : isTrackOp e → ¬ isOfferFailure e.
Proof. destruct e; simpl; intros Ht Hf; done. Qed.

Lemma trackOp_not_write e : isTrackOp e → ¬ isWriteJSON e.
Proof. destruct e; simpl; intros Ht Hf; done. Qed.

Lemma last_app_nonempty {A} (l1 l2 : list A) x : last l2 = Some x → last (l1 ++ l2) = Some x.
Proof. destruct l2; [done|]. by rewrite last_app_cons. Qed.

Lemma syncPeer_offer_failure room p w r w' t e :
  syncPeer room p w = (r, w', t) →
  e ∈ t → isOfferFailure e →
  r = true ∧ last t = Some e ∧ Forall (λ e', ¬ isWriteJSON e') t.
Proof.
  intros Hrun He Hfail.
  apply syncPeer_trace in Hrun as [(-> & Hops & _)|(ops & offers & -> & Hops & _ & Hot)].
  - rewrite Forall_forall in Hops. by destruct (trackOp_not_offerFailure e (Hops _ He)).
  - apply elem_of_app in He as [He|He].
    { rewrite Forall_forall in Hops. by destruct (trackOp_not_offerFailure e (Hops _ He)). }
    assert (Forall (λ e', ¬ isWriteJSON e') ops) as Hnw
      by (eapply Forall_impl; [done|apply trackOp_not_write]).
    inversion Hot; subst; set_unfold in He; destruct_or!; subst; try done.
    all: split_and!; [done|by apply last_app_nonempty|].
    all: apply Forall_app; split; [done|]; repeat constructor; by intros [].
Qed.

Lemma syncPeer_write room p w r w' t ws m o :
  syncPeer room p w = (r, w', t) →
  EWriteJSON ws m o ∈ t →
  ∃ ops offer,
    ws = websocket p
    ∧ m = {| Event := "offer"; Data := marshalSessionDescription offer |}
    ∧ t = ops ++ [ECreateOffer (peerConnection p) Ok;
                  ESetLocalDescription (peerConnection p) offer Ok;
                  EMarshal offer Ok;
                  EWriteJSON ws m o].
Proof.
  intros Hrun He.
  apply syncPeer_trace in Hrun as [(-> & Hops & _)|(ops & offers & -> & Hops & _ & Hot)].
  - rewrite Forall_forall in Hops. by destruct (Hops _ He).
  - apply elem_of_app in He as [He|He].
    { rewrite Forall_forall in Hops. by destruct (Hops _ He). }
    inversion Hot; subst; set_unfold in He; destruct_or!; try done.
    all: injection He as -> -> ->; by exists ops, offer.
Qed.

Lemma peersLoop_offer_failure room snapshot : ∀ i w e,
  e ∈ (peersLoop room i snapshot w).2 → isOfferFailure e →
  (peersLoop room i snapshot w).1.1 = true ∧ last (peersLoop room i snapshot w).2 = Some e.
Proof.
  induction snapshot as [|p rest IH]; intros i w e; simpl.
  - by intros ?%elem_of_nil.
  - rewrite bind_gets. destruct (isClosed _).
    { rewrite bind_gets, bind_modify. by intros ?%elem_of_nil. }
    destruct (syncPeer room p w) as [[r1 w1] t1] eqn:Hp.
    rewrite (bind_run _ _ _ _ _ _ Hp). simpl.
    destruct r1; simpl.
    + rewrite app_nil_r. intros He Hfail.
      by destruct (syncPeer_offer_failure _ _ _ _ _ _ _ Hp He Hfail) as (_ & ? & _).
    + intros He Hfail. apply elem_of_app in He as [He|He].
      * by destruct (syncPeer_offer_failure _ _ _ _ _ _ _ Hp He Hfail).
      * destruct (IH _ _ _ He Hfail) as [Hr Hl]. split; [done|]. by apply last_app_nonempty.
Qed.

Lemma offerTrace_failed p t : offerTrace p true t → Exists failed t.
Proof.
  inversion 1; subst.
  - by left.
  - right. by left.
  - do 2 right. by left.
  - do 3 right. by left.
Qed.

Lemma syncPeer_outcomes room p w r w' t :
  syncPeer room p w = (r, w', t) →
  if r then Exists failed t else Forall succeeded t.
Proof.
  intros Hrun.
  apply syncPeer_trace in Hrun as [(-> & _ & e & Hl & He)|(ops & offers & -> & _ & Hok & Hot)].
  - apply Exists_exists. exists e. split; [|done].
    apply last_Some in Hl as [l' ->]. apply elem_of_app. right. by left.
  - destruct r.
    + apply Exists_app. right. by eapply offerTrace_failed.
    + apply Forall_app. split; [done|]. by eapply offerTrace_succeeded.
Qed.

(** A pass over peers none of which is closed changes no peer list, and
    asks for another attempt exactly when a library call failed. *)
Lemma peersLoop_live room snapshot : ∀ i w,
  (∀ q, q ∈ snapshot →
        connectionState (deref (peerConnection q) w) ≠ PeerConnectionStateClosed) →
  let r := peersLoop room i snapshot w in
  peerConnections r.1.2 = peerConnections w
  ∧ if r.1.1 then Exists failed r.2 else Forall succeeded r.2.
Proof.
  induction snapshot as [|p rest IH]; intros i w Hlive; simpl.
  - by split.
  - rewrite bind_gets.
    destruct (isClosed _) eqn:Hc.
    { destruct (Hlive p); [left|]. by destruct (connectionState _). }
    destruct (syncPeer room p w) as [[r1 w1] t1] eqn:Hp.
    rewrite (bind_run _ _ _ _ _ _ Hp). simpl.
    pose proof (preserves_run _ _ _ _ _ _ (syncPeer_same peerConnections _ _) Hp) as Hpcs.
    pose proof (preserves_run _ _ _ _ _ _ (syncPeer_observed _ _) Hp) as Hobs.
    pose proof (syncPeer_outcomes _ _ _ _ _ _ Hp) as Hout.
    destruct r1; simpl.
    + rewrite app_nil_r. by split.
    + destruct (IH (S i) w1) as [Hpcs' Hout'].
      { intros q Hq. specialize (Hobs (peerConnection q)). injection Hobs as _ -> _.
        apply Hlive. by right. }
      split; [unfold same in Hpcs; congruence|].
      destruct (peersLoop room (S i) rest w1).1.1.
      * apply Exists_app. by right.
      * by apply Forall_app.
Qed.

(** The pass on a list whose first closed peer is [p]: the peers before
    it are synced, then [p] is spliced out, unless syncing failed. *)
Lemma peersLoop_closed room before : ∀ pre i w p after r0 w0 t0,
  peersOf room w = pre ++ before ++ p :: after →
  length pre = i →
  (∀ q, q ∈ before →
        connectionState (deref (peerConnection q) w) ≠ PeerConnectionStateClosed) →
  connectionState (deref (peerConnection p) w) = PeerConnectionStateClosed →
  peersLoop room i before w = (r0, w0, t0) →
  peersLoop room i (before ++ p :: after) w =
    (true,
     if r0 then w0
     else set_peerConnections (<[room := pre ++ before ++ after]> (peerConnections w0)) w0,
     t0).
Proof.
  induction before as [|q before IH];
    intros pre i w p after r0 w0 t0 Hpeers Hlen Hlive Hclosed; simpl.
  - intros [= <- <- <-].
    rewrite bind_gets, Hclosed. simpl. rewrite bind_gets, bind_modify, Hpeers.
    unfold ret. do 3 f_equal. subst i.
    rewrite take_app_length. simpl. f_equal.
    by rewrite (cons_middle p pre after), app_assoc, drop_app_length' by (rewrite length_app; simpl; lia).
  - rewrite !bind_gets.
    destruct (isClosed _) eqn:Hc.
    { destruct (Hlive q); [left|]. by destruct (connectionState (deref (peerConnection q) w)). }
    destruct (syncPeer room q w) as [[r1 w1] t1] eqn:Hq.
    rewrite !(bind_run _ _ _ _ _ _ Hq).
    destruct r1; simpl.
    { by intros [= <- <- <-]. }
    pose proof (preserves_run _ _ _ _ _ _ (syncPeer_same peerConnections _ _) Hq) as Hpcs.
    pose proof (preserves_run _ _ _ _ _ _ (syncPeer_observed _ _) Hq) as Hobs.
    destruct (peersLoop room (S i) before w1) as [[r2 w2] t2] eqn:Hrest. simpl.
    intros [= <- <- <-].
    erewrite (IH (pre ++ [q]) (S i) w1 p after); [| | | | |exact Hrest].
    + simpl. by rewrite <- !app_assoc.
    + unfold peersOf. rewrite Hpcs. fold (peersOf room w). by rewrite Hpeers, <- app_assoc.
    + rewrite length_app. simpl. lia.
    + intros q' Hq'. specialize (Hobs (peerConnection q')). injection Hobs as _ -> _.
      apply Hlive. by right.
    + specialize (Hobs (peerConnection p)). injection Hobs as _ -> _. done.
Qed.

End Failures.

Lemma forEach_pure {A} (f : A → M unit) (g : A → list Effect) l w :
  (∀ x, f x w = (tt, w, g x)) → forEach f l w = (tt, w, l ≫= g).
Proof.
  intros Hf. induction l as [|x l IH]; simpl; [done|].
  rewrite (bind_run _ _ _ _ _ _ (Hf x)), IH. done.
Qed.

(** * The retry loop *)

Section SignalLoop.
Context `{Externals}.

Lemma dispatchKeyFrame_run room w :
  dispatchKeyFrame room w =
    (tt, w, EDispatchKeyFrame room :: ELock :: keyframes room w ++ [EUnlock]).
Proof.
  unfold dispatchKeyFrame. rewrite !bind_emit, bind_gets.
  erewrite bind_run; [reflexivity|].
  apply forEach_pure. intros p. rewrite bind_gets.
  apply forEach_pure. by intros [track|].
Qed.

Lemma go_run g w : go g w = (tt, set_goroutines (goroutines w ++ [g]) w, [EGo g]).
Proof. done. Qed.

Lemma passOp_insideLock e : isTrackOp e ∨ isOfferOp e → insideLock e.
Proof. destruct e; simpl; tauto. Qed.

Lemma passOp_not_go e : isTrackOp e ∨ isOfferOp e → ¬ isGo e.
Proof. destruct e; simpl; tauto. Qed.

Lemma passOp_attemptResults t :
  Forall (λ e, isTrackOp e ∨ isOfferOp e) t → attemptResults t = [].
Proof.
  induction 1 as [|e t He _ IH]; [done|].
  destruct e; simpl in *; try tauto; exact IH.
Qed.

Lemma attemptResults_app t1 t2 :
  attemptResults (t1 ++ t2) = attemptResults t1 ++ attemptResults t2.
Proof. apply omap_app. Qed.

Lemma attemptResults_cons b t : attemptResults (EAttemptSync b :: t) = b :: attemptResults t.
Proof. done. Qed.

(** The loop of lines 310-324: at most [n] attempts; it ends with the
    first attempt that reports no change, or after [n] attempts that all
    reported one, and then starts the goroutine that signals again. *)
Lemma syncLoop_spec room n : ∀ w,
  let r := syncLoop room n w in
  Forall insideLock r.2
  ∧ ((∃ k, k < n ∧ attemptResults r.2 = repeat true k ++ [false]
           ∧ Forall (λ e, ¬ isGo e) r.2
           ∧ goroutines r.1.2 = goroutines w)
     ∨ (attemptResults r.2 = repeat true n
        ∧ (∃ body, r.2 = body ++ [EGo (Signal 3 room)] ∧ Forall (λ e, ¬ isGo e) body)
        ∧ goroutines r.1.2 = goroutines w ++ [Signal 3 room])).
Proof.
  induction n as [|n IH]; intros w; simpl.
  - split; [by repeat constructor|]. right. split_and!; [done| |done]. by exists [].
  - destruct (attemptSync room w) as [[b w1] t1] eqn:Hrun.
    pose proof (emits_run _ _ _ _ _ _ (attemptSync_emits room) Hrun) as Hops.
    pose proof (preserves_run _ _ _ _ _ _
                  (attemptSync_same goroutines room (λ _ _, eq_refl)) Hrun) as Hgo.
    assert (Forall insideLock t1) as Hin by (eapply Forall_impl; [exact Hops|apply passOp_insideLock]).
    assert (Forall (λ e, ¬ isGo e) t1) as Hng by (eapply Forall_impl; [exact Hops|apply passOp_not_go]).
    pose proof (passOp_attemptResults _ Hops) as Hres.
    rewrite (bind_run _ _ _ _ _ _ Hrun), bind_emit. simpl.
    destruct b; simpl.
    + destruct (IH w1) as [Hin' Hcases].
      destruct (syncLoop room n w1) as [[[] w2] t2]. simpl in *.
      split; [apply Forall_app; split; [done|by constructor]|].
      rewrite attemptResults_app, attemptResults_cons, Hres. simpl.
      destruct Hcases as [(k & Hk & Hr & Hng' & Hgo')|(Hr & (body & -> & Hng') & Hgo')].
      * left. exists (S k). split_and!; [lia|by rewrite Hr| |congruence].
        apply Forall_app. split; [done|]. constructor; [by intros []|done].
      * right. split_and!; [by rewrite Hr| |congruence].
        exists (t1 ++ EAttemptSync true :: body). split; [by rewrite <- app_assoc|].
        apply Forall_app. split; [done|]. constructor; [by intros []|done].
    + split; [apply Forall_app; split; [done|by repeat constructor]|].
      left. exists 0. rewrite attemptResults_app, attemptResults_cons, Hres. simpl.
      split_and!; [lia|done| |done].
      apply Forall_app. split; [done|]. repeat constructor. by intros [].
Qed.

Lemma go_same {A} (f : World → A) g :
  (∀ v w, f (set_goroutines v w) = f w) → preserves (same f) (go g).
Proof. intros Hf w. apply Hf. Qed.

Lemma go_observed g : preserves (keeps observed) (go g).
Proof. by intros w h. Qed.

Lemma go_grows g : preserves grows (go g).
Proof. intros w. unfold grows. simpl. by apply prefix_app_r. Qed.

Lemma dispatchKeyFrame_preserves (R : relation World) `{!PreOrder R} room :
  preserves R (dispatchKeyFrame room).
Proof. intros w. rewrite dispatchKeyFrame_run. simpl. reflexivity. Qed.

Lemma syncLoop_tracks room n : preserves (same trackLocals) (syncLoop room n).
Proof.
  induction n as [|n IH]; simpl; [by apply go_same|]. frames.
  by apply attemptSync_same.
Qed.

Lemma syncLoop_observed room n : preserves (keeps observed) (syncLoop room n).
Proof.
  induction n as [|n IH]; simpl; [by apply go_observed|]. frames.
  apply attemptSync_observed.
Qed.

Lemma syncLoop_grows room n : preserves grows (syncLoop room n).
Proof.
  induction n as [|n IH]; simpl; [by apply go_grows|]. frames.
  intros w. unfold grows.
  by rewrite (attemptSync_same goroutines room (λ _ _, eq_refl) w).
Qed.

Lemma signalPeerConnections_tracks room :
  preserves (same trackLocals) (signalPeerConnections room).
Proof.
  unfold signalPeerConnections. frames;
    [apply syncLoop_tracks | apply dispatchKeyFrame_preserves; apply _].
Qed.

Lemma signalPeerConnections_observed room :
  preserves (keeps observed) (signalPeerConnections room).
Proof.
  unfold signalPeerConnections. frames;
    [apply syncLoop_observed | apply dispatchKeyFrame_preserves; apply _].
Qed.

Lemma signalPeerConnections_grows room : preserves grows (signalPeerConnections room).
Proof.
  unfold signalPeerConnections. frames;
    [apply syncLoop_grows | apply dispatchKeyFrame_preserves; apply _].
Qed.

Lemma signalPeerConnections_run room w :
  signalPeerConnections room w =
    (tt, (syncLoop room maxSyncAttempts w).1.2,
     [ELock] ++ (syncLoop room maxSyncAttempts w).2 ++ [EUnlock]
       ++ (dispatchKeyFrame room (syncLoop room maxSyncAttempts w).1.2).2).
Proof.
  unfold signalPeerConnections. rewrite bind_emit.
  destruct (syncLoop room maxSyncAttempts w) as [[[] w1] t1] eqn:Hloop.
  rewrite (bind_run _ _ _ _ _ _ Hloop), bind_emit, dispatchKeyFrame_run. simpl. by rewrite dispatchKeyFrame_run.
Qed.

End SignalLoop.

Global Instance retains_preorder : PreOrder retains.
Proof.
  split.
  - intros w. split; [reflexivity|done].
  - intros w1 w2 w3 [Ho1 H1] [Ho2 H2]. split; [by etrans|].
    intros room p Hp Hl. apply H2; [by apply H1|].
    unfold live in *. specialize (Ho1 (peerConnection p)). injection Ho1 as _ -> _. done.
Qed.

Section Retention.
Context `{Externals}.

Lemma retains_same w w' :
  keeps observed w w' → peerConnections w' = peerConnections w → retains w w'.
Proof. intros Ho Hp. split; [done|]. intros room p. unfold peersOf. by rewrite Hp. Qed.

Lemma drop_cons_inv {A} (l : list A) i x rest :
  drop i l = x :: rest → drop (S i) l = rest ∧ l = take i l ++ x :: rest.
Proof.
  intros Hdrop.
  assert (l !! i = Some x) as Hi.
  { rewrite <- (Nat.add_0_r i), <- lookup_drop. by rewrite Hdrop. }
  rewrite (drop_S _ _ _ Hi) in Hdrop. injection Hdrop as <-.
  split; [done|]. rewrite <- (drop_S _ _ _ Hi). by rewrite take_drop.
Qed.

Lemma peersOf_insert room' room l w :
  peersOf room' (set_peerConnections (<[room := l]> (peerConnections w)) w)
  = if decide (room = room') then l else peersOf room' w.
Proof. unfold peersOf. simpl. rewrite lookup_insert. by case_decide. Qed.

Lemma peersLoop_retains room snapshot : ∀ i w,
  drop i (peersOf room w) = snapshot →
  retains w (peersLoop room i snapshot w).1.2.
Proof.
  induction snapshot as [|p rest IH]; intros i w Hdrop; simpl.
  - reflexivity.
  - rewrite bind_gets. apply drop_cons_inv in Hdrop as [Hrest Hpeers].
    destruct (isClosed _) eqn:Hc.
    + rewrite bind_gets, bind_modify. simpl. split; [by intros h|].
      intros room' q Hq Hl. rewrite peersOf_insert.
      case_decide as Hr; [subst room'|done]. rewrite Hrest.
      rewrite Hpeers in Hq. apply elem_of_app in Hq as [Hq|Hq]; apply elem_of_app; [by left|].
      apply elem_of_cons in Hq as [->|Hq]; [|by right].
      unfold live in Hl. by destruct (connectionState (deref (peerConnection p) w)).
    + destruct (syncPeer room p w) as [[r1 w1] t1] eqn:Hp.
      rewrite (bind_run _ _ _ _ _ _ Hp). simpl.
      pose proof (preserves_run _ _ _ _ _ _ (syncPeer_same peerConnections _ _) Hp) as Hpcs.
      pose proof (preserves_run _ _ _ _ _ _ (syncPeer_observed _ _) Hp) as Hobs.
      assert (retains w w1) as Hret by (by apply retains_same).
      destruct r1; simpl; [done|].
      etrans; [exact Hret|]. apply IH. unfold peersOf. by rewrite Hpcs.
Qed.

Lemma attemptSync_retains room : preserves retains (attemptSync room).
Proof.
  intros w. unfold attemptSync. rewrite bind_gets. by apply peersLoop_retains.
Qed.

Lemma go_retains g : preserves retains (go g).
Proof. intros w. by apply retains_same. Qed.

Lemma syncLoop_retains room n : preserves retains (syncLoop room n).
Proof.
  induction n as [|n IH]; simpl; [apply go_retains|]. frames. apply attemptSync_retains.
Qed.

Lemma signalPeerConnections_retains room : preserves retains (signalPeerConnections room).
Proof.
  unfold signalPeerConnections. frames;
    [apply syncLoop_retains | apply dispatchKeyFrame_preserves; apply _].
Qed.

End Retention.

Lemma bind_emit_inv {B} e (k : unit → M B) w b w' t :
  bind (emit e) k w = (b, w', t) → ∃ t', k tt w = (b, w', t') ∧ t = e :: t'.
Proof.
  rewrite bind_emit. destruct (k tt w) as [[b0 w0] t0]. simpl.
  intros [= <- <- <-]. by eexists.
Qed.

Lemma bind_update {B} h f (k : unit → M B) w :
  bind (update h f) k w = k tt (store h (f (deref h w)) w).
Proof. unfold update. by rewrite bind_modify. Qed.

(** Follow a run [H : m w = (a, w', t)] through the returns, reads,
    updates and effects at the head of [m]. *)
Ltac run_head H :=
  repeat first
    [ rewrite bind_ret in H
    | rewrite bind_gets in H
    | rewrite bind_modify in H
    | rewrite bind_update in H
    | let t' := fresh "t" in
      apply bind_emit_inv in H as (t' & H & ->) ].

(** * The track registry *)

Section TrackRegistry.
Context `{Externals}.

Lemma NewTrackLocalStaticRTP_run c id streamID w :
  NewTrackLocalStaticRTP c id streamID w =
    (match nextOutcome w with
     | Ok => Some {| tlCodec := c; tlID := id; tlStreamID := streamID |}
     | Err => None
     end, set_oracle (tail (oracle w)) w, [ENewTrackLocal id (nextOutcome w)]).
Proof. unfold NewTrackLocalStaticRTP, bind, outcome. simpl. by destruct (nextOutcome w). Qed.

Lemma keyframes_writes room w e :
  e ∈ keyframes room w → ∃ pc ssrc, e = EWriteRTCP pc ssrc.
Proof.
  unfold keyframes. intros He. apply list_elem_of_bind in He as (p & He & _).
  apply list_elem_of_bind in He as (r & He & _).
  destruct r; [|by apply elem_of_nil in He]. apply list_elem_of_singleton in He. eauto.
Qed.

(** The effects of [signalPeerConnections]: the lock, the effects inside
    it, the unlock and one keyframe broadcast. *)
Lemma signalPeerConnections_effects room w e :
  e ∈ (signalPeerConnections room w).2 →
  insideLock e ∨ e = ELock ∨ e = EUnlock ∨ e = EDispatchKeyFrame room
  ∨ ∃ pc ssrc, e = EWriteRTCP pc ssrc.
Proof.
  rewrite signalPeerConnections_run, dispatchKeyFrame_run. simpl.
  destruct (syncLoop_spec room maxSyncAttempts w) as [Hin _].
  rewrite Forall_forall in Hin.
  rewrite elem_of_cons, elem_of_app, !elem_of_cons, elem_of_app, list_elem_of_singleton.
  intros [?|[?|[?|[?|[?|[?|?]]]]]]; eauto 10 using keyframes_writes.
Qed.

Lemma keyedByID_insert tracks t :
  keyedByID tracks → keyedByID (<[tlID t := t]> tracks).
Proof.
  intros Hk k t'. rewrite lookup_insert. case_decide; [by intros [= <-]|apply Hk].
Qed.

Lemma keyedByID_delete tracks k : keyedByID tracks → keyedByID (delete k tracks).
Proof. intros Hk k' t'. rewrite lookup_delete. case_decide; [done|apply Hk]. Qed.

End TrackRegistry.

Lemma succeedNext_S n w :
  succeedNext (S n) w →
  nextOutcome w = Ok ∧ ∀ w', oracle w' = tail (oracle w) → succeedNext n w'.
Proof.
  unfold succeedNext, nextOutcome. destruct (oracle w) as [|o os]; simpl.
  - intros _. split; [done|]. intros w' ->. by rewrite take_nil.
  - intros [-> Hos]%Forall_cons. split; [done|]. by intros w' ->.
Qed.

Lemma touches_store h f w :
  touches h f w (store h (f (deref h w)) (set_oracle (tail (oracle w)) w)).
Proof.
  unfold touches. split_and!; try done.
  - by rewrite deref_store, decide_True.
  - intros h' Hne. by rewrite deref_store, decide_False.
Qed.

(** * The session *)

Section Session.
Context `{Externals}.

Lemma Upgrade_run r w :
  Upgrade r w =
    (match nextOutcome w with Ok => Some (conn r) | Err => None end,
     set_oracle (tail (oracle w)) w, [EUpgrade (conn r) (nextOutcome w)]).
Proof. unfold Upgrade, bind, outcome. simpl. by destruct (nextOutcome w). Qed.

Lemma NewPeerConnection_ok w :
  nextOutcome w = Ok →
  let h := fresh (dom (heap w)) in
  ∃ w', NewPeerConnection w = (Some h, w', [ENewPeerConnection h Ok])
        ∧ touches h (λ _, newPeerConnection) w w'.
Proof.
  intros Hok h. eexists. split; [|apply (touches_store h (λ _, newPeerConnection))].
  unfold NewPeerConnection, bind, outcome. simpl. by rewrite Hok.
Qed.

Lemma AddTransceiverFromKind_ok h typ w :
  nextOutcome w = Ok →
  ∃ w', AddTransceiverFromKind h typ w = (Ok, w', [EAddTransceiverFromKind h typ Ok])
        ∧ touches h (λ pc, with_receivers (with_transceivers pc (transceivers pc ++ [typ]))
                             (receivers pc ++ [None])) w w'.
Proof.
  intros Hok. eexists. split; [|apply touches_store].
  unfold AddTransceiverFromKind, bind, outcome. simpl. by rewrite Hok.
Qed.

(** [Handler] up to the read loop, when the upgrade, the new peer
    connection and the two transceivers succeed: [w4] is the world in
    which [signalPeerConnections] is then called. *)
Lemma handlerSetup_ok r w a w' t :
  succeedNext 4 w →
  handlerSetup r w = (a, w', t) →
  let roomUUID := default "" (vars r !! "uuid") in
  let pc := fresh (dom (heap w)) in
  let p := {| peerConnection := pc; websocket := conn r |} in
  ∃ w4 t5,
    a = Some (roomUUID, p)
    ∧ signalPeerConnections roomUUID w4 = (tt, w', t5)
    ∧ t = match vars r !! "uuid" with
          | Some _ => []
          | None => [EPrintln missingRoomDiagnostic]
          end
          ++ [EUpgrade (conn r) Ok; EGo (Ticker 3 roomUUID); ENewPeerConnection pc Ok;
              EAddTransceiverFromKind pc RTPCodecTypeVideo Ok;
              EAddTransceiverFromKind pc RTPCodecTypeAudio Ok; ELock; EUnlock]
          ++ t5
    ∧ peerConnections w4 = <[roomUUID := peersOf roomUUID w ++ [p]]> (peerConnections w)
    ∧ goroutines w4 = goroutines w ++ [Ticker 3 roomUUID]
    ∧ trackLocals w4 = trackLocals w
    ∧ deref pc w4 =
        with_callbacks
          (with_receivers
             (with_transceivers newPeerConnection [RTPCodecTypeVideo; RTPCodecTypeAudio])
             [None; None])
          {| onICECandidate := Some (conn r);
             onConnectionStateChange := Some roomUUID;
             onTrack := Some roomUUID |}
    ∧ ∀ h, h ≠ pc → deref h w4 = deref h w.
Proof.
  intros Hok Hrun roomUUID pc p. unfold handlerSetup in Hrun. fold roomUUID in Hrun.
  apply succeedNext_S in Hok as [Ho1 Hok].
  assert (∃ t0, bind (Upgrade r) (λ c, match c with
                     | None => ret None
                     | Some c => bind (go (Ticker 3 roomUUID)) (λ _, handlerSession roomUUID c)
                     end) w = (a, w', t0)
                 ∧ t = match vars r !! "uuid" with
                       | Some _ => []
                       | None => [EPrintln missingRoomDiagnostic]
                       end ++ t0) as (t0 & Hrun' & ->).
  { destruct (vars r !! "uuid"); run_head Hrun; eexists; split; done. }
  clear Hrun. rename Hrun' into Hrun.
  apply bind_inv in Hrun as (c & w1 & t1 & t2 & Hup & Hrun & ->).
  rewrite Upgrade_run, Ho1 in Hup. injection Hup as <- <- <-.
  apply bind_inv in Hrun as ([] & w2 & t2' & t3 & Hgo & Hrun & ->).
  rewrite go_run in Hgo. injection Hgo as <- <-.
  remember (set_goroutines (goroutines w ++ [Ticker 3 roomUUID])
              (set_oracle (tail (oracle w)) w)) as w2 eqn:Hw2.
  assert (peerConnections w2 = peerConnections w ∧ trackLocals w2 = trackLocals w
          ∧ goroutines w2 = goroutines w ++ [Ticker 3 roomUUID]
          ∧ heap w2 = heap w) as (Hp2 & Ht2 & Hg2 & Hh2) by (by subst w2).
  assert (oracle w2 = tail (oracle w)) as Hor2 by (by subst w2).
  assert (succeedNext 3 w2) as Hok2 by (by apply Hok).
  clear Hw2 Hok. unfold handlerSession in Hrun.
  apply bind_inv in Hrun as (opc & w3 & t3' & t4 & Hnew & Hrun & ->).
  apply succeedNext_S in Hok2 as [Ho2 Hok].
  destruct (NewPeerConnection_ok w2 Ho2) as (w3' & Hnew' & T3).
  rewrite Hnew' in Hnew. injection Hnew as <- <- <-. rewrite Hh2 in *. fold pc in Hrun, T3 |- *.
  destruct T3 as (Hp3 & Ht3 & Hg3 & Hor3 & Hd3 & Hf3).
  apply bind_inv in Hrun as (err & w4 & t4' & t5 & Hadd & Hrun & ->).
  simpl in Hadd.
  apply bind_inv in Hadd as (e1 & w5 & t6 & t7 & Ha1 & Hadd & ->).
  specialize (Hok _ Hor3). apply succeedNext_S in Hok as [Ho3 Hok].
  destruct (AddTransceiverFromKind_ok pc RTPCodecTypeVideo w3' Ho3) as (w5' & Ha1' & T5).
  rewrite Ha1' in Ha1. injection Ha1 as <- <- <-.
  destruct T5 as (Hp5 & Ht5 & Hg5 & Hor5 & Hd5 & Hf5).
  apply bind_inv in Hadd as (e2 & w6 & t8 & t9 & Ha2 & Hadd & ->).
  specialize (Hok _ Hor5). apply succeedNext_S in Hok as [Ho4 _].
  destruct (AddTransceiverFromKind_ok pc RTPCodecTypeAudio w5' Ho4) as (w6' & Ha2' & T6).
  rewrite Ha2' in Ha2. injection Ha2 as <- <- <-.
  destruct T6 as (Hp6 & Ht6 & Hg6 & Hor6 & Hd6 & Hf6).
  simpl in Hadd. unfold ret in Hadd. injection Hadd as <- <- <-.
  run_head Hrun.
  apply bind_inv in Hrun as ([] & w7 & t10 & t11 & Hsig & Hrun & ->).
  unfold ret in Hrun. injection Hrun as <- <- <-.
  eexists _, t10. split_and!; [done|exact Hsig| | | | | |].
  - simpl. by rewrite app_nil_r.
  - simpl. unfold peersOf. rewrite Hp6, Hp5, Hp3, Hp2. done.
  - simpl. congruence.
  - simpl. congruence.
  - rewrite deref_store, decide_True by done.
    change (deref pc (set_peerConnections ?v w6')) with (deref pc w6').
    by rewrite Hd6, Hd5, Hd3.
  - intros h Hne. rewrite deref_store, decide_False by done.
    change (deref h (set_peerConnections ?v w6')) with (deref h w6').
    rewrite Hf6, Hf5, Hf3 by done. unfold deref. by rewrite Hh2.
Qed.

Lemma modify_grows f : (∀ w, goroutines (f w) = goroutines w) → preserves grows (modify f).
Proof. intros Hf w. unfold grows. simpl. by rewrite Hf. Qed.

Lemma ClosePeerConnection_grows h : preserves grows (ClosePeerConnection h).
Proof. unfold ClosePeerConnection. frames. apply go_grows. Qed.

Lemma addTransceivers_grows h kinds : preserves grows (addTransceivers h kinds).
Proof.
  induction kinds as [|k kinds IH]; simpl; [frames|].
  unfold AddTransceiverFromKind. frames.
Qed.

Lemma handlerSession_grows room c : preserves grows (handlerSession room c).
Proof.
  unfold handlerSession, NewPeerConnection, CloseWebsocket. frames.
  all: first [ by apply modify_grows | apply addTransceivers_grows
             | apply ClosePeerConnection_grows | apply signalPeerConnections_grows ].
Qed.

Lemma readStep_grows p message frame : preserves grows (readStep p message frame).
Proof. unfold readStep, handleMessage, AddICECandidate, SetRemoteDescription. frames. Qed.

Lemma readLoop_grows p inbound : ∀ message, preserves grows (readLoop p message inbound).
Proof.
  induction inbound as [|frame rest IH]; intros message; simpl; frames.
  apply readStep_grows.
Qed.

Lemma handlerDefers_grows p : preserves grows (handlerDefers p).
Proof.
  unfold handlerDefers, CloseWebsocket. frames. apply ClosePeerConnection_grows.
Qed.

(** Once the upgrade succeeded, the ticker goroutine of the session is
    running when [Handler] stops, however it stops. *)
Lemma Handler_keeps_ticker r inbound w :
  nextOutcome w = Ok →
  Ticker 3 (default "" (vars r !! "uuid")) ∈ goroutines (Handler r inbound w).1.2.
Proof.
  intros Hok. set (roomUUID := default "" (vars r !! "uuid")).
  destruct (Handler r inbound w) as [[res w'] t] eqn:Hrun. simpl.
  unfold Handler in Hrun.
  apply bind_inv in Hrun as (s & w1 & t1 & t2 & Hset & Hrun & ->).
  assert (Ticker 3 roomUUID ∈ goroutines w1) as Hin.
  { unfold handlerSetup in Hset. fold roomUUID in Hset.
    assert (∃ t0, bind (Upgrade r) (λ c, match c with
                     | None => ret None
                     | Some c => bind (go (Ticker 3 roomUUID)) (λ _, handlerSession roomUUID c)
                     end) w = (s, w1, t0)) as [t0 Hset'].
    { destruct (vars r !! "uuid"); run_head Hset; by eexists. }
    apply bind_inv in Hset' as (c & w2 & t3 & t4 & Hup & Hset' & _).
    rewrite Upgrade_run, Hok in Hup. injection Hup as <- <- <-.
    apply bind_inv in Hset' as ([] & w3 & t5 & t6 & Hgo & Hset' & _).
    rewrite go_run in Hgo. injection Hgo as <- <-.
    pose proof (preserves_run _ _ _ _ _ _ (handlerSession_grows _ _) Hset') as Hgrow.
    eapply elem_of_prefix; [|exact Hgrow]. simpl. apply elem_of_app. right. by left. }
  assert (grows w1 w') as Hgrow.
  { destruct s as [[room p]|]; [|by injection Hrun as <- <- <-].
    apply bind_inv in Hrun as (exit & w2 & t3 & t4 & Hloop & Hrun & _).
    pose proof (preserves_run _ _ _ _ _ _ (readLoop_grows _ _ _) Hloop) as Hg1.
    destruct exit; [|by injection Hrun as <- <- <-].
    apply bind_inv in Hrun as ([] & w3 & t5 & t6 & Hdef & Hrun & _).
    pose proof (preserves_run _ _ _ _ _ _ (handlerDefers_grows _) Hdef) as Hg2.
    injection Hrun as _ <- _. by etrans. }
  by eapply elem_of_prefix.
Qed.

End Session.

(** * The read loop *)

Section ReadLoop.
Context `{Externals}.

Lemma AddICECandidate_run h c w :
  AddICECandidate h c w =
    match nextOutcome w with
    | Ok => (Ok, store h (with_remoteCandidates (deref h w) (remoteCandidates (deref h w) ++ [c]))
                   (set_oracle (tail (oracle w)) w), [EAddICECandidate h c Ok])
    | Err => (Err, set_oracle (tail (oracle w)) w, [EAddICECandidate h c Err])
    end.
Proof. unfold AddICECandidate, bind, outcome. simpl. by destruct (nextOutcome w). Qed.

Lemma SetRemoteDescription_run h d w :
  SetRemoteDescription h d w =
    match nextOutcome w with
    | Ok => (Ok, store h (with_remoteDescription (deref h w) d)
                   (set_oracle (tail (oracle w)) w), [ESetRemoteDescription h d Ok])
    | Err => (Err, set_oracle (tail (oracle w)) w, [ESetRemoteDescription h d Err])
    end.
Proof. unfold SetRemoteDescription, bind, outcome. simpl. by destruct (nextOutcome w). Qed.

(** The [switch] of the read loop on a decoded message. *)
Lemma handleMessage_spec p m w :
  let res := handleMessage p m w in
  let pc := peerConnection p in
  ((∃ exit, res.1.1 = inl exit) ↔
     (Event m = "candidate"
      ∧ (unmarshalICECandidateInit (Data m) = None ∨ nextOutcome w = Err))
     ∨ (Event m = "answer"
        ∧ (unmarshalSessionDescription (Data m) = None ∨ nextOutcome w = Err)))
  ∧ (∀ exit, res.1.1 = inl exit → exit = Returned)
  ∧ (∀ m', res.1.1 = inr m' →
       m' = m
       ∧ (Event m = "candidate" →
            ∃ c, unmarshalICECandidateInit (Data m) = Some c
                 ∧ remoteCandidates (deref pc res.1.2) = remoteCandidates (deref pc w) ++ [c])
       ∧ (Event m = "answer" →
            ∃ d, unmarshalSessionDescription (Data m) = Some d
                 ∧ remoteDescription (deref pc res.1.2) = Some d)
       ∧ (Event m ≠ "candidate" → Event m ≠ "answer" → res.1.2 = w ∧ res.2 = [])).
Proof.
  intros res pc. subst res. unfold handleMessage. fold pc.
  destruct (decide (Event m = "candidate")) as [Hc|Hc].
  - destruct (unmarshalICECandidateInit (Data m)) as [c|] eqn:Hdec.
    + pose proof (AddICECandidate_run pc c w) as Hrun.
      destruct (nextOutcome w) eqn:Hout; rewrite (bind_run _ _ _ _ _ _ Hrun); simpl.
      * split_and!.
        -- split; [by intros [? [=]]|]. intros [[_ [|]]|[Ha _]]; try done; congruence.
        -- by intros ? [=].
        -- intros m' [= <-]. split_and!; [done| | |done].
           ++ intros _. exists c. split; [done|]. by rewrite deref_store, decide_True.
           ++ intros Ha. congruence.
      * split_and!.
        -- split; [|by eexists]. intros _. left. split; [done|by right].
        -- by intros ? [= <-].
        -- by intros m' [=].
    + simpl. split_and!.
      * split; [|by eexists]. intros _. left. split; [done|by left].
      * by intros ? [= <-].
      * by intros m' [=].
  - destruct (decide (Event m = "answer")) as [Ha|Ha].
    + destruct (unmarshalSessionDescription (Data m)) as [d|] eqn:Hdec.
      * pose proof (SetRemoteDescription_run pc d w) as Hrun.
        destruct (nextOutcome w) eqn:Hout; rewrite (bind_run _ _ _ _ _ _ Hrun); simpl.
        -- split_and!.
           ++ split; [by intros [? [=]]|]. intros [[Hc' _]|[_ [|]]]; done.
           ++ by intros ? [=].
           ++ intros m' [= <-]. split_and!; [done|done| |done].
              intros _. exists d. split; [done|]. by rewrite deref_store, decide_True.
        -- split_and!.
           ++ split; [|by eexists]. intros _. right. split; [done|by right].
           ++ by intros ? [= <-].
           ++ by intros m' [=].
      * simpl. split_and!.
        -- split; [|by eexists]. intros _. right. split; [done|by left].
        -- by intros ? [= <-].
        -- by intros m' [=].
    + simpl. split_and!.
      * split; [by intros [? [=]]|]. by intros [[? _]|[? _]].
      * by intros ? [=].
      * intros m' [= <-]. by split_and!.
Qed.

End ReadLoop.

(** * The properties of the specification *)

Section Claims.
Context `{Externals}.

Lemma peersLoop_write room snapshot : ∀ i w ws m o,
  EWriteJSON ws m o ∈ (peersLoop room i snapshot w).2 →
  ∃ q offer pre post,
    q ∈ snapshot
    ∧ ws = websocket q
    ∧ m = {| Event := "offer"; Data := marshalSessionDescription offer |}
    ∧ (peersLoop room i snapshot w).2
      = pre ++ [ECreateOffer (peerConnection q) Ok;
                ESetLocalDescription (peerConnection q) offer Ok;
                EMarshal offer Ok;
                EWriteJSON ws m o] ++ post.
Proof.
  induction snapshot as [|p rest IH]; intros i w ws m o; simpl.
  - by intros ?%elem_of_nil.
  - rewrite bind_gets. destruct (isClosed _).
    { rewrite bind_gets, bind_modify. by intros ?%elem_of_nil. }
    destruct (syncPeer room p w) as [[r1 w1] t1] eqn:Hp.
    rewrite (bind_run _ _ _ _ _ _ Hp). simpl.
    assert (EWriteJSON ws m o ∈ t1 →
            ∃ pre, ws = websocket p ∧ ∃ offer,
              m = {| Event := "offer"; Data := marshalSessionDescription offer |}
              ∧ t1 = pre ++ [ECreateOffer (peerConnection p) Ok;
                             ESetLocalDescription (peerConnection p) offer Ok;
                             EMarshal offer Ok; EWriteJSON ws m o]) as Hhere.
    { intros He. destruct (syncPeer_write _ _ _ _ _ _ _ _ _ Hp He) as (ops & offer & ? & ? & ?).
      eauto. }
    destruct r1; simpl.
    + rewrite app_nil_r. intros He. destruct (Hhere He) as (pre & -> & offer & -> & ->).
      exists p, offer, pre, []. split_and!; try done. by left.
    + intros He. apply elem_of_app in He as [He|He].
      * destruct (Hhere He) as (pre & -> & offer & -> & ->).
        exists p, offer, pre, (peersLoop room (S i) rest w1).2.
        split_and!; try done; [by left|]. by rewrite <- !app_assoc.
      * destruct (IH _ _ _ _ _ He) as (q & offer & pre & post & Hq & -> & -> & Heq).
        exists q, offer, (t1 ++ pre), post. split_and!; try done; [by right|].
        by rewrite Heq, <- !app_assoc.
Qed.


(** C2 (as amended).  When [attemptSync] has reported no change, a second
    call on the state it left adds and removes no track: every effect of
    it is a step of an offer, the peer list and every sender are as they
    were.  It does create and send an offer again: when no library call
    fails it returns false after one offer frame to each peer of the room,
    in list order. *)
Theorem attemptSync_again `{!RangeLaw} room w w1 t1 :
  keyedByID (tracksOf room w) →
  attemptSync room w = (false, w1, t1) →
  let again := attemptSync room w1 in
  Forall (λ e, isOfferOp e) again.2
  ∧ peerConnections again.1.2 = peerConnections w1
  ∧ (∀ h, senders (deref h again.1.2) = senders (deref h w1))
  ∧ (calm w1 → again.1.1 = false ∧ offersSent again.2 = websocket <$> peersOf room w1).
Proof.
  intros Hkey Hrun again. subst again.
  pose proof (preserves_run _ _ _ _ _ _ (attemptSync_same trackLocals room (λ _ _, eq_refl)) Hrun) as Htl.
  assert (tracksOf room w1 = tracksOf room w) as HT by (unfold tracksOf; by rewrite Htl).
  unfold attemptSync in Hrun. rewrite bind_gets in Hrun.
  apply peersLoop_false in Hrun as (Hpcs & Hall & _); [|done].
  assert (peersOf room w1 = peersOf room w) as Hsame by (unfold peersOf; by rewrite Hpcs).
  unfold attemptSync. rewrite bind_gets, Hsame.
  destruct (peersLoop_synced room (peersOf room w) 0 w1) as (Hops & Hpcs' & Hsd & Hcalm).
  { intros p Hp. rewrite HT. by apply Hall. }
  split_and!; [done..|]. intros Hc. by destruct (Hcalm Hc) as (? & _ & ?).
Qed.

(** C4 (as amended).  [signalPeerConnections] takes the registry lock, runs
    [attemptSync] at most 25 times and stops at the first attempt that
    reports no change; when all 25 report one it starts the goroutine that
    calls [signalPeerConnections] again after 3 seconds.  On both paths it
    then releases the lock and dispatches a keyframe for the room. *)
Theorem signalPeerConnections_shape room w :
  let res := signalPeerConnections room w in
  ∃ body,
    res.2 = [ELock] ++ body
              ++ [EUnlock; EDispatchKeyFrame room; ELock] ++ keyframes room res.1.2 ++ [EUnlock]
    ∧ Forall insideLock body
    ∧ length (attemptResults body) ≤ 25
    ∧ ((∃ k, k < 25
             ∧ attemptResults body = repeat true k ++ [false]
             ∧ Forall (λ e, ¬ isGo e) body
             ∧ goroutines res.1.2 = goroutines w)
       ∨ (attemptResults body = repeat true 25
          ∧ (∃ body', body = body' ++ [EGo (Signal 3 room)] ∧ Forall (λ e, ¬ isGo e) body')
          ∧ goroutines res.1.2 = goroutines w ++ [Signal 3 room])).
Proof.
  intros res. subst res. rewrite signalPeerConnections_run, dispatchKeyFrame_run.
  destruct (syncLoop_spec room maxSyncAttempts w) as [Hin Hcases]. simpl.
  exists (syncLoop room maxSyncAttempts w).2. split_and!; [done|done| |].
  - destruct Hcases as [(k & Hk & -> & _)|(-> & _)].
    + rewrite length_app, repeat_length. simpl. unfold maxSyncAttempts in Hk. lia.
    + by rewrite repeat_length.
  - exact Hcases.
Qed.

(** C5 (as amended).  A frame that was read and is not the literal [null]
    ends the session exactly when it does not decode, or when it is a
    candidate or an answer whose payload fails to decode or to apply.  A
    candidate or answer that decodes and applies is applied and the loop
    goes on; a frame with any other event is ignored and the loop goes
    on. *)
Theorem readStep_frame p message frame w :
  frame ≠ ReadError →
  frame ≠ JSONNull →
  let res := readStep p message frame w in
  let pc := peerConnection p in
  ((∃ exit, res.1.1 = inl exit) ↔
     frame = UnmarshalError
     ∨ ∃ event data,
         frame = JSONObject event data
         ∧ ((Event (decoded message event data) = "candidate"
             ∧ (unmarshalICECandidateInit (Data (decoded message event data)) = None
                ∨ nextOutcome w = Err))
            ∨ (Event (decoded message event data) = "answer"
               ∧ (unmarshalSessionDescription (Data (decoded message event data)) = None
                  ∨ nextOutcome w = Err))))
  ∧ (∀ m, res.1.1 = inr m →
       ∃ event data,
         frame = JSONObject event data
         ∧ m = decoded message event data
         ∧ (Event m = "candidate" →
              ∃ c, unmarshalICECandidateInit (Data m) = Some c
                   ∧ remoteCandidates (deref pc res.1.2)
                     = remoteCandidates (deref pc w) ++ [c])
         ∧ (Event m = "answer" →
              ∃ d, unmarshalSessionDescription (Data m) = Some d
                   ∧ remoteDescription (deref pc res.1.2) = Some d)
         ∧ (Event m ≠ "candidate" → Event m ≠ "answer" → res.1.2 = w ∧ res.2 = [])).
Proof.
  intros Hread Hnull res pc. subst res.
  destruct frame as [| | |event data]; try done; simpl.
  - split.
    + split; [by left|by eexists].
    + by intros m [=].
  - destruct (handleMessage_spec p (decoded message event data) w) as (Hiff & _ & Hgo).
    split.
    + rewrite Hiff. split.
      * intros Hfail. right. by exists event, data.
      * intros [[=]|(event' & data' & [= <- <-] & Hfail)]. done.
    + intros m Hm. destruct (Hgo m Hm) as (-> & Hc & Ha & Hother).
      by exists event, data.
Qed.

(** C6.  In the pass over one peer, a failure to create the offer, to set
    it as local description or to encode it makes the pass return true
    with no frame written; a frame is written only as the last step after
    [CreateOffer], [SetLocalDescription] and [json.Marshal] succeeded, on
    that peer's socket, and it is the offer frame.  In a whole call of
    [attemptSync] such a failure is the last effect, the call returns
    true, and every frame written follows the three successful steps of
    the peer it goes to. *)
Theorem offer_follows_success room p w :
  let visit := syncPeer room p w in
  let pass := attemptSync room w in
  (∀ e, e ∈ visit.2 → isOfferFailure e →
        visit.1.1 = true ∧ Forall (λ e', ¬ isWriteJSON e') visit.2)
  ∧ (∀ ws m o, EWriteJSON ws m o ∈ visit.2 →
        ∃ ops offer,
          ws = websocket p
          ∧ m = {| Event := "offer"; Data := marshalSessionDescription offer |}
          ∧ visit.2 = ops ++ [ECreateOffer (peerConnection p) Ok;
                              ESetLocalDescription (peerConnection p) offer Ok;
                              EMarshal offer Ok;
                              EWriteJSON ws m o])
  ∧ (∀ e, e ∈ pass.2 → isOfferFailure e → pass.1.1 = true ∧ last pass.2 = Some e)
  ∧ (∀ ws m o, EWriteJSON ws m o ∈ pass.2 →
        ∃ q offer pre post,
          q ∈ peersOf room w
          ∧ ws = websocket q
          ∧ m = {| Event := "offer"; Data := marshalSessionDescription offer |}
          ∧ pass.2 = pre ++ [ECreateOffer (peerConnection q) Ok;
                             ESetLocalDescription (peerConnection q) offer Ok;
                             EMarshal offer Ok;
                             EWriteJSON ws m o] ++ post).
Proof.
  intros visit pass. subst visit pass.
  destruct (syncPeer room p w) as [[r w'] t] eqn:Hvisit. simpl.
  split_and!.
  - intros e He Hfail.
    by destruct (syncPeer_offer_failure _ _ _ _ _ _ _ Hvisit He Hfail) as (? & _ & ?).
  - intros ws m o He. by apply (syncPeer_write _ _ _ _ _ _ _ _ _ Hvisit).
  - unfold attemptSync. rewrite bind_gets. apply peersLoop_offer_failure.
  - unfold attemptSync. rewrite bind_gets. apply peersLoop_write.
Qed.

(** C7 (as amended).  On a room whose first closed peer is [p],
    [attemptSync] returns true.  It syncs the peers before [p] and does
    nothing else; when none of their library calls fails it removes
    exactly [p], the others keeping their order, and when one fails it
    leaves the list as it was.  No other room's list changes. *)
Theorem attemptSync_prunes_first_closed room w before p after :
  peersOf room w = before ++ p :: after →
  (∀ q, q ∈ before → live q w) →
  connectionState (deref (peerConnection p) w) = PeerConnectionStateClosed →
  let sync := peersLoop room 0 before w in
  let pass := attemptSync room w in
  pass.1.1 = true
  ∧ pass.2 = sync.2
  ∧ heap pass.1.2 = heap sync.1.2
  ∧ (Forall succeeded pass.2 → peersOf room pass.1.2 = before ++ after)
  ∧ (Exists failed pass.2 → peersOf room pass.1.2 = before ++ p :: after)
  ∧ (∀ room', room' ≠ room → peersOf room' pass.1.2 = peersOf room' w).
Proof.
  intros Hpeers Hlive Hclosed sync pass. subst sync pass.
  destruct (peersLoop room 0 before w) as [[r0 w0] t0] eqn:Hsync.
  unfold attemptSync. rewrite bind_gets, Hpeers.
  rewrite (peersLoop_closed room before [] 0 w p after r0 w0 t0); [|done..].
  destruct (peersLoop_live room before 0 w Hlive) as [Hpcs Hout].
  rewrite Hsync in Hpcs, Hout. simpl in *.
  assert (Forall succeeded t0 → Exists failed t0 → False) as Hexcl.
  { intros Hall (e & He & Hf)%Exists_exists. rewrite Forall_forall in Hall.
    by apply (Hall e He). }
  destruct r0; simpl.
  - split_and!; [done..| | |].
    + intros Hall. by destruct (Hexcl Hall Hout).
    + intros _. unfold peersOf. rewrite Hpcs. exact Hpeers.
    + intros room' _. unfold peersOf. by rewrite Hpcs.
  - split_and!; [done..| | |].
    + intros _. by rewrite peersOf_insert, decide_True.
    + intros Hex. by destruct (Hexcl Hout Hex).
    + intros room' Hne. rewrite peersOf_insert, decide_False by done.
      unfold peersOf. by rewrite Hpcs.
Qed.

(** C8.  [addTrack(t, room)] either panics, which it does exactly when
    building the local track fails, or returns a local track with the
    codec capability, id and stream id of [t] and leaves it in the room's
    track map under [t]'s id, the map being created when the room had
    none; no other room's track map changes. *)
Theorem addTrack_registers t room w :
  let res := addTrack t room w in
  match res.1.1 with
  | None =>
      nextOutcome w = Err ∧ last res.2 = Some EPanic ∧ trackLocals res.1.2 = trackLocals w
  | Some trackLocal =>
      nextOutcome w = Ok
      ∧ EPanic ∉ res.2
      ∧ tlCodec trackLocal = trCodec t
      ∧ tlID trackLocal = trID t
      ∧ tlStreamID trackLocal = trStreamID t
      ∧ trackLocals res.1.2 !! room
        = Some (<[trID t := trackLocal]> (default ∅ (trackLocals w !! room)))
      ∧ (∀ room', room' ≠ room → trackLocals res.1.2 !! room' = trackLocals w !! room')
  end.
Proof.
  intros res. subst res. destruct (addTrack t room w) as [[a w'] tr] eqn:Hrun.
  unfold addTrack in Hrun. run_head Hrun.
  apply bind_inv in Hrun as (tl & w1 & t1 & t2 & Hnew & Hrun & ->).
  rewrite NewTrackLocalStaticRTP_run in Hnew. injection Hnew as <- <- <-.
  destruct (nextOutcome w); simpl.
  - run_head Hrun.
    apply bind_inv in Hrun as ([] & w2 & t2 & t3 & Hsig & Hrun & ->).
    injection Hrun as <- <- <-.
    pose proof (preserves_run _ _ _ _ _ _ (signalPeerConnections_tracks room) Hsig) as Htl.
    split_and!; [done| |done..| |].
    + intros Hp. rewrite !elem_of_cons, elem_of_app, elem_of_nil in Hp.
      destruct Hp as [?|[?|[?|[Hp|[]]]]]; try done.
      match type of Hsig with signalPeerConnections _ ?W = _ =>
        pose proof (signalPeerConnections_effects room W EPanic) as Heff end.
      rewrite Hsig in Heff. destruct (Heff Hp) as [?|[?|[?|[?|(?&?&?)]]]]; done.
    + rewrite Htl. simpl. by rewrite lookup_insert_eq.
    + intros room' Hne. rewrite Htl. simpl. by rewrite lookup_insert_ne.
  - run_head Hrun.
    apply bind_inv in Hrun as ([] & w2 & t2 & t3 & Hsig & Hrun & ->).
    run_head Hrun. injection Hrun as <- <- <-.
    pose proof (preserves_run _ _ _ _ _ _ (signalPeerConnections_tracks room) Hsig) as Htl.
    split_and!; [done| |by rewrite Htl].
    rewrite !app_comm_cons. by rewrite last_snoc.
Qed.

(** C9.  A request without the room id is not refused: when the upgrade,
    the new peer connection and the two transceivers succeed, [Handler]
    prints the diagnostic first, closes neither connection, and works
    with the empty string as room id: the ticker, the registered pair and
    the callbacks of the connection all carry it, so the peers of all such
    requests are registered in the one room [""]. *)
Theorem Handler_without_room_id r w :
  vars r !! "uuid" = None →
  succeedNext 4 w →
  let res := handlerSetup r w in
  let pc := fresh (dom (heap w)) in
  let p := {| peerConnection := pc; websocket := conn r |} in
  res.1.1 = Some ("", p)
  ∧ head res.2 = Some (EPrintln missingRoomDiagnostic)
  ∧ Forall (λ e, ¬ isClose e) res.2
  ∧ Ticker 3 "" ∈ goroutines res.1.2
  ∧ p ∈ peersOf "" res.1.2
  ∧ callbacks (deref pc res.1.2)
    = {| onICECandidate := Some (conn r);
         onConnectionStateChange := Some "";
         onTrack := Some "" |}
  ∧ ∀ q, q ∈ peersOf "" w → live q w → q ∈ peersOf "" res.1.2.
Proof.
  intros Hvars Hok res pc p. subst res.
  destruct (handlerSetup r w) as [[a w'] t] eqn:Hrun. simpl.
  apply handlerSetup_ok in Hrun as (w4 & t5 & -> & Hsig & -> & Hp4 & Hg4 & _ & Hd4 & Hf4);
    [|done].
  rewrite Hvars in *. simpl in *. fold pc p in Hsig, Hp4, Hd4, Hf4 |- *.
  pose proof (preserves_run _ _ _ _ _ _ (signalPeerConnections_retains "") Hsig) as [Hobs Hret].
  pose proof (preserves_run _ _ _ _ _ _ (signalPeerConnections_grows "") Hsig) as Hgrow.
  assert (peersOf "" w4 = peersOf "" w ++ [p]) as Hpeers.
  { unfold peersOf at 1. by rewrite Hp4, lookup_insert_eq. }
  assert (∀ q, live q w → live q w4) as Hlive.
  { intros q Hq. unfold live in *. destruct (decide (peerConnection q = pc)) as [->|Hne].
    - by rewrite Hd4.
    - by rewrite Hf4. }
  split_and!; [done|done| | | | |].
  - repeat (constructor; [by intros []|]).
    apply Forall_forall. intros e He.
    pose proof (signalPeerConnections_effects "" w4 e) as Heff. rewrite Hsig in Heff.
    destruct (Heff He) as [Hin|[->|[->|[->|(?&?&->)]]]]; try (by intros []).
    destruct e; simpl in *; tauto.
  - eapply elem_of_prefix; [|exact Hgrow]. rewrite Hg4. apply elem_of_app. right. by left.
  - apply Hret.
    + rewrite Hpeers. apply elem_of_app. right. by left.
    + unfold live. simpl. fold pc. by rewrite Hd4.
  - specialize (Hobs pc). injection Hobs as _ _ ->. by rewrite Hd4.
  - intros q Hq Hl. apply Hret; [|by apply Hlive].
    rewrite Hpeers. apply elem_of_app. by left.
Qed.

(** C10.  On a room with no peer, registered or not,
    [signalPeerConnections] makes one call of [attemptSync], which visits
    no peer and reports no change; it starts no goroutine, changes
    nothing, and its keyframe broadcast writes no RTCP packet. *)
Theorem signalPeerConnections_empty_room room w :
  peersOf room w = [] →
  signalPeerConnections room w
  = (tt, w, [ELock; EAttemptSync false; EUnlock; EDispatchKeyFrame room; ELock; EUnlock]).
Proof.
  intros Hempty.
  assert (attemptSync room w = (false, w, [])) as Hpass.
  { unfold attemptSync. by rewrite bind_gets, Hempty. }
  assert (syncLoop room maxSyncAttempts w = (tt, w, [EAttemptSync false])) as Hloop.
  { unfold maxSyncAttempts. simpl. by rewrite (bind_run _ _ _ _ _ _ Hpass). }
  rewrite signalPeerConnections_run, Hloop, dispatchKeyFrame_run. simpl.
  unfold keyframes. by rewrite Hempty.
Qed.

End Claims.

Section Ticker.
Context `{Externals}.

(** C3.  The ticker that [Handler] starts once the upgrade succeeded is
    never stopped.  Whatever frames arrive and however the session ends,
    the goroutine is still there when [Handler] is done, its next turn
    dispatches a keyframe for the room, and it is there after that turn
    too. *)
Theorem ticker_outlives_session r inbound w :
  nextOutcome w = Ok →
  let res := Handler r inbound w in
  let roomUUID := default "" (vars r !! "uuid") in
  Ticker 3 roomUUID ∈ goroutines res.1.2
  ∧ ∃ t w', turn res.1.2 t w'
            ∧ EDispatchKeyFrame roomUUID ∈ t
            ∧ Ticker 3 roomUUID ∈ goroutines w'.
Proof.
  intros Hok res roomUUID. subst res roomUUID.
  pose proof (Handler_keeps_ticker r inbound w Hok) as Hin.
  split; [done|]. eexists _, _. split; [by eapply turn_tick|].
  rewrite dispatchKeyFrame_run. simpl. split; [by left|done].
Qed.

End Ticker.

(** * The theorems at work *)

Lemma exampleRangeLaw : @RangeLaw exampleExternals.
Proof. by intros m. Qed.

Ltac by_computation :=
  match goal with |- ?P => apply (bool_decide_unpack P); vm_compute; exact I end.



#[local] Existing Instance exampleExternals.

Lemma attemptSync_again_witness :
  let w1 := (attemptSync "room" joinedWorld).1.2 in
  let again := attemptSync "room" w1 in
  Forall (λ e, isOfferOp e) again.2
  ∧ peerConnections again.1.2 = peerConnections w1
  ∧ (∀ h, senders (deref h again.1.2) = senders (deref h w1))
  ∧ (calm w1 → again.1.1 = false ∧ offersSent again.2 = websocket <$> peersOf "room" w1).
Proof.
  apply (@attemptSync_again exampleExternals exampleRangeLaw "room" joinedWorld _
           (attemptSync "room" joinedWorld).2).
  - change (tracksOf "room" joinedWorld) with ({[ "video" := localVideo ]} : gmap _ _).
    by intros k t [<- <-]%lookup_singleton_Some.
  - by vm_compute.
Defined.

Lemma attemptSync_again_offers :
  let first := attemptSync "room" joinedWorld in
  let again := attemptSync "room" first.1.2 in
  let offer := {| sdType := SDPTypeOffer; sdSDP := "v=0" |} in
  let frame := {| Event := "offer"; Data := "v=0" |} in
  first.1.1 = false
  ∧ again.1.1 = false
  ∧ again.2 = [ECreateOffer 1 Ok; ESetLocalDescription 1 offer Ok; EMarshal offer Ok;
               EWriteJSON 11 frame Ok;
               ECreateOffer 2 Ok; ESetLocalDescription 2 offer Ok; EMarshal offer Ok;
               EWriteJSON 12 frame Ok].
Proof. by vm_compute. Qed.

Lemma ticker_outlives_session_witness :
  let res := Handler joinRequest [ReadError] emptyWorld in
  res.1.1 = Finished
  ∧ Ticker 3 "room" ∈ goroutines res.1.2
  ∧ ∃ t w', turn res.1.2 t w'
            ∧ EDispatchKeyFrame "room" ∈ t
            ∧ Ticker 3 "room" ∈ goroutines w'.
Proof.
  split; [by vm_compute|].
  by apply (ticker_outlives_session joinRequest [ReadError] emptyWorld).
Defined.

Lemma signalPeerConnections_exhausted :
  let res := signalPeerConnections "room" contendedWorld in
  res.2 = [ELock]
          ++ mjoin (replicate 25 [EAddTrack 1 localVideo Err; EAttemptSync true])
          ++ [EGo (Signal 3 "room"); EUnlock; EDispatchKeyFrame "room";
              ELock; EWriteRTCP 2 7; EUnlock]
  ∧ goroutines res.1.2 = [Signal 3 "room"].
Proof. by vm_compute. Qed.

Lemma readStep_frame_witness :
  let blank := {| Event := ""; Data := "" |} in
  let res := readStep alice blank (JSONObject (Some "candidate") None) joinedWorld in
  (∃ exit, res.1.1 = inl exit).
Proof.
  apply (readStep_frame alice {| Event := ""; Data := "" |}
           (JSONObject (Some "candidate") None) joinedWorld); [done..|].
  right. exists (Some "candidate"), None. split; [done|]. left. split; [done|]. by left.
Defined.

Lemma readLoop_unknown_event :
  let blank := {| Event := ""; Data := "" |} in
  let unknown := JSONObject (Some "offer") (Some "sdp") in
  readStep alice blank unknown joinedWorld
  = (inr {| Event := "offer"; Data := "sdp" |}, joinedWorld, [])
  ∧ (readLoop alice blank [unknown; JSONObject (Some "candidate") (Some "c")] joinedWorld).2
    = [EAddICECandidate 1 {| Candidate := "c"; SDPMid := None; SDPMLineIndex := None;
                             UsernameFragment := None |} Ok]
  ∧ (readLoop alice blank [unknown] joinedWorld).1.1 = None.
Proof. by vm_compute. Qed.

Lemma attemptSync_prunes_first_closed_witness :
  let pass := attemptSync "room" bobClosedWorld in
  pass.1.1 = true ∧ peersOf "room" pass.1.2 = [alice].
Proof.
  pose proof (attemptSync_prunes_first_closed "room" bobClosedWorld [alice] bob []) as Hpass.
  destruct Hpass as (Htrue & _ & _ & Hgone & _).
  - done.
  - intros q ->%list_elem_of_singleton. by vm_compute.
  - done.
  - split; [done|]. apply Hgone. vm_compute. repeat constructor; discriminate.
Defined.

Lemma attemptSync_keeps_closed :
  let w := set_oracle [Err] bobClosedWorld in
  let pass := attemptSync "room" w in
  peersOf "room" w = [alice; bob]
  ∧ connectionState (deref 2 w) = PeerConnectionStateClosed
  ∧ pass.1.1 = true
  ∧ pass.2 = [ECreateOffer 1 Err]
  ∧ peersOf "room" pass.1.2 = [alice; bob].
Proof. by vm_compute. Qed.

Lemma Handler_without_room_id_witness :
  let res := handlerSetup bareRequest emptyWorld in
  Ticker 3 "" ∈ goroutines res.1.2
  ∧ {| peerConnection := fresh (dom (heap emptyWorld)); websocket := 10 |} ∈ peersOf "" res.1.2.
Proof.
  pose proof (Handler_without_room_id bareRequest emptyWorld) as Hres.
  destruct Hres as (_ & _ & _ & Hticker & Hpeer & _).
  - done.
  - by constructor.
  - by split.
Defined.

Lemma signalPeerConnections_empty_room_witness :
  signalPeerConnections "nowhere" emptyWorld
  = (tt, emptyWorld,
     [ELock; EAttemptSync false; EUnlock; EDispatchKeyFrame "nowhere"; ELock; EUnlock]).
Proof. by apply (signalPeerConnections_empty_room "nowhere" emptyWorld). Defined.

(** * Further properties of the program *)

Global Instance consumes_preorder : PreOrder consumes.
Proof.
  split.
  - intros w. unfold consumes. reflexivity.
  - intros w1 w2 w3 H1 H2. unfold consumes in *. by etrans.
Qed.

Lemma consumes_calm w w' : consumes w w' → calm w → calm w'.
Proof.
  unfold consumes, calm. intros [k ->] Hc. by apply Forall_app in Hc as [_ ?].
Qed.

Lemma outcome_consumes : preserves consumes outcome.
Proof.
  intros w. unfold consumes. simpl. destruct (oracle w) as [|o os]; simpl; [done|].
  by apply suffix_cons_r.
Qed.

Lemma update_consumes h F : preserves consumes (update h F).
Proof. intros w. unfold consumes. simpl. reflexivity. Qed.

Lemma modify_consumes f : (∀ w, oracle (f w) = oracle w) → preserves consumes (modify f).
Proof. intros Hf w. unfold consumes. simpl. by rewrite Hf. Qed.

Lemma go_consumes g : preserves consumes (go g).
Proof. intros w. unfold consumes. simpl. reflexivity. Qed.

#[export] Hint Resolve outcome_consumes update_consumes go_consumes : frames.

Lemma peersOf_same room w w' :
  peerConnections w' = peerConnections w → peersOf room w' = peersOf room w.
Proof. intros Hpc. unfold peersOf. by rewrite Hpc. Qed.

Section CalmPass.
Context `{Externals}.

Lemma RemoveTrack_consumes h k : preserves consumes (RemoveTrack h k).
Proof. unfold RemoveTrack. frames. Qed.

Lemma AddTrack_consumes h t : preserves consumes (AddTrack h t).
Proof. unfold AddTrack. frames. Qed.

Lemma sendOffer_consumes p : preserves consumes (sendOffer p).
Proof. unfold sendOffer, CreateOffer, SetLocalDescription, Marshal, WriteJSON. frames. Qed.

Lemma sendersLoop_consumes room p l E : preserves consumes (sendersLoop room p l E).
Proof.
  revert E. induction l as [|k l IH]; intros E; simpl; frames.
  all: first [apply IH | apply RemoveTrack_consumes].
Qed.

Lemma tracksLoop_consumes p l E : preserves consumes (tracksLoop p l E).
Proof.
  induction l as [|[k t] l IH]; simpl; frames.
  all: first [apply IH | apply AddTrack_consumes].
Qed.

Lemma syncPeer_consumes room p : preserves consumes (syncPeer room p).
Proof.
  unfold syncPeer. frames.
  all: first [apply sendersLoop_consumes | apply tracksLoop_consumes | apply sendOffer_consumes].
Qed.

Lemma peersLoop_consumes room snapshot i : preserves consumes (peersLoop room i snapshot).
Proof.
  revert i. induction snapshot as [|p rest IH]; intros i; simpl; frames.
  - by apply modify_consumes.
  - apply syncPeer_consumes.
Qed.

Lemma attemptSync_consumes room : preserves consumes (attemptSync room).
Proof. unfold attemptSync. frames. apply peersLoop_consumes. Qed.

Lemma syncLoop_consumes room n : preserves consumes (syncLoop room n).
Proof.
  induction n as [|n IH]; simpl; [apply go_consumes|]. frames.
  apply attemptSync_consumes.
Qed.

Lemma signalPeerConnections_consumes room : preserves consumes (signalPeerConnections room).
Proof.
  unfold signalPeerConnections. frames;
    [apply syncLoop_consumes | apply dispatchKeyFrame_preserves; apply _].
Qed.

(** With no failure to come, the loops of the pass run to their end. *)
Lemma sendersLoop_calm room p l : ∀ E w,
  calm w → ∃ E', (sendersLoop room p l E w).1.1 = Some E'.
Proof.
  induction l as [|k l IH]; intros E w Hc; simpl; [by eexists|].
  rewrite bind_gets. destruct (mjoin _) as [track|]; [|by apply IH].
  rewrite bind_gets. destruct (_ !! _); [by apply IH|].
  destruct (RemoveTrack (peerConnection p) k w) as [[o w1] t1] eqn:Hrun.
  rewrite (bind_run _ _ _ _ _ _ Hrun). simpl.
  pose proof (preserves_run _ _ _ _ _ _ (RemoveTrack_consumes _ _) Hrun) as Hcons.
  rewrite RemoveTrack_run, (calm_next _ Hc) in Hrun. injection Hrun as <- _ _.
  destruct (IH ({[tlID track]} ∪ E) w1) as [E' HE']; [by eapply consumes_calm|].
  exists E'. destruct (sendersLoop _ _ _ _ w1) as [[??]?]. done.
Qed.

Lemma tracksLoop_calm p l E : ∀ w, calm w → (tracksLoop p l E w).1.1 = Ok.
Proof.
  induction l as [|[k t] l IH]; intros w Hc; simpl; [done|].
  case_decide; [by apply IH|].
  destruct (AddTrack (peerConnection p) t w) as [[o w1] t1] eqn:Hrun.
  rewrite (bind_run _ _ _ _ _ _ Hrun). simpl.
  pose proof (preserves_run _ _ _ _ _ _ (AddTrack_consumes _ _) Hrun) as Hcons.
  rewrite AddTrack_run, (calm_next _ Hc) in Hrun. injection Hrun as <- _ _.
  specialize (IH w1 (consumes_calm _ _ Hcons Hc)).
  destruct (tracksLoop _ _ _ w1) as [[??]?]. done.
Qed.

Lemma syncPeer_calm room p w : calm w → (syncPeer room p w).1.1 = false.
Proof.
  intros Hc. unfold syncPeer. rewrite bind_gets.
  set (l := seq 0 (length (senders (deref (peerConnection p) w)))).
  destruct (sendersLoop_calm room p l ∅ w Hc) as [E' HE'].
  destruct (sendersLoop room p l ∅ w) as [[E1 w1] t1] eqn:Hs.
  rewrite (bind_run _ _ _ _ _ _ Hs).
  pose proof (preserves_run _ _ _ _ _ _ (sendersLoop_consumes _ _ _ _) Hs) as Hc1.
  apply consumes_calm in Hc1; [|done].
  simpl in HE'. subst E1.
  rewrite bind_gets, bind_gets.
  set (entries := rangeMap (tracksOf room w1)).
  set (E := receiversLoop (receivers (deref (peerConnection p) w1)) E').
  pose proof (tracksLoop_calm p entries E w1 Hc1) as Hok.
  destruct (tracksLoop p entries E w1) as [[o w2] t2] eqn:Ht.
  rewrite (bind_run _ _ _ _ _ _ Ht).
  pose proof (preserves_run _ _ _ _ _ _ (tracksLoop_consumes _ _ _) Ht) as Hc2.
  apply consumes_calm in Hc2; [|done].
  simpl in Hok. subst o.
  destruct (sendOffer_calm p w2 Hc2) as [Hf _].
  destruct (sendOffer p w2) as [[??]?]. simpl in *. done.
Qed.

Lemma closedIn_observed w w' p : keeps observed w w' → closedIn w' p = closedIn w p.
Proof.
  intros Ho. unfold closedIn. specialize (Ho (peerConnection p)).
  injection Ho as _ -> _. done.
Qed.

Lemma closedIn_live w p : closedIn w p = false ↔ live p w.
Proof.
  unfold closedIn, live. destruct (connectionState _); simpl; split; done.
Qed.

Lemma peersLoop_calm room snapshot : ∀ i w,
  calm w →
  Forall (λ p, closedIn w p = false) snapshot →
  (peersLoop room i snapshot w).1.1 = false
  ∧ peerConnections (peersLoop room i snapshot w).1.2 = peerConnections w.
Proof.
  induction snapshot as [|p rest IH]; intros i w Hc Hlive; simpl; [done|].
  apply Forall_cons in Hlive as [Hp Hrest].
  rewrite bind_gets. unfold closedIn in Hp. rewrite Hp.
  destruct (syncPeer room p w) as [[r w1] t1] eqn:Hrun.
  rewrite (bind_run _ _ _ _ _ _ Hrun). simpl.
  pose proof (syncPeer_calm room p w Hc) as Hr. rewrite Hrun in Hr. simpl in Hr. subst r.
  pose proof (preserves_run _ _ _ _ _ _ (syncPeer_consumes _ _) Hrun) as Hc1.
  pose proof (preserves_run _ _ _ _ _ _ (syncPeer_observed _ _) Hrun) as Ho1.
  pose proof (preserves_run _ _ _ _ _ _
                (syncPeer_same peerConnections _ _) Hrun) as Hp1.
  destruct (IH (S i) w1) as [Hf Hpc].
  - by eapply consumes_calm.
  - eapply Forall_impl; [exact Hrest|]. intros q Hq. by rewrite (closedIn_observed w w1).
  - destruct (peersLoop room (S i) rest w1) as [[??]?]. simpl in *.
    split; [done|]. by rewrite Hpc.
Qed.

Lemma dropClosed_live w peers n :
  Forall (λ p, closedIn w p = false) peers → dropClosed w peers n = peers.
Proof.
  revert n. induction peers as [|p rest IH]; intros n Hl; simpl; [done|].
  apply Forall_cons in Hl as [Hp Hrest]. destruct n; [done|].
  by rewrite Hp, IH.
Qed.

Lemma dropClosed_first w before p after n :
  Forall (λ p, closedIn w p = false) before →
  closedIn w p = true →
  dropClosed w (before ++ p :: after) (S n) = before ++ dropClosed w after n.
Proof.
  intros Hl Hp. induction before as [|q before IH]; simpl.
  - by rewrite Hp.
  - apply Forall_cons in Hl as [Hq Hrest]. by rewrite Hq, IH.
Qed.

Lemma dropClosed_0 w peers : dropClosed w peers 0 = peers.
Proof. by destruct peers. Qed.

Lemma closedCount_cons w p peers :
  closedCount w (p :: peers) = (if closedIn w p then 1 else 0) + closedCount w peers.
Proof.
  unfold closedCount. rewrite filter_cons.
  destruct (decide (closedIn w p)) as [Hd|Hd]; destruct (closedIn w p); simpl in *; done.
Qed.

Lemma closedCount_app w l1 l2 :
  closedCount w (l1 ++ l2) = closedCount w l1 + closedCount w l2.
Proof. unfold closedCount. by rewrite filter_app, length_app. Qed.

Lemma closedCount_live w peers :
  Forall (λ p, closedIn w p = false) peers ↔ closedCount w peers = 0.
Proof.
  induction peers as [|p rest IH]; [done|].
  rewrite Forall_cons, closedCount_cons, IH. destruct (closedIn w p); simpl; [|tauto].
  split; [by intros [? _]|lia].
Qed.

Lemma closedCount_first w before p after :
  Forall (λ p, closedIn w p = false) before →
  closedIn w p = true →
  closedCount w (before ++ p :: after) = S (closedCount w (before ++ after)).
Proof.
  intros Hl Hp. rewrite !closedCount_app, closedCount_cons, Hp. lia.
Qed.

Lemma closedCount_ext w w' peers :
  keeps observed w w' → closedCount w' peers = closedCount w peers.
Proof.
  intros Ho. unfold closedCount. f_equal. apply list_filter_iff.
  intros p. by rewrite (closedIn_observed w w').
Qed.

Lemma dropClosed_ext w w' peers n :
  keeps observed w w' → dropClosed w' peers n = dropClosed w peers n.
Proof.
  intros Ho. revert n. induction peers as [|p rest IH]; intros n; simpl; [done|].
  destruct n; [done|]. by rewrite (closedIn_observed w w'), !IH.
Qed.

(** A list of pairs either has no closed connection or splits at the
    first one. *)
Lemma first_closed w peers :
  Forall (λ p, closedIn w p = false) peers
  ∨ ∃ before p after,
      peers = before ++ p :: after
      ∧ Forall (λ p, closedIn w p = false) before
      ∧ closedIn w p = true.
Proof.
  induction peers as [|q rest IH]; [by left|].
  destruct (closedIn w q) eqn:Hq.
  - right. by exists [], q, rest.
  - destruct IH as [Hall|(before & p & after & -> & Hb & Hp)].
    + left. by constructor.
    + right. exists (q :: before), p, after. split_and!; [done| |done]. by constructor.
Qed.

(** One pass with no failure to come: it removes the first closed
    connection of the room, if there is one, and says so. *)
Lemma attemptSync_calm room w :
  calm w →
  let r := attemptSync room w in
  r.1.1 = bool_decide (closedCount w (peersOf room w) ≠ 0)
  ∧ peersOf room r.1.2 = dropClosed w (peersOf room w) 1
  ∧ (∀ room', room' ≠ room → peersOf room' r.1.2 = peersOf room' w)
  ∧ calm r.1.2
  ∧ keeps observed w r.1.2.
Proof.
  intros Hc r.
  assert (calm r.1.2 ∧ keeps observed w r.1.2) as [Hc' Ho'].
  { split.
    - eapply consumes_calm; [apply attemptSync_consumes|done].
    - apply attemptSync_observed. }
  split_and!; [| | |done..]; subst r; unfold attemptSync; rewrite bind_gets.
  all: destruct (first_closed w (peersOf room w))
         as [Hall|(before & p & after & Hsplit & Hb & Hp)].
  - destruct (peersLoop_calm room _ 0 w Hc Hall) as [-> _].
    apply closedCount_live in Hall. rewrite Hall. by rewrite bool_decide_eq_false_2 by auto.
  - destruct (peersLoop room 0 before w) as [[r0 w0] t0] eqn:Hrun.
    rewrite Hsplit.
    rewrite (peersLoop_closed room before [] 0 w p after r0 w0 t0); try done.
    + simpl. rewrite closedCount_first by done. by rewrite bool_decide_eq_true_2 by lia.
    + intros q Hq. rewrite Forall_forall in Hb. by apply closedIn_live, Hb.
    + unfold closedIn in Hp. by destruct (connectionState _).
  - destruct (peersLoop_calm room _ 0 w Hc Hall) as [_ Hpc].
    rewrite dropClosed_live by done. by apply peersOf_same.
  - destruct (peersLoop room 0 before w) as [[r0 w0] t0] eqn:Hrun.
    rewrite Hsplit.
    rewrite (peersLoop_closed room before [] 0 w p after r0 w0 t0); try done.
    + destruct (peersLoop_calm room before 0 w Hc Hb) as [Hr0 Hpc].
      rewrite Hrun in Hr0, Hpc. simpl in *. subst r0.
      rewrite peersOf_insert, decide_True by done.
      by rewrite dropClosed_first, dropClosed_0.
    + intros q Hq. rewrite Forall_forall in Hb. by apply closedIn_live, Hb.
    + unfold closedIn in Hp. by destruct (connectionState _).
  - destruct (peersLoop_calm room _ 0 w Hc Hall) as [_ Hpc].
    intros room' _. by apply peersOf_same.
  - destruct (peersLoop room 0 before w) as [[r0 w0] t0] eqn:Hrun.
    rewrite Hsplit.
    rewrite (peersLoop_closed room before [] 0 w p after r0 w0 t0); try done.
    + destruct (peersLoop_calm room before 0 w Hc Hb) as [Hr0 Hpc].
      rewrite Hrun in Hr0, Hpc. simpl in *. subst r0.
      intros room' Hne. rewrite peersOf_insert, decide_False by done.
      by apply peersOf_same.
    + intros q Hq. rewrite Forall_forall in Hb. by apply closedIn_live, Hb.
    + unfold closedIn in Hp. by destruct (connectionState _).
Qed.

End CalmPass.

Lemma dropClosed_step w peers n :
  dropClosed w (dropClosed w peers 1) n = dropClosed w peers (S n).
Proof.
  revert n. induction peers as [|p rest IH]; intros n; simpl; [done|].
  destruct (closedIn w p) eqn:Hp.
  - by rewrite dropClosed_0.
  - simpl. destruct n; [done|]. by rewrite Hp, IH.
Qed.

Lemma closedCount_dropClosed w peers n :
  closedCount w (dropClosed w peers n) = closedCount w peers - n.
Proof.
  revert n. induction peers as [|p rest IH]; intros n; simpl; [done|].
  destruct n; [lia|]. destruct (closedIn w p) eqn:Hp.
  - rewrite IH, closedCount_cons, Hp. lia.
  - rewrite !closedCount_cons, Hp, IH. lia.
Qed.

Lemma dropClosed_all w peers n :
  closedCount w peers ≤ n →
  dropClosed w peers n = filter (λ p, ¬ closedIn w p) peers.
Proof.
  revert n. induction peers as [|p rest IH]; intros n; simpl; [done|].
  rewrite closedCount_cons, filter_cons.
  destruct (decide (¬ closedIn w p)) as [Hd|Hd]; destruct (closedIn w p) eqn:Hp; simpl in *.
  - exfalso. by apply Hd.
  - intros Hn. destruct n.
    + f_equal. rewrite <- (IH 0) by done. by rewrite dropClosed_0.
    + f_equal. by apply IH.
  - intros Hn. destruct n; [lia|]. apply IH. lia.
  - exfalso. apply Hd. by intros ?.
Qed.

Section CalmLoop.
Context `{Externals}.

Lemma attemptSync_attemptResults room w : attemptResults (attemptSync room w).2 = [].
Proof.
  apply passOp_attemptResults, attemptSync_emits.
Qed.

Lemma syncLoop_calm room n : ∀ w,
  calm w →
  let r := syncLoop room n w in
  let c := closedCount w (peersOf room w) in
  peersOf room r.1.2 = dropClosed w (peersOf room w) n
  ∧ (∀ room', room' ≠ room → peersOf room' r.1.2 = peersOf room' w)
  ∧ calm r.1.2
  ∧ keeps observed w r.1.2
  ∧ attemptResults r.2 = (if decide (c < n) then repeat true c ++ [false] else repeat true n)
  ∧ goroutines r.1.2 = (if decide (c < n) then goroutines w
                        else goroutines w ++ [Signal 3 room]).
Proof.
  induction n as [|n IH]; intros w Hc; simpl.
  - rewrite dropClosed_0. by split_and!.
  - pose proof (attemptSync_calm room w Hc) as (Hb & Hpeers & Hother & Hc1 & Ho1).
    pose proof (attemptSync_attemptResults room w) as Hres.
    pose proof (attemptSync_same goroutines room (λ _ _, eq_refl) w) as Hg1.
    destruct (attemptSync room w) as [[b w1] t1] eqn:Hrun.
    rewrite (bind_run _ _ _ _ _ _ Hrun), bind_emit. simpl in *.
    set (c := closedCount w (peersOf room w)) in *.
    destruct b.
    + symmetry in Hb. apply bool_decide_eq_true in Hb.
      destruct (IH w1 Hc1) as (Hp2 & Hother2 & Hc2 & Ho2 & Hres2 & Hg2).
      assert (closedCount w1 (peersOf room w1) = c - 1) as Hcount.
      { by rewrite Hpeers, (closedCount_ext w w1), closedCount_dropClosed. }
      rewrite Hcount in Hres2, Hg2.
      destruct (syncLoop room n w1) as [[[] w2] t2]. simpl in *.
      split_and!.
      * by rewrite Hp2, Hpeers, (dropClosed_ext w w1), dropClosed_step.
      * intros room' Hne. by rewrite Hother2, Hother.
      * done.
      * by etrans.
      * rewrite attemptResults_app, Hres, attemptResults_cons. simpl. rewrite Hres2.
        destruct (decide (c - 1 < n)), (decide (c < S n)); try lia; [|done].
        replace c with (S (c - 1)) at 2 by lia. done.
      * rewrite Hg2. unfold same in Hg1. rewrite Hg1.
        destruct (decide (c - 1 < n)), (decide (c < S n)); try lia; done.
    + symmetry in Hb. apply bool_decide_eq_false in Hb. assert (c = 0) as Hc0 by lia.
      rewrite decide_True by lia. simpl. split_and!; try done.
      * rewrite Hpeers. apply closedCount_live in Hc0. by rewrite !dropClosed_live.
      * rewrite attemptResults_app, Hres, attemptResults_cons. simpl. by rewrite Hc0.
      * rewrite decide_True by lia. exact Hg1.
Qed.

End CalmLoop.

Lemma tracksOf_registered t room room' w :
  tracksOf room' (registered t room w)
  = if decide (room = room') then <[tlID t := t]> (tracksOf room w) else tracksOf room' w.
Proof.
  unfold tracksOf at 1. unfold registered. simpl. rewrite lookup_insert.
  by case_decide.
Qed.

Lemma tracksOf_unregistered id room room' w :
  tracksOf room' (unregistered id room w)
  = if decide (room = room') then delete id (tracksOf room w) else tracksOf room' w.
Proof.
  unfold tracksOf, unregistered. simpl. case_decide as Hr.
  - subst. rewrite lookup_alter_eq. by destruct (trackLocals w !! room'); simpl; [|rewrite delete_empty].
  - by rewrite lookup_alter_ne.
Qed.

Section RunEquations.
Context `{Externals}.

Lemma addTrack_run t room w :
  addTrack t room w =
    match nextOutcome w with
    | Ok =>
        let w1 := registered (localOf t) room w in
        (Some (localOf t), (signalPeerConnections room w1).1.2,
         [ELock; ENewTrackLocal (trID t) Ok; EUnlock] ++ (signalPeerConnections room w1).2)
    | Err =>
        let w1 := set_oracle (tail (oracle w)) w in
        (None, (signalPeerConnections room w1).1.2,
         [ELock; ENewTrackLocal (trID t) Err; EUnlock]
           ++ (signalPeerConnections room w1).2 ++ [EPanic])
    end.
Proof.
  unfold addTrack. rewrite bind_emit.
  rewrite (bind_run _ _ _ _ _ _ (NewTrackLocalStaticRTP_run _ _ _ w)).
  destruct (nextOutcome w); simpl.
  - rewrite bind_modify, bind_emit.
    match goal with |- context [signalPeerConnections room ?W] =>
      change W with (registered (localOf t) room w) end.
    destruct (signalPeerConnections room _) as [[[] w2] t2] eqn:Hs.
    rewrite (bind_run _ _ _ _ _ _ Hs). simpl. by rewrite app_nil_r.
  - rewrite bind_emit.
    destruct (signalPeerConnections room _) as [[[] w2] t2] eqn:Hs.
    rewrite (bind_run _ _ _ _ _ _ Hs). simpl. done.
Qed.

Lemma removeTrack_run t room w :
  removeTrack t room w =
    (tt, (signalPeerConnections room (unregistered (tlID t) room w)).1.2,
     [ELock; EUnlock] ++ (signalPeerConnections room (unregistered (tlID t) room w)).2).
Proof.
  unfold removeTrack. rewrite bind_emit, bind_modify, bind_emit. simpl.
  fold (unregistered (tlID t) room w).
  by destruct (signalPeerConnections room _) as [[[] w2] t2].
Qed.

(** The retry loop ends with an attempt that reported no change, or it
    starts the goroutine that signals again. *)
Lemma syncLoop_last room n : ∀ w,
  let r := syncLoop room n w in
  (∃ w0 t0 pre,
     attemptSync room w0 = (false, r.1.2, t0)
     ∧ trackLocals w0 = trackLocals w
     ∧ r.2 = pre ++ t0 ++ [EAttemptSync false])
  ∨ EGo (Signal 3 room) ∈ r.2.
Proof.
  induction n as [|n IH]; intros w; simpl.
  - right. by left.
  - destruct (attemptSync room w) as [[b w1] t1] eqn:Hrun.
    rewrite (bind_run _ _ _ _ _ _ Hrun), bind_emit. simpl.
    pose proof (preserves_run _ _ _ _ _ _
                  (attemptSync_same trackLocals room (λ _ _, eq_refl)) Hrun) as Htl.
    destruct b; simpl.
    + destruct (IH w1) as [(w0 & t0 & pre & Hlast & Htl0 & Htrace)|Hgo].
      * left. exists w0, t0, (t1 ++ EAttemptSync true :: pre).
        split_and!; [done|by rewrite Htl0|].
        rewrite Htrace. by rewrite <- !app_assoc.
      * right. apply elem_of_app. right. by right.
    + left. by exists w, t1, [].
Qed.

End RunEquations.

Lemma attemptResults_keyframes room w : attemptResults (keyframes room w) = [].
Proof.
  assert (∀ t, (∀ e, e ∈ t → ∃ pc ssrc, e = EWriteRTCP pc ssrc) → attemptResults t = [])
    as Hall.
  { induction t as [|e t IH]; intros Ht; [done|].
    destruct (Ht e) as (pc & ssrc & ->); [by left|]. simpl. apply IH.
    intros e' He'. apply Ht. by right. }
  apply Hall. intros e. apply keyframes_writes.
Qed.

Section SignalTheorems.
Context `{Externals}.

Lemma signalPeerConnections_attemptResults room w :
  attemptResults (signalPeerConnections room w).2
  = attemptResults (syncLoop room maxSyncAttempts w).2.
Proof.
  rewrite signalPeerConnections_run, dispatchKeyFrame_run. simpl.
  rewrite !attemptResults_app. simpl. rewrite attemptResults_app, attemptResults_keyframes.
  simpl. by rewrite app_nil_r.
Qed.

(** A pass that reports no change has sent an offer to every pair it
    visited. *)
Lemma peersLoop_offers room snapshot : ∀ i w w' t,
  peersLoop room i snapshot w = (false, w', t) →
  ∀ p, p ∈ snapshot →
    ∃ offer, EWriteJSON (websocket p)
               {| Event := "offer"; Data := marshalSessionDescription offer |} Ok ∈ t.
Proof.
  induction snapshot as [|q rest IH]; intros i w w' t Hrun p Hp;
    [by apply elem_of_nil in Hp|].
  simpl in Hrun. rewrite bind_gets in Hrun. destruct (isClosed _).
  { rewrite bind_gets, bind_modify in Hrun. by unfold ret in Hrun. }
  apply bind_inv in Hrun as (r & w1 & t1 & t2 & Hsync & Hrun & ->).
  destruct r; [by unfold ret in Hrun|].
  apply elem_of_cons in Hp as [->|Hp].
  - destruct (syncPeer_trace _ _ _ _ _ _ Hsync)
      as [(? & _)|(ops & offers & -> & _ & _ & Hot)]; [done|].
    inversion Hot; subst. exists offer.
    apply elem_of_app. left. apply elem_of_app. right. by do 3 right; left.
  - destruct (IH _ _ _ _ Hrun p Hp) as [offer Hin]. exists offer.
    apply elem_of_app. by right.
Qed.


(** X2.  With no library call failing, [signalPeerConnections] removes
    the closed connections of the room from its list, one for each
    attempt, the first 25 of them: with fewer than 25 it leaves exactly
    the pairs that are not closed, in their order, after one attempt more
    than there were closed ones; with 25 or more the others stay
    registered and the goroutine that signals again is started.  No other
    room's list changes. *)
Theorem signalPeerConnections_prunes room w :
  calm w →
  let r := signalPeerConnections room w in
  let c := closedCount w (peersOf room w) in
  peersOf room r.1.2 = dropClosed w (peersOf room w) 25
  ∧ (∀ room', room' ≠ room → peersOf room' r.1.2 = peersOf room' w)
  ∧ (c < 25 →
       peersOf room r.1.2 = filter (λ p, ¬ closedIn w p) (peersOf room w)
       ∧ attemptResults r.2 = repeat true c ++ [false]
       ∧ goroutines r.1.2 = goroutines w)
  ∧ (25 ≤ c →
       closedCount r.1.2 (peersOf room r.1.2) = c - 25
       ∧ attemptResults r.2 = repeat true 25
       ∧ goroutines r.1.2 = goroutines w ++ [Signal 3 room]).
Proof.
  intros Hc r c. subst r c.
  pose proof (signalPeerConnections_attemptResults room w) as Hres.
  rewrite signalPeerConnections_run in *.
  destruct (syncLoop_calm room maxSyncAttempts w Hc) as (Hp & Hother & _ & Ho & Hr & Hg).
  set (loop := syncLoop room maxSyncAttempts w) in *. clearbody loop.
  unfold maxSyncAttempts in *. simpl in *.
  split_and!; [done|done| |].
  - intros Hlt. repeat case_decide; try lia.
    split_and!; [|by rewrite Hres|done].
    rewrite Hp. apply dropClosed_all. lia.
  - intros Hge. repeat case_decide; try lia.
    split_and!; [|by rewrite Hres|done].
    by rewrite Hp, (closedCount_ext w), closedCount_dropClosed.
Qed.

(** With no failure to come and fewer than 25 closed connections,
    [signalPeerConnections] converges. *)
Lemma signalPeerConnections_calm `{!RangeLaw} room w :
  calm w →
  keyedByID (tracksOf room w) →
  closedCount w (peersOf room w) < 25 →
  let r := signalPeerConnections room w in
  trackLocals r.1.2 = trackLocals w
  ∧ keeps observed w r.1.2
  ∧ peersOf room r.1.2 = filter (λ p, ¬ closedIn w p) (peersOf room w)
  ∧ ∀ p, p ∈ peersOf room r.1.2 →
      synced (tracksOf room w) (deref (peerConnection p) r.1.2)
      ∧ ∃ offer, EWriteJSON (websocket p)
                   {| Event := "offer"; Data := marshalSessionDescription offer |} Ok
                 ∈ r.2.
Proof.
  intros Hc Hkey Hlt r. subst r.
  split; [apply signalPeerConnections_tracks|].
  split; [apply signalPeerConnections_observed|].
  rewrite signalPeerConnections_run.
  destruct (syncLoop_calm room maxSyncAttempts w Hc) as (Hp & _ & _ & _ & _ & Hg).
  unfold maxSyncAttempts in *. cbn [fst snd]. case_decide; [|lia].
  split; [rewrite Hp; apply dropClosed_all; lia|].
  destruct (syncLoop_last room 25 w) as [(w0 & t0 & pre & Hlast & Htl & Htrace)|Hin].
  - assert (tracksOf room w0 = tracksOf room w) as HT by (unfold tracksOf; by rewrite Htl).
    unfold attemptSync in Hlast. rewrite bind_gets in Hlast.
    pose proof (peersLoop_offers _ _ _ _ _ _ Hlast) as Hoffers.
    apply peersLoop_false in Hlast as (Hpcs & Hall & _); [|by rewrite HT].
    intros p Hp'. rewrite (peersOf_same _ _ _ Hpcs) in Hp'.
    destruct (Hall p Hp') as [Hs _]. rewrite HT in Hs. split; [done|].
    destruct (Hoffers p Hp') as [offer Hin]. exists offer.
    rewrite Htrace. right. apply elem_of_app. left.
    apply elem_of_app. right. apply elem_of_app. by left.
  - exfalso. destruct (syncLoop_spec room 25 w) as [_ [(k & _ & _ & Hnogo & _)|(_ & _ & Hg')]].
    + rewrite Forall_forall in Hnogo. by apply (Hnogo _ Hin).
    + rewrite Hg in Hg'. apply (f_equal length) in Hg'. rewrite length_app in Hg'.
      simpl in Hg'. lia.
Qed.

Lemma closedCount_registry w w' peers :
  heap w' = heap w → closedCount w' peers = closedCount w peers.
Proof.
  intros Hh. apply closedCount_ext. intros h. unfold deref. by rewrite Hh.
Qed.

Lemma filter_closedIn_ext w w' (peers : list peerConnectionState) :
  heap w' = heap w →
  filter (λ p, ¬ closedIn w' p) peers = filter (λ p, ¬ closedIn w p) peers.
Proof.
  intros Hh. apply list_filter_iff. intros p. unfold closedIn, deref. by rewrite Hh.
Qed.

(** X3.  With no library call failing and fewer than 25 closed
    connections in the room, [addTrack] returns the local track, leaves it
    registered under the remote track's id, and when it returns every
    pair left in the room's list (the ones that are not closed) has a
    sender for that id unless it receives a track with that id itself. *)
Theorem addTrack_forwards `{!RangeLaw} t room w :
  calm w →
  keyedByID (tracksOf room w) →
  closedCount w (peersOf room w) < 25 →
  let r := addTrack t room w in
  r.1.1 = Some (localOf t)
  ∧ tracksOf room r.1.2 = <[trID t := localOf t]> (tracksOf room w)
  ∧ peersOf room r.1.2 = filter (λ p, ¬ closedIn w p) (peersOf room w)
  ∧ ∀ p, p ∈ peersOf room r.1.2 →
      let pc := deref (peerConnection p) r.1.2 in
      receivers pc = receivers (deref (peerConnection p) w)
      ∧ (trID t ∉ receiverIDs pc → trID t ∈ senderIDs pc).
Proof.
  intros Hc Hkey Hlt r. subst r. rewrite addTrack_run, (calm_next _ Hc). simpl.
  set (w1 := registered (localOf t) room w).
  assert (calm w1) as Hc1.
  { unfold calm, w1, registered. simpl. unfold calm in Hc.
    destruct (oracle w); [done|]. by apply Forall_cons in Hc as [_ ?]. }
  assert (tracksOf room w1 = <[trID t := localOf t]> (tracksOf room w)) as HT.
  { unfold w1. by rewrite tracksOf_registered, decide_True. }
  assert (keyedByID (tracksOf room w1)) as Hkey1.
  { rewrite HT. by apply (keyedByID_insert _ (localOf t)). }
  assert (peersOf room w1 = peersOf room w) as Hpeers by done.
  destruct (signalPeerConnections_calm room w1 Hc1 Hkey1) as (Htl & Hobs & Hp & Hsync).
  { rewrite Hpeers. by rewrite (closedCount_registry w). }
  split_and!; [done| | |].
  - unfold tracksOf at 1. rewrite Htl. exact HT.
  - rewrite Hp, Hpeers. by apply filter_closedIn_ext.
  - intros p Hin. specialize (Hsync p Hin) as [[_ Hcov] _]. split.
    + specialize (Hobs (peerConnection p)). by injection Hobs as -> _ _.
    + intros Hnot. rewrite HT in Hcov.
      assert (trID t ∈ dom (<[trID t := localOf t]> (tracksOf room w))) as Hdom
        by (rewrite dom_insert; set_solver).
      apply Hcov in Hdom. apply elem_of_union in Hdom as [?|?]; done.
Qed.


(** X5.  The [OnTrack] callback registers the track when it starts and
    deletes by id when it ends: once it has run, the room has no track
    under that id, whatever was registered there before, and the track
    maps of the other rooms are as they were. *)
Theorem onTrack_unregisters t room w :
  nextOutcome w = Ok →
  let started := trackCallbackBegin room t w in
  let ended := trackCallbackEnd room (localOf t) started.1.2 in
  started.1.1 = Some (localOf t)
  ∧ tracksOf room started.1.2 !! trID t = Some (localOf t)
  ∧ tracksOf room ended.1.2 = delete (trID t) (tracksOf room w)
  ∧ ∀ room', room' ≠ room → tracksOf room' ended.1.2 = tracksOf room' w.
Proof.
  intros Hok started ended. subst started ended.
  unfold trackCallbackBegin, trackCallbackEnd.
  rewrite addTrack_run, Hok. simpl. rewrite removeTrack_run. simpl.
  set (w1 := registered (localOf t) room w).
  set (w2 := (signalPeerConnections room w1).1.2).
  set (w3 := unregistered (trID t) room w2).
  assert (trackLocals w2 = trackLocals w1) as H2 by apply signalPeerConnections_tracks.
  assert (trackLocals (signalPeerConnections room w3).1.2 = trackLocals w3) as H3
    by apply signalPeerConnections_tracks.
  assert (∀ room', tracksOf room' w2 = tracksOf room' w1) as HT2
    by (intros room'; unfold tracksOf; by rewrite H2).
  split_and!; [done| | |].
  - rewrite HT2. unfold w1. rewrite tracksOf_registered, decide_True by done.
    by rewrite lookup_insert_eq.
  - unfold tracksOf at 1. rewrite H3. fold (tracksOf room w3).
    unfold w3. rewrite tracksOf_unregistered, decide_True by done.
    rewrite HT2. unfold w1. rewrite tracksOf_registered, decide_True by done.
    by rewrite delete_insert_eq.
  - intros room' Hne. unfold tracksOf at 1. rewrite H3. fold (tracksOf room' w3).
    unfold w3. rewrite tracksOf_unregistered, decide_False by done.
    rewrite HT2. unfold w1. by rewrite tracksOf_registered, decide_False.
Qed.

End SignalTheorems.

Global Instance shrinks_preorder room : PreOrder (shrinks room).
Proof.
  split.
  - intros w. by split.
  - intros w1 w2 w3 [Hs1 Ho1] [Hs2 Ho2]. split; [by etrans|].
    intros room' Hne. by rewrite Ho2, Ho1.
Qed.

Lemma shrinks_same room w w' :
  peerConnections w' = peerConnections w → shrinks room w w'.
Proof. intros Hpc. split; [|intros ? _]; by rewrite (peersOf_same _ _ _ Hpc). Qed.

Section Isolation.
Context `{Externals}.

Lemma syncPeer_shrinks room room' p : preserves (shrinks room') (syncPeer room p).
Proof. intros w. apply shrinks_same. apply (syncPeer_same peerConnections). Qed.

Lemma peersLoop_shrinks room snapshot : ∀ i, preserves (shrinks room) (peersLoop room i snapshot).
Proof.
  induction snapshot as [|p rest IH]; intros i w; simpl; [reflexivity|].
  rewrite bind_gets. destruct (isClosed _).
  - rewrite bind_gets, bind_modify. simpl. split.
    + rewrite peersOf_insert, decide_True by done.
      rewrite <- (take_drop i (peersOf room w)) at 3.
      apply sublist_app; [done|].
      replace (S i) with (i + 1) by lia. rewrite <- drop_drop. apply sublist_drop.
    + intros room' Hne. by rewrite peersOf_insert, decide_False.
  - destruct (syncPeer room p w) as [[r w1] t1] eqn:Hrun.
    rewrite (bind_run _ _ _ _ _ _ Hrun). simpl.
    pose proof (preserves_run _ _ _ _ _ _ (syncPeer_shrinks room room p) Hrun) as Hs.
    destruct r; simpl; [done|]. etrans; [exact Hs|apply IH].
Qed.

Lemma attemptSync_shrinks room : preserves (shrinks room) (attemptSync room).
Proof. unfold attemptSync. frames. apply peersLoop_shrinks. Qed.

Lemma go_shrinks room g : preserves (shrinks room) (go g).
Proof. intros w. by apply shrinks_same. Qed.

Lemma syncLoop_shrinks room n : preserves (shrinks room) (syncLoop room n).
Proof.
  induction n as [|n IH]; simpl; [apply go_shrinks|]. frames.
  apply attemptSync_shrinks.
Qed.

Lemma signalPeerConnections_shrinks room : preserves (shrinks room) (signalPeerConnections room).
Proof.
  unfold signalPeerConnections. frames;
    [apply syncLoop_shrinks | apply dispatchKeyFrame_preserves; apply _].
Qed.

Lemma peersLoop_within room snapshot : ∀ i w h,
  h ∉ peerConnection <$> snapshot →
  heap (peersLoop room i snapshot w).1.2 !! h = heap w !! h.
Proof.
  induction snapshot as [|p rest IH]; intros i w h Hh; simpl; [done|].
  rewrite fmap_cons, not_elem_of_cons in Hh. destruct Hh as [Hne Hh].
  rewrite bind_gets. destruct (isClosed _).
  - by rewrite bind_gets, bind_modify.
  - destruct (syncPeer room p w) as [[r w1] t1] eqn:Hrun.
    rewrite (bind_run _ _ _ _ _ _ Hrun). simpl.
    pose proof (preserves_run _ _ _ _ _ _ (syncPeer_only_at _ _) Hrun) as Hat.
    destruct r; simpl; [by apply Hat|].
    rewrite IH by done. by apply Hat.
Qed.

Lemma syncLoop_within room n : ∀ w h,
  h ∉ peerConnection <$> peersOf room w →
  heap (syncLoop room n w).1.2 !! h = heap w !! h.
Proof.
  induction n as [|n IH]; intros w h Hh; simpl; [done|].
  destruct (attemptSync room w) as [[b w1] t1] eqn:Hrun.
  rewrite (bind_run _ _ _ _ _ _ Hrun), bind_emit. simpl.
  pose proof (preserves_run _ _ _ _ _ _ (attemptSync_shrinks room) Hrun) as [Hsub _].
  assert (heap w1 !! h = heap w !! h) as Hw1.
  { unfold attemptSync in Hrun. rewrite bind_gets in Hrun.
    pose proof (peersLoop_within room (peersOf room w) 0 w h Hh) as Hin.
    by rewrite Hrun in Hin. }
  destruct b; simpl; [|done].
  rewrite IH; [done|]. intros Hin. apply Hh.
  apply list_elem_of_fmap in Hin as (q & -> & Hq). apply list_elem_of_fmap.
  exists q. split; [done|]. by eapply elem_of_sublist.
Qed.

Lemma syncLoop_writes room n : ∀ w ws m o,
  EWriteJSON ws m o ∈ (syncLoop room n w).2 →
  ws ∈ websocket <$> peersOf room w.
Proof.
  induction n as [|n IH]; intros w ws m o; simpl.
  - intros [=]%list_elem_of_singleton.
  - destruct (attemptSync room w) as [[b w1] t1] eqn:Hrun.
    rewrite (bind_run _ _ _ _ _ _ Hrun), bind_emit. simpl.
    pose proof (preserves_run _ _ _ _ _ _ (attemptSync_shrinks room) Hrun) as [Hsub _].
    intros Hin. apply elem_of_app in Hin as [Hin|Hin].
    + unfold attemptSync in Hrun. rewrite bind_gets in Hrun.
      pose proof (peersLoop_write room (peersOf room w) 0 w ws m o) as Hw.
      rewrite Hrun in Hw. destruct (Hw Hin) as (q & _ & _ & _ & Hq & -> & _).
      apply list_elem_of_fmap. by exists q.
    + apply elem_of_cons in Hin as [[=]|Hin].
      destruct b; simpl in Hin; [|by apply elem_of_nil in Hin].
      apply IH in Hin. apply list_elem_of_fmap in Hin as (q & -> & Hq).
      apply list_elem_of_fmap. exists q. split; [done|]. by eapply elem_of_sublist.
Qed.

Lemma keyframes_spec room w h ssrc :
  EWriteRTCP h ssrc ∈ keyframes room w ↔
  ∃ p track, p ∈ peersOf room w ∧ peerConnection p = h
             ∧ Some track ∈ receivers (deref h w) ∧ trSSRC track = ssrc.
Proof.
  unfold keyframes. rewrite list_elem_of_bind. split.
  - intros (p & Hin & Hp). apply list_elem_of_bind in Hin as (r & Hin & Hr).
    destruct r as [track|]; [|by apply elem_of_nil in Hin].
    apply list_elem_of_singleton in Hin as [= -> ->]. by exists p, track.
  - intros (p & track & Hp & <- & Hr & <-). exists p. split; [|done].
    apply list_elem_of_bind. exists (Some track). split; [|done]. by left.
Qed.

Lemma keyframes_length room w :
  length (keyframes room w)
  = sum_list ((λ p, length (omap id (receivers (deref (peerConnection p) w))))
                <$> peersOf room w).
Proof.
  unfold keyframes. induction (peersOf room w) as [|p peers IH]; [done|].
  rewrite bind_cons, length_app, fmap_cons, IH. cbn [sum_list]. f_equal.
  induction (receivers (deref (peerConnection p) w)) as [|[track|] rs IHr]; [done| |].
  - rewrite bind_cons. cbn. by rewrite IHr.
  - rewrite bind_cons. cbn. exact IHr.
Qed.

(** X6.  [signalPeerConnections] stays within its room, whatever fails:
    the list of the room loses pairs at most, and none whose connection
    is not closed; the lists of the other rooms and all track maps are
    untouched, no connection other than those of the room's pairs is
    modified, and every frame and every RTCP packet it writes goes to a
    pair of the room. *)
Theorem signalPeerConnections_isolated room w :
  let r := signalPeerConnections room w in
  peersOf room r.1.2 `sublist_of` peersOf room w
  ∧ (∀ p, p ∈ peersOf room w →
          connectionState (deref (peerConnection p) w) ≠ PeerConnectionStateClosed →
          p ∈ peersOf room r.1.2)
  ∧ (∀ room', room' ≠ room → peersOf room' r.1.2 = peersOf room' w)
  ∧ trackLocals r.1.2 = trackLocals w
  ∧ (∀ h, h ∉ peerConnection <$> peersOf room w → heap r.1.2 !! h = heap w !! h)
  ∧ (∀ ws m o, EWriteJSON ws m o ∈ r.2 → ws ∈ websocket <$> peersOf room w)
  ∧ (∀ h ssrc, EWriteRTCP h ssrc ∈ r.2 → h ∈ peerConnection <$> peersOf room w).
Proof.
  intros r. subst r.
  destruct (signalPeerConnections_shrinks room w) as [Hsub Hother].
  destruct (signalPeerConnections_retains room w) as [_ Hret].
  split_and!; [done|by apply Hret|done|apply signalPeerConnections_tracks|..];
    rewrite signalPeerConnections_run, dispatchKeyFrame_run in *; cbn [fst snd] in *.
  - intros h Hh. by apply syncLoop_within.
  - intros ws m o Hin.
    apply elem_of_app in Hin as [[=]%list_elem_of_singleton|Hin].
    apply elem_of_app in Hin as [Hin|Hin]; [by eapply syncLoop_writes|].
    apply elem_of_cons in Hin as [[=]|Hin].
    apply elem_of_cons in Hin as [[=]|Hin].
    apply elem_of_cons in Hin as [[=]|Hin].
    apply elem_of_app in Hin as [Hin|[=]%list_elem_of_singleton].
    by apply keyframes_writes in Hin as (? & ? & [=]).
  - intros h ssrc Hin.
    apply elem_of_app in Hin as [[=]%list_elem_of_singleton|Hin].
    apply elem_of_app in Hin as [Hin|Hin].
    { destruct (syncLoop_spec room maxSyncAttempts w) as [Hlock _].
      rewrite Forall_forall in Hlock. by destruct (Hlock _ Hin). }
    apply elem_of_cons in Hin as [[=]|Hin].
    apply elem_of_cons in Hin as [[=]|Hin].
    apply elem_of_cons in Hin as [[=]|Hin].
    apply elem_of_app in Hin as [Hin|[=]%list_elem_of_singleton].
    apply keyframes_spec in Hin as (p & track & Hp & <- & _).
    apply list_elem_of_fmap. exists p. split; [done|]. by eapply elem_of_sublist.
Qed.

(** X7.  [dispatchKeyFrame] changes nothing and reports nothing (what
    [WriteRTCP] returns is discarded).  Between taking and releasing the
    lock it writes one PLI for each receiver with a track of each pair of
    the room, carrying the SSRC of that track, and nothing else; it does
    not look at the state of the connection, so a closed connection that
    is still registered is written to as well. *)
Theorem dispatchKeyFrame_writes room w :
  let r := dispatchKeyFrame room w in
  r.1.2 = w
  ∧ (∃ plis, r.2 = [EDispatchKeyFrame room; ELock] ++ plis ++ [EUnlock]
             ∧ length plis
               = sum_list ((λ p, length (omap id (receivers (deref (peerConnection p) w))))
                             <$> peersOf room w)
             ∧ ∀ e, e ∈ plis ↔
                 ∃ p track, p ∈ peersOf room w
                            ∧ Some track ∈ receivers (deref (peerConnection p) w)
                            ∧ e = EWriteRTCP (peerConnection p) (trSSRC track)).
Proof.
  intros r. subst r. rewrite dispatchKeyFrame_run. simpl. split; [done|].
  exists (keyframes room w). split_and!; [done|apply keyframes_length|].
  intros e. split.
  - intros He. destruct (keyframes_writes _ _ _ He) as (h & ssrc & ->).
    apply keyframes_spec in He as (p & track & Hp & <- & Hr & <-). by exists p, track.
  - intros (p & track & Hp & Hr & ->). apply keyframes_spec. by exists p, track.
Qed.

End Isolation.

Global Instance carries_preorder I : PreOrder (carries I).
Proof. split; [by intros w HI|]. intros w1 w2 w3 H1 H2 HI. by apply H2, H1. Qed.

Global Instance thins_preorder : PreOrder thins.
Proof.
  split; [by intros w h|]. intros w1 w2 w3 H1 H2 h. etrans; [apply H2|apply H1].
Qed.

Lemma sentIDs_senders pc pc' : senders pc' = senders pc → sentIDs pc' = sentIDs pc.
Proof. unfold sentIDs. by intros ->. Qed.

Lemma omap_insert_None {A} (ss : list (option A)) k :
  omap id (<[k := None]> ss) `sublist_of` omap id ss.
Proof.
  revert k. induction ss as [|s ss IH]; intros k; [done|].
  destruct k as [|k]; simpl.
  - destruct s; [by apply sublist_cons|done].
  - destruct s; simpl; [apply sublist_skip|]; apply IH.
Qed.

Lemma omap_Some_fmap {A B} (f : A → B) (l : list A) :
  omap id (Some ∘ f <$> l) = f <$> l.
Proof. induction l as [|x l IH]; [done|]. cbn. by f_equal. Qed.

Lemma outcome_thins : preserves thins outcome.
Proof. by intros w h. Qed.

Lemma update_thins h F :
  (∀ pc, sentIDs (F pc) `sublist_of` sentIDs pc) → preserves thins (update h F).
Proof.
  intros HF w h'. simpl. rewrite deref_store. case_decide; [subst; apply HF|done].
Qed.

Section NoDoubleSend.
Context `{Externals}.

Lemma RemoveTrack_thins h k : preserves thins (RemoveTrack h k).
Proof.
  unfold RemoveTrack. frames; [apply outcome_thins|].
  apply update_thins. intros pc. unfold sentIDs. simpl.
  apply fmap_sublist, omap_insert_None.
Qed.

Lemma sendersLoop_thins room p l E : preserves thins (sendersLoop room p l E).
Proof.
  revert E. induction l as [|k l IH]; intros E; simpl; frames.
  all: first [apply IH | apply RemoveTrack_thins].
Qed.

(** The loop over the track map appends senders for some of the entries
    it does not skip, whether or not it runs to its end. *)
Lemma tracksLoop_appends p entries E : ∀ w,
  ∃ added,
    added `sublist_of` filter (λ kv, kv.1 ∉ E) entries
    ∧ senders (deref (peerConnection p) (tracksLoop p entries E w).1.2)
      = senders (deref (peerConnection p) w) ++ (Some ∘ snd <$> added).
Proof.
  induction entries as [|[k t] entries IH]; intros w; simpl.
  - exists []. by rewrite app_nil_r.
  - rewrite filter_cons. simpl. destruct (decide (k ∈ E)) as [Hin|Hin].
    + rewrite decide_False by (by intros ?). apply IH.
    + rewrite decide_True by done.
      destruct (AddTrack (peerConnection p) t w) as [[o w1] t1] eqn:Hadd.
      rewrite (bind_run _ _ _ _ _ _ Hadd). rewrite AddTrack_run in Hadd.
      destruct (nextOutcome w); injection Hadd as <- <- <-; simpl.
      * match goal with |- context [tracksLoop p entries E ?W] =>
          destruct (IH W) as (added & Hsub & Heq) end.
        exists ((k, t) :: added). split; [by apply sublist_skip|].
        destruct (tracksLoop p entries E _) as [[??]?]. simpl in *.
        rewrite Heq, deref_store, decide_True by done. simpl.
        by rewrite <- app_assoc.
      * exists []. split; [apply sublist_nil_l|]. by rewrite app_nil_r.
Qed.

Lemma rangeMap_keys `{!RangeLaw} tracks : NoDup (rangeMap tracks).*1.
Proof.
  rewrite (rangeMap_perm tracks). apply NoDup_fst_map_to_list.
Qed.

Lemma rangeMap_lookup `{!RangeLaw} tracks k t :
  (k, t) ∈ rangeMap tracks → tracks !! k = Some t.
Proof. rewrite (rangeMap_perm tracks). apply elem_of_map_to_list. Qed.

(** The pass over one peer keeps the senders of every connection free of
    duplicates: line 278 adds a track only when no sender carries its
    id. *)
Lemma syncPeer_noDouble `{!RangeLaw} room p w :
  keyedByID (tracksOf room w) →
  noDoubleSend w →
  noDoubleSend (syncPeer room p w).1.2.
Proof.
  intros Hkey Hnd h.
  destruct (syncPeer room p w) as [[r w'] t] eqn:Hrun. simpl.
  destruct (decide (h = peerConnection p)) as [->|Hne]; last first.
  { pose proof (preserves_run _ _ _ _ _ _ (syncPeer_only_at _ _) Hrun) as Hat.
    rewrite (only_at_deref _ _ _ _ Hat) by done. apply Hnd. }
  unfold syncPeer in Hrun. rewrite bind_gets in Hrun.
  apply bind_inv in Hrun as (E1 & w1 & t1 & t2 & Hs & Hrun & ->).
  pose proof (preserves_run _ _ _ _ _ _ (sendersLoop_thins _ _ _ _) Hs (peerConnection p))
    as Hthin.
  pose proof (preserves_run _ _ _ _ _ _ (sendersLoop_same trackLocals _ _ _ _) Hs) as Htl.
  destruct E1 as [E'|]; last first.
  { unfold ret in Hrun. injection Hrun as _ <- _. by eapply sublist_NoDup. }
  apply sendersLoop_spec in Hs as (_ & HE & _). rewrite drop_0, take_ge in HE by done.
  rewrite !bind_gets in Hrun.
  apply bind_inv in Hrun as (o & w2 & t3 & t4 & Ht & Hrun & ->).
  destruct (tracksLoop_appends p (rangeMap (tracksOf room w1))
              (receiversLoop (receivers (deref (peerConnection p) w1)) E') w1)
    as (added & Hsub & Hsenders).
  rewrite Ht in Hsenders. simpl in Hsenders.
  assert (tracksOf room w1 = tracksOf room w) as HT by (unfold tracksOf; by rewrite Htl).
  rewrite HT in Hsub.
  assert (NoDup (sentIDs (deref (peerConnection p) w2))) as Hnd2.
  { unfold sentIDs. rewrite Hsenders, omap_app, fmap_app, omap_Some_fmap.
    assert (tlID <$> (snd <$> added) = added.*1) as ->.
    { rewrite <- list_fmap_compose. apply list_fmap_ext. intros i [k t] Hi. simpl.
      apply Hkey. apply rangeMap_lookup.
      apply list_elem_of_lookup_2 in Hi.
      eapply elem_of_sublist in Hi; [|exact Hsub].
      by apply list_elem_of_filter in Hi as [_ ?]. }
    apply NoDup_app. split_and!.
    - by eapply sublist_NoDup.
    - intros x Hx Hx'.
      apply list_elem_of_fmap in Hx' as ([k t] & -> & Hkt). simpl in *.
      eapply elem_of_sublist in Hkt; [|exact Hsub].
      apply list_elem_of_filter in Hkt as [Hout _]. simpl in Hout. apply Hout.
      rewrite receiversLoop_spec, HE. apply elem_of_union_r, elem_of_union_l.
      unfold idsOf. apply elem_of_list_to_set.
      eapply elem_of_sublist; [exact Hx|]. apply Hthin.
    - eapply sublist_NoDup; [apply rangeMap_keys|].
      apply fmap_sublist. etrans; [exact Hsub|]. apply sublist_filter. }
  destruct o.
  - pose proof (preserves_run _ _ _ _ _ _ (sendOffer_senders _) Hrun (peerConnection p)) as Hk.
    unfold sentIDs. rewrite Hk. exact Hnd2.
  - unfold ret in Hrun. by injection Hrun as _ <- _.
Qed.

End NoDoubleSend.

Lemma wellFormed_store h pc w :
  NoDup (sentIDs pc) → wellFormed w → wellFormed (store h pc w).
Proof.
  intros Hpc [Hk Hn]. split; [exact Hk|]. intros h'. rewrite deref_store.
  case_decide; [done|apply Hn].
Qed.

Lemma outcome_carries : preserves (carries wellFormed) outcome.
Proof. intros w [Hk Hn]. by split. Qed.

Lemma update_carries h F :
  (∀ pc, senders (F pc) = senders pc) → preserves (carries wellFormed) (update h F).
Proof.
  intros HF w [Hk Hn]. simpl. apply wellFormed_store; [|done].
  rewrite (sentIDs_senders (deref h w)) by apply HF. apply Hn.
Qed.

Lemma go_carries g : preserves (carries wellFormed) (go g).
Proof. intros w [Hk Hn]. by split. Qed.

Lemma modify_carries f :
  (∀ w, trackLocals (f w) = trackLocals w ∧ heap (f w) = heap w) →
  preserves (carries wellFormed) (modify f).
Proof.
  intros Hf w [Hk Hn]. simpl. destruct (Hf w) as [Htl Hh]. split.
  - intros room. unfold tracksOf. rewrite Htl. apply Hk.
  - intros h. unfold deref. rewrite Hh. apply Hn.
Qed.

#[export] Hint Resolve outcome_carries go_carries : frames.
#[export] Hint Extern 1 (preserves (carries wellFormed) (update _ _)) =>
  apply update_carries; intros ?; reflexivity : frames.
#[export] Hint Extern 1 (preserves (carries wellFormed) (modify _)) =>
  apply modify_carries; intros ?; split; reflexivity : frames.

Section Invariant.
Context `{Externals} `{!RangeLaw}.

Lemma syncPeer_carries room p :
  preserves (carries (λ w, keyedByID (tracksOf room w) ∧ noDoubleSend w)) (syncPeer room p).
Proof.
  intros w [Hk Hn]. split; [|by apply syncPeer_noDouble].
  unfold tracksOf. by rewrite (syncPeer_same trackLocals room p w).
Qed.

Lemma peersLoop_carries room snapshot : ∀ i,
  preserves (carries (λ w, keyedByID (tracksOf room w) ∧ noDoubleSend w))
    (peersLoop room i snapshot).
Proof.
  induction snapshot as [|p rest IH]; intros i; simpl; frames.
  - apply preserves_modify. by intros w [Hk Hn].
  - apply syncPeer_carries.
Qed.

Lemma syncLoop_carries room n :
  preserves (carries (λ w, keyedByID (tracksOf room w) ∧ noDoubleSend w)) (syncLoop room n).
Proof.
  induction n as [|n IH]; simpl.
  - by intros w [Hk Hn].
  - frames. unfold attemptSync. frames. apply peersLoop_carries.
Qed.

Lemma signalPeerConnections_carries room :
  preserves (carries wellFormed) (signalPeerConnections room).
Proof.
  intros w [Hk Hn]. split.
  - intros room'. unfold tracksOf. rewrite (signalPeerConnections_tracks room w). apply Hk.
  - rewrite signalPeerConnections_run. cbn [fst snd].
    by apply (syncLoop_carries room maxSyncAttempts w).
Qed.

Lemma addTrack_carries t room : preserves (carries wellFormed) (addTrack t room).
Proof.
  intros w [Hk Hn]. rewrite addTrack_run. destruct (nextOutcome w); cbn [fst snd].
  - apply signalPeerConnections_carries. split; [|exact Hn].
    intros room'. rewrite tracksOf_registered. case_decide; [|apply Hk].
    apply (keyedByID_insert _ (localOf t)), Hk.
  - apply signalPeerConnections_carries. by split.
Qed.

Lemma removeTrack_carries t room : preserves (carries wellFormed) (removeTrack t room).
Proof.
  intros w [Hk Hn]. rewrite removeTrack_run. cbn [fst snd].
  apply signalPeerConnections_carries. split; [|exact Hn].
  intros room'. rewrite tracksOf_unregistered. case_decide; [|apply Hk].
  apply keyedByID_delete, Hk.
Qed.

Lemma ClosePeerConnection_carries h : preserves (carries wellFormed) (ClosePeerConnection h).
Proof. unfold ClosePeerConnection. frames. Qed.

Lemma addTransceivers_carries h kinds : preserves (carries wellFormed) (addTransceivers h kinds).
Proof.
  induction kinds as [|k kinds IH]; simpl; [frames|].
  unfold AddTransceiverFromKind. frames.
Qed.

Lemma handlerSetup_carries r : preserves (carries wellFormed) (handlerSetup r).
Proof.
  unfold handlerSetup, Upgrade, handlerSession, NewPeerConnection, CloseWebsocket. frames.
  all: first [ apply addTransceivers_carries | apply ClosePeerConnection_carries
             | apply signalPeerConnections_carries | idtac ].
  apply preserves_modify. intros w Hw. by apply wellFormed_store; [constructor|].
Qed.

Lemma readLoop_carries p inbound : ∀ message,
  preserves (carries wellFormed) (readLoop p message inbound).
Proof.
  induction inbound as [|frame rest IH]; intros message; simpl; frames.
  unfold readStep, handleMessage, AddICECandidate, SetRemoteDescription. frames.
Qed.

Lemma Handler_carries r inbound : preserves (carries wellFormed) (Handler r inbound).
Proof.
  unfold Handler, handlerDefers, CloseWebsocket. frames.
  all: first [ apply handlerSetup_carries | apply readLoop_carries
             | apply ClosePeerConnection_carries ].
Qed.

Lemma step_wellFormed w w' : step w w' → wellFormed w → wellFormed w'.
Proof.
  intros Hstep Hw. destruct Hstep as [r inbound w|room t w|room tl w|room pc s w
                                     |w t w' Hturn|h F w HF|v w].
  - by apply Handler_carries.
  - by apply addTrack_carries.
  - by apply removeTrack_carries.
  - unfold connectionStateCallback. destruct s;
      first [ by apply ClosePeerConnection_carries
            | by apply signalPeerConnections_carries | done ].
  - destruct Hturn as [w seconds room Hin|w before after seconds room Hg w0].
    + by rewrite dispatchKeyFrame_run.
    + apply signalPeerConnections_carries. destruct Hw as [Hk Hn]. by split.
  - apply wellFormed_store; [|done].
    rewrite (sentIDs_senders (deref h w)) by apply HF. apply Hw.
  - destruct Hw as [Hk Hn]. by split.
Qed.


End Invariant.

Lemma lockScan_app b t1 t2 :
  lockScan b (t1 ++ t2) = lockScan b t1 ≫= λ b1, lockScan b1 t2.
Proof.
  revert b. induction t1 as [|e t1 IH]; intros b; [done|].
  destruct e, b; simpl; try done; apply IH.
Qed.

Lemma lockScan_held t :
  Forall (λ e, e ≠ ELock ∧ e ≠ EUnlock) t → lockScan true t = Some true.
Proof.
  induction 1 as [|e t [Hl Hu] _ IH]; [done|].
  destruct e; simpl; try done; rewrite ?andb_false_r; exact IH.
Qed.

Lemma scans_ret {A} b (a : A) : scans b b (ret a).
Proof. by intros w. Qed.
Lemma scans_gets {A} b (f : World → A) : scans b b (gets f).
Proof. by intros w. Qed.
Lemma scans_modify b f : scans b b (modify f).
Proof. by intros w. Qed.
Lemma scans_outcome b : scans b b outcome.
Proof. by intros w. Qed.
Lemma scans_update b h F : scans b b (update h F).
Proof. by intros w. Qed.
Lemma scans_emit b b' e : lockScan b [e] = Some b' → scans b b' (emit e).
Proof. by intros He w. Qed.

Lemma scans_bind {A B} b b1 b' (m : M A) (k : A → M B) :
  scans b b1 m → (∀ a, scans b1 b' (k a)) → scans b b' (bind m k).
Proof.
  intros Hm Hk w. unfold bind.
  specialize (Hm w). destruct (m w) as [[a w1] t1].
  specialize (Hk a w1). destruct (k a w1) as [[b0 w2] t2].
  simpl in *. by rewrite lockScan_app, Hm.
Qed.

(** Decompose a goal [scans b b' m]: the lock changes state at [Lock] and
    [Unlock] only. *)
Ltac step_scans :=
  repeat match goal with
    | |- scans _ _ (ret _) => apply scans_ret
    | |- scans _ _ (gets _) => apply scans_gets
    | |- scans _ _ (modify _) => apply scans_modify
    | |- scans _ _ outcome => apply scans_outcome
    | |- scans _ _ (update _ _) => apply scans_update
    | |- scans _ _ (emit _) => apply scans_emit; reflexivity
    | |- scans false ?b' (bind (emit ELock) _) =>
        apply (scans_bind false true b'); [apply scans_emit; reflexivity | intros ?]
    | |- scans true ?b' (bind (emit EUnlock) _) =>
        apply (scans_bind true false b'); [apply scans_emit; reflexivity | intros ?]
    | |- scans ?b ?b' (bind _ _) => apply (scans_bind b b b'); [| intros ?]
    | |- scans _ _ (match ?x with _ => _ end) => destruct x
    | |- scans _ _ (if ?x then _ else _) => destruct x
    end.

Section LockDiscipline.
Context `{Externals}.

Lemma insideLock_no_lock e : insideLock e → e ≠ ELock ∧ e ≠ EUnlock.
Proof. by destruct e. Qed.

Lemma dispatchKeyFrame_scans room : scans false false (dispatchKeyFrame room).
Proof.
  intros w. rewrite dispatchKeyFrame_run. simpl.
  rewrite lockScan_app, lockScan_held; [done|].
  apply Forall_forall. intros e He. by apply keyframes_writes in He as (? & ? & ->).
Qed.

Lemma signalPeerConnections_scans room : scans false false (signalPeerConnections room).
Proof.
  intros w. rewrite signalPeerConnections_run. cbn [fst snd].
  destruct (syncLoop_spec room maxSyncAttempts w) as [Hin _].
  change ([ELock] ++ ?t) with (ELock :: t). cbn [lockScan].
  rewrite lockScan_app, lockScan_held; [apply dispatchKeyFrame_scans|].
  eapply Forall_impl; [exact Hin|]. apply insideLock_no_lock.
Qed.

Lemma addTrack_scans t room : scans false false (addTrack t room).
Proof.
  unfold addTrack, NewTrackLocalStaticRTP. step_scans;
    apply signalPeerConnections_scans.
Qed.

Lemma removeTrack_scans t room : scans false false (removeTrack t room).
Proof. unfold removeTrack. step_scans. apply signalPeerConnections_scans. Qed.

Lemma ClosePeerConnection_scans b h : scans b b (ClosePeerConnection h).
Proof. destruct b; unfold ClosePeerConnection, go; step_scans. Qed.

Lemma addTransceivers_scans h kinds : scans false false (addTransceivers h kinds).
Proof.
  induction kinds as [|k kinds IH]; simpl; [apply scans_ret|].
  unfold AddTransceiverFromKind. step_scans. apply IH.
Qed.

Lemma handlerSetup_scans r : scans false false (handlerSetup r).
Proof.
  unfold handlerSetup, Upgrade, go, handlerSession, NewPeerConnection, CloseWebsocket.
  step_scans.
  all: first [ apply addTransceivers_scans | apply ClosePeerConnection_scans
             | apply signalPeerConnections_scans ].
Qed.

Lemma readLoop_scans p inbound : ∀ message, scans false false (readLoop p message inbound).
Proof.
  induction inbound as [|frame rest IH]; intros message; simpl; step_scans; [|apply IH].
  unfold readStep, handleMessage, AddICECandidate, SetRemoteDescription. step_scans.
Qed.

Lemma Handler_scans r inbound : scans false false (Handler r inbound).
Proof.
  unfold Handler, handlerDefers, CloseWebsocket. step_scans.
  all: first [ apply handlerSetup_scans | apply readLoop_scans
             | apply ClosePeerConnection_scans ].
Qed.

(** X9.  Every entry point of the package respects [listLock]: it takes
    and releases the lock in strict alternation, never takes it while it
    holds it, makes its calls of [RemoveTrack], [AddTrack], [CreateOffer],
    [SetLocalDescription] and [WriteRTCP] only while it holds it, and ends
    with the lock released, also when [addTrack] panics. *)
Theorem lock_discipline w :
  (∀ r inbound, lockScan false (Handler r inbound w).2 = Some false)
  ∧ (∀ roomUUID, lockScan false (signalPeerConnections roomUUID w).2 = Some false)
  ∧ (∀ roomUUID, lockScan false (dispatchKeyFrame roomUUID w).2 = Some false)
  ∧ (∀ t roomUUID, lockScan false (addTrack t roomUUID w).2 = Some false)
  ∧ (∀ t roomUUID, lockScan false (removeTrack t roomUUID w).2 = Some false)
  ∧ (∀ roomUUID pc s,
       lockScan false (connectionStateCallback roomUUID pc s w).2 = Some false)
  ∧ (∀ t w', turn w t w' → lockScan false t = Some false).
Proof.
  split_and!.
  - intros r inbound. apply Handler_scans.
  - intros room. apply signalPeerConnections_scans.
  - intros room. apply dispatchKeyFrame_scans.
  - intros t room. apply addTrack_scans.
  - intros t room. apply removeTrack_scans.
  - intros room pc s. unfold connectionStateCallback.
    destruct s; first [apply ClosePeerConnection_scans | apply signalPeerConnections_scans | done].
  - intros t w' Hturn. destruct Hturn.
    + apply dispatchKeyFrame_scans.
    + apply signalPeerConnections_scans.
Qed.

End LockDiscipline.

Lemma midSession_not_close e : midSession e → ¬ isClose e.
Proof. destruct e; simpl; tauto. Qed.

Section SessionCases.
Context `{Externals}.

Lemma signalPeerConnections_midSession room : emits midSession (signalPeerConnections room).
Proof.
  intros w. apply Forall_forall. intros e He.
  apply signalPeerConnections_effects in He as [Hin|[->|[->|[->|(?&?&->)]]]]; try done.
  by destruct e.
Qed.

Lemma addTransceivers_midSession h kinds : emits midSession (addTransceivers h kinds).
Proof.
  induction kinds as [|k kinds IH]; simpl; [apply emits_ret|].
  unfold AddTransceiverFromKind. step_emits; try done. by apply emits_emit.
Qed.

Lemma readLoop_midSession p inbound : ∀ message, emits midSession (readLoop p message inbound).
Proof.
  induction inbound as [|frame rest IH]; intros message; simpl; step_emits; try done.
  unfold readStep, handleMessage, AddICECandidate, SetRemoteDescription.
  step_emits; try done; by apply emits_emit.
Qed.

Lemma NewPeerConnection_run w :
  let h := fresh (dom (heap w)) in
  NewPeerConnection w =
    match nextOutcome w with
    | Ok => (Some h, store h newPeerConnection (set_oracle (tail (oracle w)) w),
             [ENewPeerConnection h Ok])
    | Err => (None, set_oracle (tail (oracle w)) w, [ENewPeerConnection h Err])
    end.
Proof. unfold NewPeerConnection, bind, outcome. simpl. by destruct (nextOutcome w). Qed.

(** [Close] leaves the connection closed, and starts at most the
    goroutine of its state callback. *)
Lemma ClosePeerConnection_spec h w :
  let r := ClosePeerConnection h w in
  connectionState (deref h r.1.2) = PeerConnectionStateClosed
  ∧ ∃ started, r.2 = EClosePeerConnection h :: started
               ∧ Forall (λ e, isGo e) started.
Proof.
  unfold ClosePeerConnection. rewrite bind_emit, bind_gets. cbn [fst snd].
  destruct (isClosed (connectionState (deref h w))) eqn:Hc.
  - simpl. split; [by destruct (connectionState (deref h w))|]. by exists [].
  - rewrite bind_update. destruct (onConnectionStateChange _) as [room|].
    + rewrite go_run. cbn [fst snd]. split.
      * unfold deref, store. simpl. by rewrite lookup_insert_eq.
      * exists [EGo (Signal 0 room)]. split; [done|]. by repeat constructor.
    + cbn [fst snd ret]. split; [|by exists []].
      unfold deref, store. simpl. by rewrite lookup_insert_eq.
Qed.

Lemma isGo_midSession e : isGo e → midSession e.
Proof. destruct e; simpl; tauto. Qed.

(** The part of [Handler] that owns the WebSocket: it either registers
    the pair, or closes what it opened and gives up. *)
Lemma handlerSession_cases room c w :
  let r := handlerSession room c w in
  match r.1.1 with
  | Some (room', p) =>
      room' = room ∧ websocket p = c
      ∧ ∃ t, r.2 = ENewPeerConnection (peerConnection p) Ok :: t ∧ Forall midSession t
  | None =>
      ∃ pre, r.2 = pre ++ [ECloseWebsocket c]
             ∧ Forall (λ e, ∀ ws, e ≠ ECloseWebsocket ws) pre
             ∧ ∀ h, ENewPeerConnection h Ok ∈ r.2 →
                 EClosePeerConnection h ∈ r.2
                 ∧ connectionState (deref h r.1.2) = PeerConnectionStateClosed
  end.
Proof.
  unfold handlerSession.
  destruct (NewPeerConnection w) as [[opc w1] t1] eqn:Hnew.
  rewrite (bind_run _ _ _ _ _ _ Hnew). cbn [fst snd].
  rewrite NewPeerConnection_run in Hnew. cbv zeta in Hnew.
  set (pc := fresh (dom (heap w))) in *.
  destruct (nextOutcome w); injection Hnew as <- Hw1 <-.
  - destruct (addTransceivers pc [RTPCodecTypeVideo; RTPCodecTypeAudio] w1)
      as [[err w2] t2] eqn:Hadd.
    rewrite (bind_run _ _ _ _ _ _ Hadd). cbn [fst snd].
    pose proof (emits_run _ _ _ _ _ _ (addTransceivers_midSession _ _) Hadd) as Ht2.
    destruct err.
    + rewrite bind_emit, bind_modify, bind_emit, bind_update. cbn [fst snd].
      match goal with |- context [bind (signalPeerConnections room) _ ?W] =>
        pose proof (signalPeerConnections_midSession room W) as Hsig;
        destruct (signalPeerConnections room W) as [[[] w3] t3] eqn:Hs end.
      rewrite (bind_run _ _ _ _ _ _ Hs). simpl in *.
      split_and!; [done..|]. eexists. split; [done|].
      apply Forall_app. split; [done|]. repeat (constructor; [done|]).
      by rewrite app_nil_r.
    + destruct (ClosePeerConnection_spec pc w2) as (Hclosed & started & Hst & Hgo).
      destruct (ClosePeerConnection pc w2) as [[[] w3] t3] eqn:Hclose.
      rewrite (bind_run _ _ _ _ _ _ Hclose). cbn [fst snd] in *. subst t3.
      unfold CloseWebsocket. rewrite bind_emit. simpl.
      exists (ENewPeerConnection pc Ok :: t2 ++ EClosePeerConnection pc :: started).
      split_and!.
      * simpl. by rewrite <- app_assoc.
      * constructor; [done|]. apply Forall_app. split.
        { eapply Forall_impl; [exact Ht2|]. by intros [] ?. }
        constructor; [done|]. eapply Forall_impl; [exact Hgo|]. by intros [] ?.
      * intros h Hin. apply elem_of_cons in Hin as [[= ->]|Hin].
        { split; [|done]. right. apply elem_of_app. right. by left. }
        exfalso. apply elem_of_app in Hin as [Hin|Hin].
        { rewrite Forall_forall in Ht2. by apply Ht2 in Hin. }
        apply elem_of_cons in Hin as [[=]|Hin].
        apply elem_of_app in Hin as [Hin|Hin].
        { rewrite Forall_forall in Hgo. by apply Hgo in Hin. }
        by apply list_elem_of_singleton in Hin.
  - unfold CloseWebsocket. rewrite bind_emit. simpl.
    exists [ENewPeerConnection pc Err]. split_and!; [done|by repeat constructor|].
    intros h Hin. apply elem_of_cons in Hin as [[=]|Hin].
    by apply list_elem_of_singleton in Hin.
Qed.

End SessionCases.

Ltac list_assoc :=
  repeat first [rewrite <- app_assoc | rewrite <- app_comm_cons | progress simpl];
  reflexivity.

Section Release.
Context `{Externals}.

Lemma midSession_new t h o : Forall midSession t → ENewPeerConnection h o ∈ t → False.
Proof. rewrite Forall_forall. intros Ht Hin. by apply Ht in Hin. Qed.

Lemma handlerSetup_cases r w :
  let res := handlerSetup r w in
  let roomUUID := default "" (vars r !! "uuid") in
  ∃ pr, Forall midSession pr ∧
    match nextOutcome w with
    | Err => res.1.1 = None
             ∧ res.2 = pr ++ [EUpgrade (conn r) Err]
             ∧ res.1.2 = set_oracle (tail (oracle w)) w
    | Ok =>
        ∃ t, res.2 = pr ++ [EUpgrade (conn r) Ok; EGo (Ticker 3 roomUUID)] ++ t
          ∧ match res.1.1 with
            | Some (room', p) =>
                room' = roomUUID ∧ websocket p = conn r
                ∧ ∃ t', t = ENewPeerConnection (peerConnection p) Ok :: t'
                        ∧ Forall midSession t'
            | None =>
                ∃ pre, t = pre ++ [ECloseWebsocket (conn r)]
                       ∧ Forall (λ e, ∀ ws, e ≠ ECloseWebsocket ws) pre
                       ∧ ∀ h, ENewPeerConnection h Ok ∈ t →
                           EClosePeerConnection h ∈ t
                           ∧ connectionState (deref h res.1.2) = PeerConnectionStateClosed
            end
    end.
Proof.
  intros res roomUUID. subst res. unfold handlerSetup. fold roomUUID.
  set (rest := bind (Upgrade r) _).
  assert (∃ pr, Forall midSession pr
                ∧ ∀ (m : M unit) w,
                    (m = ret tt ∨ m = emit (EPrintln missingRoomDiagnostic)) →
                    m = match vars r !! "uuid" with
                        | Some _ => ret tt
                        | None => emit (EPrintln missingRoomDiagnostic)
                        end →
                    bind m (λ _, rest) w = ((rest w).1.1, (rest w).1.2, pr ++ (rest w).2))
    as (pr & Hpr & Hhead).
  { destruct (vars r !! "uuid").
    - exists []. split; [done|]. intros m w' _ ->. rewrite bind_ret.
      by destruct (rest w') as [[??]?].
    - exists [EPrintln missingRoomDiagnostic]. split; [by repeat constructor|].
      intros m w' _ ->. by rewrite bind_emit. }
  exists pr. split; [done|].
  rewrite (Hhead _ w); [|destruct (vars r !! "uuid"); auto|done]. clear Hhead.
  subst rest. cbn [fst snd].
  rewrite (bind_run _ _ _ _ _ _ (Upgrade_run r w)). cbn [fst snd].
  destruct (nextOutcome w).
  - rewrite (bind_run _ _ _ _ _ _ (go_run _ _)). cbn [fst snd].
    match goal with |- context [handlerSession roomUUID (conn r) ?W] =>
      pose proof (handlerSession_cases roomUUID (conn r) W) as Hcases;
      destruct (handlerSession roomUUID (conn r) W) as [[a w'] t] end.
    cbn [fst snd] in *. exists t. split; [done|]. exact Hcases.
  - done.
Qed.

(** X10.  [Handler] closes what it opened.  When the upgrade fails it
    has opened nothing and closes nothing.  Otherwise, whenever it
    returns, closing the WebSocket is the last thing it does and it does
    it once, and a peer connection it created has been closed before
    that; as long as it is serving, it has closed nothing. *)
Theorem Handler_releases r inbound w :
  let res := Handler r inbound w in
  match res.1.1 with
  | Serving _ p =>
      nextOutcome w = Ok ∧ websocket p = conn r ∧ Forall (λ e, ¬ isClose e) res.2
  | Finished =>
      match nextOutcome w with
      | Err => Forall (λ e, ¬ isClose e) res.2
               ∧ peerConnections res.1.2 = peerConnections w
               ∧ heap res.1.2 = heap w
               ∧ goroutines res.1.2 = goroutines w
      | Ok =>
          (∃ pre, res.2 = pre ++ [ECloseWebsocket (conn r)]
                  ∧ Forall (λ e, ∀ ws, e ≠ ECloseWebsocket ws) pre)
          ∧ ∀ h, ENewPeerConnection h Ok ∈ res.2 →
              EClosePeerConnection h ∈ res.2
              ∧ connectionState (deref h res.1.2) = PeerConnectionStateClosed
      end
  end.
Proof.
  intros res. subst res. unfold Handler.
  destruct (handlerSetup_cases r w) as (pr & Hpr & Hsetup).
  destruct (handlerSetup r w) as [[s w1] t1] eqn:Hs.
  rewrite (bind_run _ _ _ _ _ _ Hs). cbn [fst snd] in *.
  assert (Forall (λ e, ∀ ws, e ≠ ECloseWebsocket ws) pr) as Hpr'.
  { eapply Forall_impl; [exact Hpr|]. by intros [] ?. }
  destruct (nextOutcome w).
  - destruct Hsetup as (t & -> & Hsetup).
    destruct s as [[room p]|]; cbn [fst snd].
    + destruct Hsetup as (-> & Hws & t' & -> & Ht').
      destruct (readLoop p {| Event := ""; Data := "" |} inbound w1)
        as [[exit w2] t2] eqn:Hloop.
      rewrite (bind_run _ _ _ _ _ _ Hloop). cbn [fst snd].
      pose proof (emits_run _ _ _ _ _ _ (readLoop_midSession _ _ _) Hloop) as Ht2.
      destruct exit as [exit|]; cbn [fst snd ret].
      * unfold handlerDefers.
        destruct (ClosePeerConnection_spec (peerConnection p) w2)
          as (Hclosed & started & Hst & Hgo).
        destruct (ClosePeerConnection (peerConnection p) w2) as [[[] w3] t3] eqn:Hclose.
        cbn [fst snd] in *. subst t3.
        assert (bind (bind (ClosePeerConnection (peerConnection p))
                        (λ _, CloseWebsocket (websocket p))) (λ _, ret Finished) w2
                = (Finished, w3,
                   EClosePeerConnection (peerConnection p) :: started
                     ++ [ECloseWebsocket (conn r)])) as ->.
        { unfold bind at 1. unfold bind at 1. rewrite Hclose. unfold CloseWebsocket, emit, ret.
          rewrite Hws. simpl. by rewrite app_nil_r. }
        cbn [fst snd]. split.
        -- exists (pr ++ [EUpgrade (conn r) Ok;
                          EGo (Ticker 3 (default "" (vars r !! "uuid")))]
                      ++ (ENewPeerConnection (peerConnection p) Ok :: t')
                      ++ t2 ++ EClosePeerConnection (peerConnection p) :: started).
           split; [list_assoc|].
           apply Forall_app. split; [done|].
           repeat (constructor; [done|]).
           apply Forall_app. split; [eapply Forall_impl; [exact Ht'|]; by intros [] ?|].
           apply Forall_app. split; [eapply Forall_impl; [exact Ht2|]; by intros [] ?|].
           constructor; [done|]. eapply Forall_impl; [exact Hgo|]. by intros [] ?.
        -- intros h Hin. assert (h = peerConnection p) as ->.
           { set_unfold in Hin. destruct_or! Hin; simplify_eq; try done; exfalso.
             - by apply (midSession_new pr h Ok).
             - by apply (midSession_new t' h Ok).
             - by apply (midSession_new t2 h Ok).
             - apply (midSession_new started h Ok); [|done].
               eapply Forall_impl; [exact Hgo|apply isGo_midSession]. }
           split; [|done].
           apply elem_of_app. right. apply elem_of_app. right. by left.
      * split_and!; [done|done|].
        rewrite app_nil_r. apply Forall_app. split.
        { apply Forall_app. split; [eapply Forall_impl; [exact Hpr|apply midSession_not_close]|].
          repeat (constructor; [by intros []|]).
          eapply Forall_impl; [exact Ht'|apply midSession_not_close]. }
        eapply Forall_impl; [exact Ht2|apply midSession_not_close].
    + destruct Hsetup as (pre & -> & Hpre & Hclosed). simpl. rewrite app_nil_r. split.
      * exists (pr ++ [EUpgrade (conn r) Ok; EGo (Ticker 3 (default "" (vars r !! "uuid")))]
                   ++ pre).
        split; [list_assoc|].
        apply Forall_app. split; [done|]. by repeat (constructor; [done|]).
      * intros h Hin. destruct (Hclosed h) as [Hc Hst].
        { set_unfold in Hin. destruct_or! Hin; simplify_eq; try done; [|set_solver..].
          exfalso. by apply (midSession_new pr h Ok). }
        split; [|done]. apply elem_of_app. right. right. by right.
  - destruct Hsetup as (-> & -> & ->). simpl. rewrite app_nil_r. split_and!; [|done..].
    apply Forall_app. split; [eapply Forall_impl; [exact Hpr|apply midSession_not_close]|].
    by repeat (constructor; [by intros []|]).
Qed.

End Release.

Section Join.
Context `{Externals}.

(** [Handler] up to the read loop when its four library calls succeed,
    with what is left of the oracle when [signalPeerConnections] is
    called. *)
Lemma handlerSetup_run r w a w' t :
  succeedNext 4 w →
  handlerSetup r w = (a, w', t) →
  let roomUUID := default "" (vars r !! "uuid") in
  let pc := fresh (dom (heap w)) in
  let p := {| peerConnection := pc; websocket := conn r |} in
  ∃ w4 t5,
    a = Some (roomUUID, p)
    ∧ signalPeerConnections roomUUID w4 = (tt, w', t5)
    ∧ t = match vars r !! "uuid" with
          | Some _ => []
          | None => [EPrintln missingRoomDiagnostic]
          end
          ++ [EUpgrade (conn r) Ok; EGo (Ticker 3 roomUUID); ENewPeerConnection pc Ok;
              EAddTransceiverFromKind pc RTPCodecTypeVideo Ok;
              EAddTransceiverFromKind pc RTPCodecTypeAudio Ok; ELock; EUnlock]
          ++ t5
    ∧ peerConnections w4 = <[roomUUID := peersOf roomUUID w ++ [p]]> (peerConnections w)
    ∧ goroutines w4 = goroutines w ++ [Ticker 3 roomUUID]
    ∧ oracle w4 = drop 4 (oracle w)
    ∧ trackLocals w4 = trackLocals w
    ∧ deref pc w4 =
        with_callbacks
          (with_receivers
             (with_transceivers newPeerConnection [RTPCodecTypeVideo; RTPCodecTypeAudio])
             [None; None])
          {| onICECandidate := Some (conn r);
             onConnectionStateChange := Some roomUUID;
             onTrack := Some roomUUID |}
    ∧ ∀ h, h ≠ pc → deref h w4 = deref h w.
Proof.
  intros Hok Hrun roomUUID pc p. unfold handlerSetup in Hrun. fold roomUUID in Hrun.
  apply succeedNext_S in Hok as [Ho1 Hok].
  assert (∃ t0, bind (Upgrade r) (λ c, match c with
                     | None => ret None
                     | Some c => bind (go (Ticker 3 roomUUID)) (λ _, handlerSession roomUUID c)
                     end) w = (a, w', t0)
                 ∧ t = match vars r !! "uuid" with
                       | Some _ => []
                       | None => [EPrintln missingRoomDiagnostic]
                       end ++ t0) as (t0 & Hrun' & ->).
  { destruct (vars r !! "uuid"); run_head Hrun; eexists; split; done. }
  clear Hrun. rename Hrun' into Hrun.
  apply bind_inv in Hrun as (c & w1 & t1 & t2 & Hup & Hrun & ->).
  rewrite Upgrade_run, Ho1 in Hup. injection Hup as <- <- <-.
  apply bind_inv in Hrun as ([] & w2 & t2' & t3 & Hgo & Hrun & ->).
  rewrite go_run in Hgo. injection Hgo as <- <-.
  remember (set_goroutines (goroutines w ++ [Ticker 3 roomUUID])
              (set_oracle (tail (oracle w)) w)) as w2 eqn:Hw2.
  assert (peerConnections w2 = peerConnections w ∧ trackLocals w2 = trackLocals w
          ∧ goroutines w2 = goroutines w ++ [Ticker 3 roomUUID]
          ∧ heap w2 = heap w) as (Hp2 & Ht2 & Hg2 & Hh2) by (by subst w2).
  assert (oracle w2 = tail (oracle w)) as Hor2 by (by subst w2).
  assert (succeedNext 3 w2) as Hok2 by (by apply Hok).
  clear Hw2 Hok. unfold handlerSession in Hrun.
  apply bind_inv in Hrun as (opc & w3 & t3' & t4 & Hnew & Hrun & ->).
  apply succeedNext_S in Hok2 as [Ho2 Hok].
  destruct (NewPeerConnection_ok w2 Ho2) as (w3' & Hnew' & T3).
  rewrite Hnew' in Hnew. injection Hnew as <- <- <-. rewrite Hh2 in *. fold pc in Hrun, T3 |- *.
  destruct T3 as (Hp3 & Ht3 & Hg3 & Hor3 & Hd3 & Hf3).
  apply bind_inv in Hrun as (err & w4 & t4' & t5 & Hadd & Hrun & ->).
  simpl in Hadd.
  apply bind_inv in Hadd as (e1 & w5 & t6 & t7 & Ha1 & Hadd & ->).
  specialize (Hok _ Hor3). apply succeedNext_S in Hok as [Ho3 Hok].
  destruct (AddTransceiverFromKind_ok pc RTPCodecTypeVideo w3' Ho3) as (w5' & Ha1' & T5).
  rewrite Ha1' in Ha1. injection Ha1 as <- <- <-.
  destruct T5 as (Hp5 & Ht5 & Hg5 & Hor5 & Hd5 & Hf5).
  apply bind_inv in Hadd as (e2 & w6 & t8 & t9 & Ha2 & Hadd & ->).
  specialize (Hok _ Hor5). apply succeedNext_S in Hok as [Ho4 _].
  destruct (AddTransceiverFromKind_ok pc RTPCodecTypeAudio w5' Ho4) as (w6' & Ha2' & T6).
  rewrite Ha2' in Ha2. injection Ha2 as <- <- <-.
  destruct T6 as (Hp6 & Ht6 & Hg6 & Hor6 & Hd6 & Hf6).
  simpl in Hadd. unfold ret in Hadd. injection Hadd as <- <- <-.
  run_head Hrun.
  apply bind_inv in Hrun as ([] & w7 & t10 & t11 & Hsig & Hrun & ->).
  unfold ret in Hrun. injection Hrun as <- <- <-.
  eexists _, t10. split_and!; [done|exact Hsig| | | | | | |].
  - simpl. by rewrite app_nil_r.
  - simpl. unfold peersOf. rewrite Hp6, Hp5, Hp3, Hp2. done.
  - simpl. congruence.
  - simpl. rewrite Hor6, Hor5, Hor3, Hor2. by destruct (oracle w) as [|? [|? [|? [|? ?]]]].
  - simpl. congruence.
  - rewrite deref_store, decide_True by done.
    change (deref pc (set_peerConnections ?v w6')) with (deref pc w6').
    by rewrite Hd6, Hd5, Hd3.
  - intros h Hne. rewrite deref_store, decide_False by done.
    change (deref h (set_peerConnections ?v w6')) with (deref h w6').
    rewrite Hf6, Hf5, Hf3 by done. unfold deref. by rewrite Hh2.
Qed.

End Join.

Lemma calm_drop n w w' : oracle w' = drop n (oracle w) → calm w → calm w'.
Proof. unfold calm. intros ->. apply Forall_drop. Qed.

Lemma calm_succeedNext n w : calm w → succeedNext n w.
Proof. unfold calm, succeedNext. apply Forall_take. Qed.

Lemma deref_fresh w : deref (fresh (dom (heap w))) w = newPeerConnection.
Proof.
  unfold deref. rewrite (not_elem_of_dom_1 (heap w)); [done|]. apply is_fresh.
Qed.

Lemma filter_closedIn_app w l p :
  closedIn w p = false →
  filter (λ q, ¬ closedIn w q) (l ++ [p]) = filter (λ q, ¬ closedIn w q) l ++ [p].
Proof.
  intros Hp. rewrite filter_app. f_equal. rewrite filter_cons, decide_True; [done|].
  rewrite Hp. simpl. tauto.
Qed.

Lemma filter_closedIn_pointwise w w' (l : list peerConnectionState) :
  (∀ q, closedIn w' q = closedIn w q) →
  filter (λ q, ¬ closedIn w' q) l = filter (λ q, ¬ closedIn w q) l.
Proof. intros Heq. apply list_filter_iff. intros q. by rewrite Heq. Qed.

Lemma closedCount_pointwise w w' l :
  (∀ q, closedIn w' q = closedIn w q) → closedCount w' l = closedCount w l.
Proof.
  intros Heq. unfold closedCount. f_equal. apply list_filter_iff. intros q. by rewrite Heq.
Qed.

Section Sessions.
Context `{Externals}.

Lemma signalPeerConnections_filter room w :
  calm w →
  closedCount w (peersOf room w) < 25 →
  peersOf room (signalPeerConnections room w).1.2
  = filter (λ p, ¬ closedIn w p) (peersOf room w).
Proof.
  intros Hc Hlt. rewrite signalPeerConnections_run. cbn [fst snd].
  destruct (syncLoop_calm room maxSyncAttempts w Hc) as (Hp & _).
  unfold maxSyncAttempts in *. rewrite Hp. apply dropClosed_all. lia.
Qed.

(** X11.  A client that joins when no library call fails and the room
    has fewer than 25 closed connections: when [Handler] reaches its read
    loop the new pair is the last of the room's list, behind the pairs
    that were not closed; its connection has two receivers without a track
    and a sender for every track registered for the room, and an offer has
    been written to its WebSocket. *)
Theorem Handler_join_forwards `{!RangeLaw} r w :
  calm w →
  let roomUUID := default "" (vars r !! "uuid") in
  keyedByID (tracksOf roomUUID w) →
  closedCount w (peersOf roomUUID w) < 25 →
  let res := handlerSetup r w in
  let pc := fresh (dom (heap w)) in
  let p := {| peerConnection := pc; websocket := conn r |} in
  res.1.1 = Some (roomUUID, p)
  ∧ peersOf roomUUID res.1.2 = filter (λ q, ¬ closedIn w q) (peersOf roomUUID w) ++ [p]
  ∧ receivers (deref pc res.1.2) = [None; None]
  ∧ senderIDs (deref pc res.1.2) = dom (tracksOf roomUUID w)
  ∧ ∃ offer, EWriteJSON (conn r)
               {| Event := "offer"; Data := marshalSessionDescription offer |} Ok ∈ res.2.
Proof.
  intros Hc roomUUID Hkey Hlt res pc p. subst res.
  destruct (handlerSetup r w) as [[a w'] t] eqn:Hrun. cbn [fst snd].
  destruct (handlerSetup_run r w a w' t (calm_succeedNext 4 w Hc) Hrun)
    as (w4 & t5 & -> & Hsig & -> & Hp4 & _ & Hor4 & Htl4 & Hd4 & Hf4).
  fold roomUUID pc p in Hsig, Hp4, Hd4, Hf4.
  assert (calm w4) as Hc4 by (by eapply calm_drop).
  assert (peersOf roomUUID w4 = peersOf roomUUID w ++ [p]) as Hpeers.
  { unfold peersOf at 1. by rewrite Hp4, lookup_insert_eq. }
  assert (tracksOf roomUUID w4 = tracksOf roomUUID w) as HT
    by (unfold tracksOf; by rewrite Htl4).
  assert (∀ q, closedIn w4 q = closedIn w q) as Hclosed.
  { intros q. unfold closedIn. destruct (decide (peerConnection q = pc)) as [->|Hne].
    - rewrite Hd4. unfold pc. by rewrite deref_fresh.
    - by rewrite Hf4. }
  assert (closedIn w p = false) as Hnew.
  { unfold closedIn, p, pc. simpl. by rewrite deref_fresh. }
  destruct (signalPeerConnections_calm roomUUID w4 Hc4) as (_ & Hobs & Hlist & Hsync).
  { by rewrite HT. }
  { rewrite Hpeers, (closedCount_pointwise w w4) by done.
    rewrite closedCount_app, closedCount_cons, Hnew. unfold closedCount at 2. simpl. lia. }
  rewrite Hsig in Hobs, Hlist, Hsync. cbn [fst snd] in *.
  rewrite Hpeers, (filter_closedIn_pointwise w w4), filter_closedIn_app in Hlist by done.
  assert (p ∈ peersOf roomUUID w') as Hin.
  { rewrite Hlist. apply elem_of_app. right. by left. }
  destruct (Hsync p Hin) as [[Hsub Hcov] [offer Hoffer]].
  assert (receivers (deref pc w') = [None; None]) as Hrecv.
  { specialize (Hobs pc). injection Hobs as -> _ _. by rewrite Hd4. }
  split_and!; [done|done|done| |].
  - rewrite HT in Hsub, Hcov.
    assert (receiverIDs (deref pc w') = ∅) as Hnone by (unfold receiverIDs; by rewrite Hrecv).
    simpl in Hsub, Hcov. rewrite Hnone in Hcov. set_solver.
  - exists offer. apply elem_of_app. right. apply elem_of_app. by right.
Qed.

(** [Close] on a connection that is not closed and has the state callback
    of [Handler]. *)
Lemma ClosePeerConnection_run h room w :
  onConnectionStateChange (callbacks (deref h w)) = Some room →
  connectionState (deref h w) ≠ PeerConnectionStateClosed →
  ClosePeerConnection h w =
    (tt,
     set_goroutines (goroutines w ++ [Signal 0 room])
       (store h (with_connectionState (deref h w) PeerConnectionStateClosed) w),
     [EClosePeerConnection h; EGo (Signal 0 room)]).
Proof.
  intros Hcb Hopen. unfold ClosePeerConnection. rewrite bind_emit, bind_gets.
  destruct (isClosed (connectionState (deref h w))) eqn:Hc.
  { by destruct (connectionState (deref h w)). }
  rewrite bind_update, Hcb, go_run. done.
Qed.

(** The goroutine that [Close] starts, once it runs with no library call
    failing: the room's list is left with the pairs that are not
    closed. *)
Lemma signal_turn room started w :
  goroutines w = started ++ [Signal 0 room] →
  calm w →
  closedCount w (peersOf room w) < 25 →
  ∃ t w', turn w t w'
          ∧ peersOf room w' = filter (λ q, ¬ closedIn w q) (peersOf room w).
Proof.
  intros Hg Hc Hlt.
  eexists _, _. split; [by eapply (turn_signal w started [] 0 room)|].
  cbv zeta. by rewrite signalPeerConnections_filter.
Qed.

(** X12.  The state callback of lines 160-170 on [Failed] closes the
    connection and removes nothing itself; [Close] starts the goroutine
    of the callback for [Closed], and once that has run, with no library
    call failing and fewer than 25 closed connections in the room, no
    pair with this connection is registered in the room, and the pairs
    that are not closed are all still there, in their order. *)
Theorem failed_connection_is_dropped roomUUID pc w :
  onConnectionStateChange (callbacks (deref pc w)) = Some roomUUID →
  connectionState (deref pc w) ≠ PeerConnectionStateClosed →
  let r := connectionStateCallback roomUUID pc PeerConnectionStateFailed w in
  r.2 = [EClosePeerConnection pc; EGo (Signal 0 roomUUID)]
  ∧ connectionState (deref pc r.1.2) = PeerConnectionStateClosed
  ∧ peerConnections r.1.2 = peerConnections w
  ∧ goroutines r.1.2 = goroutines w ++ [Signal 0 roomUUID]
  ∧ (calm w →
     closedCount r.1.2 (peersOf roomUUID w) < 25 →
     ∃ t w', turn r.1.2 t w'
             ∧ peersOf roomUUID w'
               = filter (λ q, ¬ closedIn r.1.2 q) (peersOf roomUUID w)
             ∧ ∀ q, q ∈ peersOf roomUUID w' → peerConnection q ≠ pc).
Proof.
  intros Hcb Hopen r. subst r. unfold connectionStateCallback.
  rewrite (ClosePeerConnection_run pc roomUUID w Hcb Hopen). cbn [fst snd].
  set (w1 := set_goroutines _ _).
  assert (connectionState (deref pc w1) = PeerConnectionStateClosed) as Hclosed.
  { unfold w1, deref, store. simpl. by rewrite lookup_insert_eq. }
  split_and!; [done..|]. intros Hc Hlt.
  destruct (signal_turn roomUUID (goroutines w) w1) as (t & w' & Hturn & Hlist); [done..|].
  exists t, w'. split_and!; [done|done|].
  intros q Hq Heq. rewrite Hlist in Hq. apply list_elem_of_filter in Hq as [Hq _].
  apply Hq. unfold closedIn. by rewrite Heq, Hclosed.
Qed.

Lemma readStep_observed p message frame :
  preserves (keeps observed) (readStep p message frame).
Proof. unfold readStep, handleMessage, AddICECandidate, SetRemoteDescription. frames. Qed.

Lemma readLoop_observed p inbound : ∀ message,
  preserves (keeps observed) (readLoop p message inbound).
Proof.
  induction inbound as [|frame rest IH]; intros message; simpl; frames.
  apply readStep_observed.
Qed.

Lemma readStep_same {A} (f : World → A) `{!Registry f} p message frame :
  preserves (same f) (readStep p message frame).
Proof. unfold readStep, handleMessage, AddICECandidate, SetRemoteDescription. frames. Qed.

Lemma readLoop_same {A} (f : World → A) `{!Registry f} p inbound : ∀ message,
  preserves (same f) (readLoop p message inbound).
Proof.
  induction inbound as [|frame rest IH]; intros message; simpl; frames.
  by apply readStep_same.
Qed.

(** X13.  When a session that [Handler] had set up ends, the deferred
    [Close] leaves its connection closed and starts the goroutine of the
    state callback; once that has run, with no library call failing and
    fewer than 25 closed connections in the room, the pair of the session
    is no longer registered. *)
Theorem Handler_end_drops r inbound w :
  succeedNext 4 w →
  let res := Handler r inbound w in
  let roomUUID := default "" (vars r !! "uuid") in
  let pc := fresh (dom (heap w)) in
  res.1.1 = Finished →
  connectionState (deref pc res.1.2) = PeerConnectionStateClosed
  ∧ (∃ started, goroutines res.1.2 = started ++ [Signal 0 roomUUID])
  ∧ (calm res.1.2 →
     closedCount res.1.2 (peersOf roomUUID res.1.2) < 25 →
     ∃ t w', turn res.1.2 t w'
             ∧ peersOf roomUUID w'
               = filter (λ q, ¬ closedIn res.1.2 q) (peersOf roomUUID res.1.2)
             ∧ ∀ q, q ∈ peersOf roomUUID w' → peerConnection q ≠ pc).
Proof.
  intros Hok res roomUUID pc. subst res. unfold Handler.
  destruct (handlerSetup r w) as [[a w1] t1] eqn:Hrun.
  rewrite (bind_run _ _ _ _ _ _ Hrun). cbn [fst snd].
  destruct (handlerSetup_run r w a w1 t1 Hok Hrun)
    as (w4 & t5 & -> & Hsig & -> & _ & _ & _ & _ & Hd4 & _).
  fold roomUUID pc in Hsig, Hd4.
  set (p := {| peerConnection := pc; websocket := conn r |}).
  pose proof (preserves_run _ _ _ _ _ _ (signalPeerConnections_observed _) Hsig pc) as Ho1.
  destruct (readLoop p {| Event := ""; Data := "" |} inbound w1) as [[exit w2] t2] eqn:Hloop.
  rewrite (bind_run _ _ _ _ _ _ Hloop). cbn [fst snd].
  pose proof (preserves_run _ _ _ _ _ _ (readLoop_observed _ _ _) Hloop pc) as Ho2.
  destruct exit as [exit|]; [|done]. intros _.
  assert (observed (deref pc w2) = observed (deref pc w4)) as Ho by (by rewrite Ho2, Ho1).
  rewrite Hd4 in Ho. injection Ho as _ Hstate Hcb.
  unfold handlerDefers. subst p. cbn [peerConnection websocket]. fold pc.
  assert (bind (bind (ClosePeerConnection pc) (λ _, CloseWebsocket (conn r)))
            (λ _, ret Finished) w2
          = (Finished,
             set_goroutines (goroutines w2 ++ [Signal 0 roomUUID])
               (store pc (with_connectionState (deref pc w2) PeerConnectionStateClosed) w2),
             [EClosePeerConnection pc; EGo (Signal 0 roomUUID); ECloseWebsocket (conn r)]))
    as ->.
  { unfold bind at 1. unfold bind at 1.
    rewrite (ClosePeerConnection_run pc roomUUID w2); [done| |].
    - by rewrite Hcb.
    - by rewrite Hstate. }
  cbn [fst snd]. set (w3 := set_goroutines _ _).
  assert (connectionState (deref pc w3) = PeerConnectionStateClosed) as Hclosed.
  { unfold w3, deref, store. simpl. by rewrite lookup_insert_eq. }
  split_and!; [done|by exists (goroutines w2)|]. intros Hc Hlt.
  destruct (signal_turn roomUUID (goroutines w2) w3) as (t & w' & Hturn & Hlist); [done..|].
  exists t, w'. split_and!; [done|done|].
  intros q Hq Heq. rewrite Hlist in Hq. apply list_elem_of_filter in Hq as [Hq _].
  apply Hq. unfold closedIn. by rewrite Heq, Hclosed.
Qed.

End Sessions.

Global Instance gathers_preorder h : PreOrder (gathers h).
Proof.
  split; [intros w; unfold gathers; reflexivity|].
  intros w1 w2 w3 H1 H2. unfold gathers in *. by etrans.
Qed.

Global Instance elsewhere_preorder room : PreOrder (elsewhere room).
Proof.
  split; [by intros w room'|]. intros w1 w2 w3 H1 H2 room' Hne.
  by rewrite H2, H1.
Qed.

Lemma outcome_gathers h : preserves (gathers h) outcome.
Proof. intros w. unfold gathers. reflexivity. Qed.

Lemma update_gathers h h' F :
  (∀ pc, remoteCandidates pc `prefix_of` remoteCandidates (F pc)) →
  preserves (gathers h) (update h' F).
Proof.
  intros HF w. unfold gathers. simpl. rewrite deref_store.
  case_decide; [subst; apply HF|reflexivity].
Qed.

Lemma elsewhere_same room w w' :
  peerConnections w' = peerConnections w → elsewhere room w w'.
Proof. intros Hpc room' _. by apply peersOf_same. Qed.

Section ReadLoopIsolation.
Context `{Externals}.

Lemma readStep_gathers h p message frame : preserves (gathers h) (readStep p message frame).
Proof.
  unfold readStep, handleMessage, AddICECandidate, SetRemoteDescription. frames.
  all: first [ apply outcome_gathers | apply update_gathers; intros pc; simpl ].
  - by apply prefix_app_r.
  - done.
Qed.

Lemma readStep_only_at p message frame :
  preserves (only_at (peerConnection p)) (readStep p message frame).
Proof. unfold readStep, handleMessage, AddICECandidate, SetRemoteDescription. frames. Qed.

Lemma readStep_senders p message frame :
  preserves (keeps senders) (readStep p message frame).
Proof. unfold readStep, handleMessage, AddICECandidate, SetRemoteDescription. frames. Qed.

Lemma readStep_own p message frame :
  emits (ownSignalling (peerConnection p)) (readStep p message frame).
Proof.
  unfold readStep, handleMessage, AddICECandidate, SetRemoteDescription.
  step_emits; by apply emits_emit.
Qed.

Lemma readLoop_stops p inbound : ∀ message w exit post,
  (readLoop p message inbound w).1.1 = Some exit →
  readLoop p message (inbound ++ post) w = readLoop p message inbound w.
Proof.
  induction inbound as [|frame rest IH]; intros message w exit post; simpl; [done|].
  destruct (readStep p message frame w) as [[s w1] t1] eqn:Hstep.
  rewrite !(bind_run _ _ _ _ _ _ Hstep). destruct s as [e|m]; simpl; [done|].
  intros Hexit. by erewrite IH.
Qed.

(** X14.  The read loop of a session works on the connection of that
    session only.  It calls nothing but [AddICECandidate] and
    [SetRemoteDescription] on it, so it writes no frame and closes nothing;
    the registry, the goroutines and every other connection are untouched,
    and of its own connection it changes neither the senders, the
    receivers, the state nor the callbacks, and only adds to the remote
    candidates.  Once a frame has ended the session, the frames after it
    are not looked at. *)
Theorem readLoop_isolated p message inbound w :
  let r := readLoop p message inbound w in
  let pc := peerConnection p in
  Forall (ownSignalling pc) r.2
  ∧ peerConnections r.1.2 = peerConnections w
  ∧ trackLocals r.1.2 = trackLocals w
  ∧ goroutines r.1.2 = goroutines w
  ∧ (∀ h, h ≠ pc → heap r.1.2 !! h = heap w !! h)
  ∧ senders (deref pc r.1.2) = senders (deref pc w)
  ∧ observed (deref pc r.1.2) = observed (deref pc w)
  ∧ remoteCandidates (deref pc w) `prefix_of` remoteCandidates (deref pc r.1.2)
  ∧ ∀ exit post, r.1.1 = Some exit → readLoop p message (inbound ++ post) w = r.
Proof.
  intros r pc. subst r pc. split_and!.
  - revert message w. induction inbound as [|frame rest IH]; intros message w; simpl;
      [constructor|].
    destruct (readStep p message frame w) as [[s w1] t1] eqn:Hstep.
    rewrite (bind_run _ _ _ _ _ _ Hstep). cbn [fst snd].
    pose proof (emits_run _ _ _ _ _ _ (readStep_own _ _ _) Hstep) as Hown.
    apply Forall_app. split; [done|]. destruct s; [constructor|apply IH].
  - apply (readLoop_same peerConnections).
  - apply (readLoop_same trackLocals).
  - apply (readLoop_same goroutines).
  - revert message w. induction inbound as [|frame rest IH]; intros message w h Hne; simpl;
      [done|].
    destruct (readStep p message frame w) as [[s w1] t1] eqn:Hstep.
    rewrite (bind_run _ _ _ _ _ _ Hstep). cbn [fst snd].
    pose proof (preserves_run _ _ _ _ _ _ (readStep_only_at _ _ _) Hstep h Hne) as Hat.
    destruct s; simpl; [done|]. by rewrite IH.
  - revert message w. induction inbound as [|frame rest IH]; intros message w; simpl; [done|].
    destruct (readStep p message frame w) as [[s w1] t1] eqn:Hstep.
    rewrite (bind_run _ _ _ _ _ _ Hstep). cbn [fst snd].
    pose proof (preserves_run _ _ _ _ _ _ (readStep_senders _ _ _) Hstep (peerConnection p))
      as Hs.
    destruct s; simpl; [done|]. by rewrite IH.
  - apply readLoop_observed.
  - revert message w. induction inbound as [|frame rest IH]; intros message w; simpl; [done|].
    destruct (readStep p message frame w) as [[s w1] t1] eqn:Hstep.
    rewrite (bind_run _ _ _ _ _ _ Hstep). cbn [fst snd].
    pose proof (preserves_run _ _ _ _ _ _ (readStep_gathers (peerConnection p) _ _ _) Hstep)
      as Hg.
    destruct s; simpl; [done|]. etrans; [exact Hg|apply IH].
  - intros exit post. apply readLoop_stops.
Qed.

End ReadLoopIsolation.

Lemma filter_dropClosed w peers n :
  filter (λ p, ¬ closedIn w p) (dropClosed w peers n) = filter (λ p, ¬ closedIn w p) peers.
Proof.
  revert n. induction peers as [|p rest IH]; intros n; simpl; [done|].
  destruct n; [done|]. destruct (closedIn w p) eqn:Hp.
  - rewrite IH, (filter_cons _ p), decide_False; [done|]. rewrite Hp. simpl. tauto.
  - rewrite !filter_cons, IH. done.
Qed.

Section Retries.
Context `{Externals}.

Lemma signalPeerConnections_calm_run room w :
  calm w →
  let r := signalPeerConnections room w in
  let c := closedCount w (peersOf room w) in
  peersOf room r.1.2 = dropClosed w (peersOf room w) 25
  ∧ calm r.1.2
  ∧ keeps observed w r.1.2
  ∧ trackLocals r.1.2 = trackLocals w
  ∧ goroutines r.1.2 = (if decide (c < 25) then goroutines w
                        else goroutines w ++ [Signal 3 room]).
Proof.
  intros Hc r c. subst r c.
  split_and!; [| |apply signalPeerConnections_observed|apply signalPeerConnections_tracks|].
  - rewrite signalPeerConnections_run. cbn [fst snd].
    by destruct (syncLoop_calm room maxSyncAttempts w Hc) as (Hp & _).
  - eapply consumes_calm; [apply signalPeerConnections_consumes|done].
  - rewrite signalPeerConnections_run. cbn [fst snd].
    by destruct (syncLoop_calm room maxSyncAttempts w Hc) as (_ & _ & _ & _ & _ & Hg).
Qed.


Lemma signalPeerConnections_elsewhere room : preserves (elsewhere room) (signalPeerConnections room).
Proof. intros w. by destruct (signalPeerConnections_shrinks room w) as [_ Ho]. Qed.

Lemma same_elsewhere {A} room (m : M A) :
  preserves (same peerConnections) m → preserves (elsewhere room) m.
Proof. intros Hm w. apply elsewhere_same, Hm. Qed.

Lemma ClosePeerConnection_peers h : preserves (same peerConnections) (ClosePeerConnection h).
Proof. unfold ClosePeerConnection. frames. by apply go_same. Qed.

Lemma addTransceivers_peers h kinds : preserves (same peerConnections) (addTransceivers h kinds).
Proof.
  induction kinds as [|k kinds IH]; simpl; [frames|].
  unfold AddTransceiverFromKind. frames.
Qed.

Lemma NewPeerConnection_peers : preserves (same peerConnections) NewPeerConnection.
Proof. unfold NewPeerConnection. frames. by apply preserves_modify. Qed.

Lemma handlerSetup_elsewhere r :
  preserves (elsewhere (default "" (vars r !! "uuid"))) (handlerSetup r).
Proof.
  unfold handlerSetup, handlerSession, CloseWebsocket. frames.
  all: first
    [ apply signalPeerConnections_elsewhere
    | apply same_elsewhere;
      first [ apply NewPeerConnection_peers | apply addTransceivers_peers
            | apply ClosePeerConnection_peers | by apply go_same
            | unfold Upgrade; by frames | by frames ]
    | idtac ].
  apply preserves_modify. intros w room' Hne. by rewrite peersOf_insert, decide_False.
Qed.

(** X16.  A request changes the list of its own room only, and no track
    map: whatever the frames and however it ends, the lists of the other
    rooms and all of [trackLocals] are as before [Handler] was called. *)
Theorem Handler_elsewhere r inbound w :
  let res := Handler r inbound w in
  (∀ room', room' ≠ default "" (vars r !! "uuid") →
            peersOf room' res.1.2 = peersOf room' w)
  ∧ trackLocals res.1.2 = trackLocals w.
Proof.
  intros res. subst res. split.
  - assert (preserves (elsewhere (default "" (vars r !! "uuid"))) (Handler r inbound)) as Hh;
      [|apply Hh].
    unfold Handler, handlerDefers, CloseWebsocket. frames.
    all: first
      [ apply handlerSetup_elsewhere
      | apply same_elsewhere;
        first [ apply (readLoop_same peerConnections) | apply ClosePeerConnection_peers ] ].
  - assert (preserves (same trackLocals) (Handler r inbound)) as Hh; [|apply Hh].
    unfold Handler, handlerDefers, CloseWebsocket, handlerSetup, handlerSession, Upgrade,
      NewPeerConnection, ClosePeerConnection.
    frames.
    all: first
      [ apply signalPeerConnections_tracks | apply (readLoop_same trackLocals)
      | by apply go_same | by apply preserves_modify
      | idtac ].
    induction [RTPCodecTypeVideo; RTPCodecTypeAudio] as [|k kinds IH]; simpl; [frames|].
    unfold AddTransceiverFromKind. frames.
Qed.

End Retries.

Lemma joinedWorld_keyed room : keyedByID (tracksOf room joinedWorld).
Proof.
  intros k t. unfold tracksOf, joinedWorld. simpl.
  destruct (decide (room = "room")) as [->|Hne].
  - rewrite lookup_singleton_eq. simpl. by intros [<- <-]%lookup_singleton_Some.
  - rewrite lookup_singleton_ne by done. simpl. by rewrite lookup_empty.
Qed.


Lemma signalPeerConnections_prunes_witness :
  peersOf "room" (signalPeerConnections "room" bobClosedWorld).1.2
  = dropClosed bobClosedWorld (peersOf "room" bobClosedWorld) 25.
Proof.
  destruct (signalPeerConnections_prunes "room" bobClosedWorld) as [Hp _];
    [by constructor|exact Hp].
Defined.

Lemma addTrack_forwards_witness :
  (addTrack remoteVideo "room" joinedWorld).1.1 = Some (localOf remoteVideo).
Proof.
  destruct (@addTrack_forwards exampleExternals exampleRangeLaw remoteVideo "room" joinedWorld)
    as (Hf & _); [by constructor|apply joinedWorld_keyed|vm_compute; lia|exact Hf].
Defined.


Lemma onTrack_unregisters_witness :
  tracksOf "room"
    (trackCallbackEnd "room" (localOf remoteVideo)
       (trackCallbackBegin "room" remoteVideo emptyWorld).1.2).1.2
  = delete "video" (tracksOf "room" emptyWorld).
Proof.
  destruct (onTrack_unregisters remoteVideo "room" emptyWorld) as (_ & _ & Hd & _);
    [done|exact Hd].
Defined.


Lemma Handler_join_forwards_witness :
  senderIDs (deref (fresh (dom (heap joinedWorld))) (handlerSetup joinRequest joinedWorld).1.2)
  = dom (tracksOf "room" joinedWorld).
Proof.
  destruct (@Handler_join_forwards exampleExternals exampleRangeLaw joinRequest joinedWorld)
    as (_ & _ & _ & Hf & _); [by constructor|apply joinedWorld_keyed|vm_compute; lia|exact Hf].
Defined.

Lemma failed_connection_is_dropped_witness :
  let w := (handlerSetup joinRequest emptyWorld).1.2 in
  connectionState
    (deref 0 (connectionStateCallback "room" 0 PeerConnectionStateFailed w).1.2)
  = PeerConnectionStateClosed.
Proof.
  destruct (failed_connection_is_dropped "room" 0 (handlerSetup joinRequest emptyWorld).1.2)
    as (_ & Hf & _); [by vm_compute|by vm_compute|exact Hf].
Defined.

Lemma Handler_end_drops_witness :
  connectionState
    (deref (fresh (dom (heap emptyWorld))) (Handler joinRequest [ReadError] emptyWorld).1.2)
  = PeerConnectionStateClosed.
Proof.
  destruct (Handler_end_drops joinRequest [ReadError] emptyWorld) as (Hf & _);
    [by constructor|by vm_compute|exact Hf].
Defined.


Section EdgeCases.
Context `{Externals}.

(** X17.  [removeTrack] for an id that is not registered for the room,
    or for a room that has no track map, changes no track map and creates
    none ([delete] on a nil map does nothing); it still takes the lock and
    runs [signalPeerConnections] for the room. *)
Theorem removeTrack_missing t room w :
  tracksOf room w !! tlID t = None →
  let r := removeTrack t room w in
  trackLocals r.1.2 = trackLocals w
  ∧ r.1.2 = (signalPeerConnections room w).1.2
  ∧ r.2 = [ELock; EUnlock] ++ (signalPeerConnections room w).2.
Proof.
  intros Hmiss r. subst r. rewrite removeTrack_run. cbn [fst snd].
  assert (unregistered (tlID t) room w = w) as ->; [|split_and!; try done;
    apply signalPeerConnections_tracks].
  unfold unregistered.
  assert (alter (delete (tlID t)) room (trackLocals w) = trackLocals w) as ->.
  { apply map_eq. intros room'. destruct (decide (room = room')) as [<-|Hne].
    - rewrite lookup_alter_eq. unfold tracksOf in Hmiss.
      destruct (trackLocals w !! room) as [tracks|]; simpl in *; [|done].
      by rewrite delete_id.
    - by rewrite lookup_alter_ne. }
  by destruct w.
Qed.

(** X18.  What the result of [attemptSync] means.  It reports true
    exactly when a library call failed or it removed a pair from the
    room's list; when it reports false every call succeeded and the list
    is unchanged.  A pair it removes is the first one of the list whose
    connection is closed, and then no call before it had failed. *)
Theorem attemptSync_reports room w :
  let r := attemptSync room w in
  (r.1.1 = true ↔ Exists failed r.2 ∨ peersOf room r.1.2 ≠ peersOf room w)
  ∧ (r.1.1 = false → Forall succeeded r.2 ∧ peerConnections r.1.2 = peerConnections w)
  ∧ (peersOf room r.1.2 ≠ peersOf room w →
       Forall succeeded r.2
       ∧ ∃ before p after,
           peersOf room w = before ++ p :: after
           ∧ Forall (λ q, closedIn w q = false) before
           ∧ closedIn w p = true
           ∧ peersOf room r.1.2 = before ++ after).
Proof.
  intros r. subst r. unfold attemptSync. rewrite bind_gets.
  assert (∀ t, Forall succeeded t → Exists failed t → False) as Hexcl.
  { intros t Hall (e & He & Hf)%Exists_exists. rewrite Forall_forall in Hall.
    by apply (Hall e He). }
  destruct (first_closed w (peersOf room w))
    as [Hall|(before & p & after & Hsplit & Hb & Hp)].
  - assert (∀ q, q ∈ peersOf room w →
                 connectionState (deref (peerConnection q) w) ≠ PeerConnectionStateClosed)
      as Hlive.
    { intros q Hq. rewrite Forall_forall in Hall. by apply closedIn_live, Hall. }
    destruct (peersLoop_live room (peersOf room w) 0 w Hlive) as [Hpcs Hout].
    destruct (peersLoop room 0 (peersOf room w) w) as [[b w'] t]. cbn [fst snd] in *.
    pose proof (peersOf_same room w w' Hpcs) as Hsame.
    destruct b; split_and!.
    + split; [by left|done].
    + done.
    + by intros [].
    + split; [done|]. intros [Hf|Hne]; [by destruct (Hexcl t)|done].
    + done.
    + by intros [].
  - assert (∀ q, q ∈ before →
                 connectionState (deref (peerConnection q) w) ≠ PeerConnectionStateClosed)
      as Hlive.
    { intros q Hq. rewrite Forall_forall in Hb. by apply closedIn_live, Hb. }
    assert (connectionState (deref (peerConnection p) w) = PeerConnectionStateClosed)
      as Hclosed.
    { unfold closedIn in Hp. by destruct (connectionState _). }
    destruct (peersLoop_live room before 0 w Hlive) as [Hpcs Hout].
    destruct (peersLoop room 0 before w) as [[b0 w0] t0] eqn:Hrun. cbn [fst snd] in *.
    assert (peersLoop room 0 (peersOf room w) w
            = (true,
               if b0 then w0
               else set_peerConnections
                      (<[room := [] ++ before ++ after]> (peerConnections w0)) w0,
               t0)) as ->.
    { rewrite Hsplit at 1. by apply (peersLoop_closed room before [] 0 w p after). }
    cbn [fst snd]. destruct b0.
    + pose proof (peersOf_same room w w0 Hpcs) as Hsame. split_and!.
      * split; [by left|done].
      * done.
      * by intros [].
    + rewrite peersOf_insert, decide_True by done. simpl.
      assert (before ++ after ≠ peersOf room w) as Hne.
      { rewrite Hsplit. intros Heq. apply (f_equal length) in Heq.
        rewrite !length_app in Heq. simpl in Heq. lia. }
      split_and!.
      * split; [by right|done].
      * done.
      * intros _. split; [done|]. by exists before, p, after.
Qed.

End EdgeCases.

Lemma removeTrack_missing_witness :
  trackLocals (removeTrack localVideo "nowhere" joinedWorld).1.2 = trackLocals joinedWorld.
Proof.
  destruct (removeTrack_missing localVideo "nowhere" joinedWorld) as (Hf & _);
    [by vm_compute|exact Hf].
Defined.

Section ExactPass.
Context `{Externals} `{!RangeLaw}.

Lemma resync_idempotent tracks pc pc' :
  receiverIDs pc' = receiverIDs pc →
  senderIDs pc' = resync tracks pc →
  resync tracks pc' = resync tracks pc.
Proof.
  unfold resync. intros -> ->. apply set_eq. intros x.
  rewrite !elem_of_union, !elem_of_intersection, !elem_of_difference,
    !elem_of_union, !elem_of_intersection, !elem_of_difference, !elem_of_union.
  tauto.
Qed.

Lemma receiverIDs_observed w w' h :
  keeps observed w w' → receiverIDs (deref h w') = receiverIDs (deref h w).
Proof. intros Ho. specialize (Ho h). injection Ho as Hr _ _. unfold receiverIDs. by rewrite Hr. Qed.

Lemma peersLoop_exact room snapshot : ∀ i w w' t,
  keyedByID (tracksOf room w) →
  peersLoop room i snapshot w = (false, w', t) →
  ∀ h, senderIDs (deref h w')
       = if decide (h ∈ peerConnection <$> snapshot)
         then resync (tracksOf room w) (deref h w)
         else senderIDs (deref h w).
Proof.
  induction snapshot as [|p rest IH]; intros i w w' t Hkey Hrun h.
  - unfold peersLoop, ret in Hrun. injection Hrun as <- _. by rewrite decide_False by set_solver.
  - simpl in Hrun. rewrite bind_gets in Hrun. destruct (isClosed _).
    { rewrite bind_gets, bind_modify in Hrun. by unfold ret in Hrun. }
    apply bind_inv in Hrun as (r & w1 & t1 & t2 & Hsync & Hrun & ->).
    destruct r; [by unfold ret in Hrun|].
    pose proof (preserves_run _ _ _ _ _ _ (syncPeer_same trackLocals _ _) Hsync) as Htl.
    pose proof (preserves_run _ _ _ _ _ _ (syncPeer_observed _ _) Hsync) as Hobs.
    pose proof (preserves_run _ _ _ _ _ _ (syncPeer_only_at _ _) Hsync) as Hat.
    assert (tracksOf room w1 = tracksOf room w) as HT by (unfold tracksOf; by rewrite Htl).
    destruct (syncPeer_false room p w w1 t1 Hkey Hsync) as [Hp _]. fold (resync (tracksOf room w) (deref (peerConnection p) w)) in Hp.
    rewrite (IH (S i) w1 w' t2) by (by rewrite ?HT). rewrite HT.
    destruct (decide (h = peerConnection p)) as [->|Hne].
    + rewrite (decide_True (P := peerConnection p ∈ peerConnection <$> p :: rest))
        by (rewrite fmap_cons; by left).
      case_decide; [|done].
      apply resync_idempotent; [by apply receiverIDs_observed|done].
    + rewrite (only_at_deref _ _ _ _ Hat) by done.
      case_decide as Hin.
      * rewrite decide_True; [done|]. rewrite fmap_cons. by right.
      * rewrite decide_False; [done|]. rewrite fmap_cons, not_elem_of_cons. done.
Qed.

(** X19.  What a pass that reports no change has done to the senders.
    For every pair of the room, the track ids its connection sends are now
    the ones it sent before that are still registered, and the registered
    ones that it neither sent nor receives; so a sender for an id the
    connection also receives stays as long as the id is registered.  No
    other connection's senders changed. *)
Theorem attemptSync_exact room w w' t :
  keyedByID (tracksOf room w) →
  attemptSync room w = (false, w', t) →
  (∀ p, p ∈ peersOf room w →
        senderIDs (deref (peerConnection p) w')
        = (senderIDs (deref (peerConnection p) w) ∩ dom (tracksOf room w))
          ∪ (dom (tracksOf room w)
               ∖ (senderIDs (deref (peerConnection p) w)
                    ∪ receiverIDs (deref (peerConnection p) w))))
  ∧ (∀ h, h ∉ peerConnection <$> peersOf room w → senders (deref h w') = senders (deref h w)).
Proof.
  intros Hkey Hrun. unfold attemptSync in Hrun. rewrite bind_gets in Hrun. split.
  - intros p Hp. rewrite (peersLoop_exact _ _ _ _ _ _ Hkey Hrun).
    rewrite decide_True; [done|]. apply list_elem_of_fmap. by exists p.
  - intros h Hh. pose proof (peersLoop_within room (peersOf room w) 0 w h Hh) as Hheap.
    rewrite Hrun in Hheap. cbn [fst snd] in Hheap. unfold deref. by rewrite Hheap.
Qed.

End ExactPass.

Lemma attemptSync_exact_witness :
  let r := attemptSync "room" collisionWorld in
  senderIDs (deref 2 r.1.2)
  = (senderIDs (deref 2 collisionWorld) ∩ dom (tracksOf "room" collisionWorld))
    ∪ (dom (tracksOf "room" collisionWorld)
         ∖ (senderIDs (deref 2 collisionWorld) ∪ receiverIDs (deref 2 collisionWorld))).
Proof.
  destruct (@attemptSync_exact exampleExternals exampleRangeLaw "room" collisionWorld
              (attemptSync "room" collisionWorld).1.2 (attemptSync "room" collisionWorld).2)
    as [Hp _].
  - intros k t. unfold tracksOf, collisionWorld. simpl. rewrite lookup_singleton_eq. simpl.
    by intros [<- <-]%lookup_singleton_Some.
  - by vm_compute.
  - apply (Hp bob). change (bob ∈ [alice; bob]). right. by left.
Defined.
